(** * Remote item search: a shallow embedding of [RemoteItemSearcher]

    Sources embedded here:
    - [musify/libraries/remote/core/processors/search.py]
      ([SearchConfig], [ItemSearchResult], [RemoteItemSearcher]);
    - [syncify/abstract/item.py] ([Item.__eq__]);
    - [syncify/abstract/collection.py] ([__len__], [__iter__]);
    - [syncify/spotify/library/_base.py] ([SpotifyObject.uri], [has_uri]).

    Local items are mutable objects shared between the caller and the
    searcher, so they live in a heap indexed by references; a collection
    holds references.  The remote API is an oracle whose calls are recorded
    in a trace.  Exceptions are explicit outcomes.  Worker pools are run
    one task after another in submission order, and their results are
    consumed in that order, as [Executor.map] yields them.

    The earlier [ItemSearcher] of [syncify/spotify/processor/search.py] has
    the same query cascade and the same keying of results by collection
    name; the embedding follows the later [RemoteItemSearcher]. *)

From Stdlib Require Import QArith Sorted.
From stdpp Require Import gmap strings list functions.

Local Open Scope string_scope.
Local Open Scope list_scope.

(** ** Enumerations *)

Module Tag.
(** The members of [TagFields] that the searcher's settings mention. *)
Inductive t := NAME | TITLE | ARTIST | ALBUM | LENGTH.

#[global] Instance eq_dec : EqDecision t.
Proof. solve_decision. Defined.
End Tag.

Module RemoteObjectType.
Inductive t := PLAYLIST | TRACK | ALBUM | ARTIST.

#[global] Instance eq_dec : EqDecision t.
Proof. solve_decision. Defined.
End RemoteObjectType.

(** ** Python truthiness *)

Class Truthy (A : Type) := truthy : A → bool.

#[global] Instance truthy_bool : Truthy bool := λ b, b.
#[global] Instance truthy_string : Truthy string :=
  λ s, match s with EmptyString => false | _ => true end.
#[global] Instance truthy_list {A} : Truthy (list A) :=
  λ l, match l with [] => false | _ => true end.
(** [None] is falsy; [Some x] is as truthy as [x]. *)
#[global] Instance truthy_option {A} `{Truthy A} : Truthy (option A) :=
  λ o, match o with None => false | Some x => truthy x end.

(** ** Local objects *)

(** What [_get_results] and the matcher read of any [MusifyObject]:
    its name, its [kind] attribute when it has one, and its cleaned tags
    as [ItemMatcher.clean_tags], which is not among the sources, leaves
    them (attribute values already rendered with [str]). *)
Record MusifyObject := {
  obj_name : string;
  obj_kind : option RemoteObjectType.t;
  obj_clean_tags : list (Tag.t * string);
}.

Module Item.
(** A settable item: [has_uri] is tri-state ([None]: not yet searched,
    [Some false]: explicitly unavailable, [Some true]: real URI). *)
Record t := {
  name : string;
  uri : option string;
  has_uri : option bool;
  kind : option RemoteObjectType.t;
  clean_tags : list (Tag.t * string);
}.

#[global] Instance eq_dec : EqDecision t.
Proof. solve_decision. Defined.

Definition obj (i : t) : MusifyObject :=
  {| obj_name := name i; obj_kind := kind i; obj_clean_tags := clean_tags i |}.

(** [Item.__eq__]:
    [if self.has_uri or item.has_uri:
         return self.has_uri == item.has_uri and self.uri == item.uri
     return self.name == item.name] *)
Definition eq (self item : t) : bool :=
  if truthy (has_uri self) || truthy (has_uri item)
  then bool_decide (has_uri self = has_uri item) && bool_decide (uri self = uri item)
  else bool_decide (name self = name item).
End Item.

(** References to items; [x is y] is equality of references. *)
Definition ref := nat.
Definition Heap := ref → Item.t.

(** [item in tup] for a tuple of item references: identity first, then
    [__eq__], element by element. *)
Definition contains (h : Heap) (item : ref) (tup : list ref) : bool :=
  existsb (λ x, bool_decide (x = item) || Item.eq (h x) (h item)) tup.

Module Collection.
(** [compilation] is [None] when the object has no such attribute. *)
Record t := {
  name : string;
  items : list ref;
  kind : option RemoteObjectType.t;
  compilation : option (option bool);
  clean_tags : list (Tag.t * string);
}.

Definition obj (c : t) : MusifyObject :=
  {| obj_name := name c; obj_kind := kind c; obj_clean_tags := clean_tags c |}.

(** [getattr(collection, "compilation", True) is False] *)
Definition as_unit (c : t) : bool :=
  bool_decide (default (Some true) (compilation c) = Some false).
End Collection.

(** ** Remote objects *)

(** A remote object as the factory builds it from a response:
    [uri = response["uri"]], [has_uri = not response.get("is_local", False)],
    [_total] the advertised item count, [items] the item listing held by
    the response (partial until [extend_items] has run).  [resp_kind] is
    the response's ["type"], which fixes the class the factory builds.
    The factory classes only wrap the response, so [factory[kind](response)]
    is the response itself here. *)
#[warnings="-register-all"]
Inductive Response := MkResponse {
  resp_kind : RemoteObjectType.t;
  resp_name : string;
  resp_uri : string;
  resp_is_local : bool;
  resp_total : Z;
  resp_items : list Response;
}.

Definition resp_has_uri (r : Response) : bool := negb (resp_is_local r).

(** A remote album or playlist is an [ItemCollection], which has
    [__len__] and is falsy when it holds no items; the other remote
    objects define neither [__bool__] nor [__len__]. *)
#[global] Instance truthy_response : Truthy Response :=
  λ r, match resp_kind r with
       | RemoteObjectType.ALBUM | RemoteObjectType.PLAYLIST => truthy (resp_items r)
       | _ => true
       end.

(** ** Configuration *)

(** [SearchConfig]; the float thresholds are rationals. *)
Record SearchConfig := {
  match_fields : list Tag.t;
  search_fields_1 : list Tag.t;
  search_fields_2 : list Tag.t;
  search_fields_3 : list Tag.t;
  result_count : nat;
  min_score : Q;
  max_score : Q;
  allow_karaoke : bool;
}.

Definition track_settings : SearchConfig :=
  {| match_fields := [Tag.TITLE; Tag.ARTIST; Tag.ALBUM; Tag.LENGTH];
     search_fields_1 := [Tag.NAME; Tag.ARTIST];
     search_fields_2 := [Tag.NAME; Tag.ALBUM];
     search_fields_3 := [Tag.NAME];
     result_count := 10;
     min_score := 1 # 10;
     max_score := 8 # 10;
     allow_karaoke := false |}.

Definition album_settings : SearchConfig :=
  {| match_fields := [Tag.ARTIST; Tag.ALBUM; Tag.LENGTH];
     search_fields_1 := [Tag.NAME; Tag.ARTIST];
     search_fields_2 := [Tag.NAME];
     search_fields_3 := [];
     result_count := 5;
     min_score := 1 # 10;
     max_score := 7 # 10;
     allow_karaoke := false |}.

(** [RemoteItemSearcher.search_settings], a dict with two keys. *)
Definition search_settings (kind : RemoteObjectType.t) : option SearchConfig :=
  match kind with
  | RemoteObjectType.TRACK => Some track_settings
  | RemoteObjectType.ALBUM => Some album_settings
  | _ => None
  end.

(** ** Outcomes and computations *)

Inductive Exn :=
| MusifyAttributeError
| KeyError
| TypeError
| RemoteAPIError (msg : string).

Inductive Outcome (A : Type) :=
| Return (a : A)
| Raise (e : Exn).
Arguments Return {A} a.
Arguments Raise {A} e.

(** A computation over a state [S] that returns or raises. *)
Definition Comp (S A : Type) : Type := S → Outcome A * S.

Definition ret {S A} (a : A) : Comp S A := λ s, (Return a, s).
Definition raise {S A} (e : Exn) : Comp S A := λ s, (Raise e, s).
Definition bind {S A B} (c : Comp S A) (k : A → Comp S B) : Comp S B :=
  λ s, match c s with
       | (Return a, s') => k a s'
       | (Raise e, s') => (Raise e, s')
       end.

Notation "x <- c ;; k" := (bind c (λ x, k))
  (at level 100, c at next level, right associativity).
Notation "c ;;; k" := (bind c (λ _, k))
  (at level 100, right associativity).

(** [Executor.map(fn, iterable)] followed by the pool's shutdown: every
    submitted task runs to completion, whether or not an earlier one
    raised, and each outcome is kept for the consumer. *)
Fixpoint executor_map {S A B} (fn : A → Comp S B) (iterable : list A) (s : S)
  : list (Outcome B) * S :=
  match iterable with
  | [] => ([], s)
  | a :: rest =>
      let '(o, s1) := fn a s in
      let '(os, s2) := executor_map fn rest s1 in
      (o :: os, s2)
  end.

(** What the searcher leaves behind besides the items: the API calls it
    made and the lines it logged with [_log_padded]. *)
Inductive LogLine :=
| LogResults (name query : string) (n : nat)
| LogNoResults (name query : string)
| LogSkipping (name : string)
| LogAsUnit (name : string)
| LogMissing (name : string) (n : nat)
| LogDistinct (name : string).

Record Trace := {
  queries : list (string * RemoteObjectType.t * nat);
  extended : list Response;
  logs : list LogLine;
}.

Record State := { heap : Heap; trace : Trace }.

Definition no_trace : Trace := {| queries := []; extended := []; logs := [] |}.

Definition _log_padded (l : LogLine) : Comp Trace () :=
  λ t, (Return (), {| queries := queries t; extended := extended t; logs := logs t ++ [l] |}).

(** A computation that only calls the API and logs leaves the heap alone. *)
Definition lift {A} (c : Comp Trace A) : Comp State A :=
  λ s, let '(o, t) := c (trace s) in (o, {| heap := heap s; trace := t |}).

(** ** The matcher *)

Section Matcher.

(** The per-field similarities and their weighted total, and the derived
    karaoke flags, are computed by code that is not among the sources;
    they are parameters here. *)
Variable score : MusifyObject → list Tag.t → Response → Q.
Variable is_karaoke : Response → bool.
Variable karaoke_source : MusifyObject → bool.

(** Modelled from the spec: [ItemMatcher.match], whose module
    (musify/processors/match.py) is not among the sources.  Step 1 of the
    spec's algorithm: candidates flagged as karaoke are filtered out
    unless [allow_karaoke] is true or the source itself is karaoke. *)
Definition eligible (source : MusifyObject) (allow_karaoke : bool)
    (results : list Response) : list Response :=
  List.filter (λ c, allow_karaoke || negb (is_karaoke c) || karaoke_source source) results.

(** Modelled from the spec: steps 2 to 4 of [ItemMatcher.match].  Each
    candidate is scored in the order given; the highest score seen so far
    is tracked, the first encountered winning a tie; a candidate that
    reaches [max_score] ends the scan and is the one kept.  The second
    component lists the candidates that were scored. *)
Fixpoint scan (source : MusifyObject) (match_on : list Tag.t) (max_score : Q)
    (results : list Response) (best : option (Response * Q)) (scored : list Response)
  : option (Response * Q) * list Response :=
  match results with
  | [] => (best, scored)
  | c :: rest =>
      let sc := score source match_on c in
      if Qle_bool max_score sc then (Some (c, sc), scored ++ [c])
      else
        let best' := match best with
                     | Some (_, sb) => if Qle_bool sc sb then best else Some (c, sc)
                     | None => Some (c, sc)
                     end in
        scan source match_on max_score rest best' (scored ++ [c])
  end.

(** Modelled from the spec: step 5 of [ItemMatcher.match].  After all
    candidates are scanned, or the scan was cut short, the best candidate
    is returned only if its score is at least [min_score]. *)
Definition match_scored (source : MusifyObject) (results : list Response)
    (match_on : list Tag.t) (min_score max_score : Q) (allow_karaoke : bool)
  : option Response * list Response :=
  let '(best, scored) :=
    scan source match_on max_score (eligible source allow_karaoke results) None [] in
  (match best with
   | Some (b, sb) => if Qle_bool min_score sb then Some b else None
   | None => None
   end, scored).

(** Modelled from the spec: [ItemMatcher.match] proper, the candidate
    that [match_scored] settles on. *)
Definition match_ (source : MusifyObject) (results : list Response)
    (match_on : list Tag.t) (min_score max_score : Q) (allow_karaoke : bool)
  : option Response :=
  fst (match_scored source results match_on min_score max_score allow_karaoke).

End Matcher.

(** ** The searcher *)

(** [ItemSearchResult]: three tuples of item references. *)
Record ItemSearchResult := {
  matched : list ref;
  unmatched : list ref;
  skipped : list ref;
}.

#[global] Instance ItemSearchResult_eq_dec : EqDecision ItemSearchResult.
Proof. solve_decision. Defined.

(** Consuming the iterator returned by [Executor.map]: results come in
    submission order and the first task that raised re-raises there. *)
Fixpoint consume {A} (outs : list (Outcome A)) : Outcome (list A) :=
  match outs with
  | [] => Return []
  | Return a :: rest =>
      match consume rest with
      | Return l => Return (a :: l)
      | Raise e => Raise e
      end
  | Raise e :: _ => Raise e
  end.

(** [dict(pairs)]: a later pair replaces an earlier one with the same key. *)
Definition dict {V} (pairs : list (string * V)) : gmap string V :=
  fold_left (λ m p, <[p.1 := p.2]> m) pairs ∅.

(** [sorted(xs, key=key)]: stable, ascending. *)
Fixpoint insert_sorted {A} (key : A → Z) (x : A) (l : list A) : list A :=
  match l with
  | [] => [x]
  | y :: l' => if (key x <=? key y)%Z then x :: l else y :: insert_sorted key x l'
  end.

Definition sorted {A} (key : A → Z) (l : list A) : list A :=
  fold_right (insert_sorted key) [] l.

(** [tags.get(key)] *)
Definition tag_get (tags : list (Tag.t * string)) (key : Tag.t) : option string :=
  snd <$> List.find (λ p, bool_decide (p.1 = key)) tags.

(** The query string of [execute_query]:
    [" ".join(str(attr) for attr in attributes if attr)].  Tag values are
    strings here; a falsy value of another type stands as the empty
    string, which the test leaves out as well. *)
Definition query_string (item : MusifyObject) (keys : list Tag.t) : string :=
  let attributes := map (tag_get (obj_clean_tags item)) keys in
  String.concat " " (omap (λ attr : option string, if truthy attr then attr else None) attributes).

(** [filter(lambda i: i.has_uri is None, collection)] *)
Definition unsearched (h : Heap) (items : list ref) : list ref :=
  List.filter (λ i, bool_decide (Item.has_uri (h i) = None)) items.

Definition get_heap : Comp State Heap := λ s, (Return (heap s), s).

Fixpoint for_each {S A B} (body : A → Comp S B) (l : list A) : Comp S (list B) :=
  match l with
  | [] => ret []
  | a :: rest => b <- body a ;; bs <- for_each body rest ;; ret (b :: bs)
  end.

Section Searcher.

Variable score : MusifyObject → list Tag.t → Response → Q.
Variable is_karaoke : Response → bool.
Variable karaoke_source : MusifyObject → bool.

(** The remote API: [api.query(q, kind=, limit=)],
    [api.extend_items(response, kind=, key=, use_cache=self.use_cache)]
    (its result is the response as the call leaves it) and
    [api.collection_item_map]. *)
Variable query : string → RemoteObjectType.t → nat → Outcome (list Response).
Variable extend_items : Response → RemoteObjectType.t → RemoteObjectType.t → Outcome Response.
Variable collection_item_map : RemoteObjectType.t → option RemoteObjectType.t.

(** [RemoteDataWrangler.unavailable_uri_dummy] *)
Variable unavailable_uri_dummy : string.

(** Modelled from the spec: the concrete [uri] setter of a settable item,
    which is not among the sources ([Item.uri] is abstract: "Set both the
    [uri] property and the [has_uri] property").  [None] makes the item
    unsearched, the dummy marks it unavailable, any other value is a real
    URI. *)
Definition set_uri (i : Item.t) (value : option string) : Item.t :=
  let '(u, h) :=
    match value with
    | None => (None, None)
    | Some v => if bool_decide (v = unavailable_uri_dummy)
                then (None, Some false) else (Some v, Some true)
    end in
  {| Item.name := Item.name i; Item.uri := u; Item.has_uri := h;
     Item.kind := Item.kind i; Item.clean_tags := Item.clean_tags i |}.

(** [item.uri = value] *)
Definition assign_uri (item : ref) (value : string) : Comp State () :=
  λ s, (Return (), {| heap := <[item := set_uri (heap s item) (Some value)]> (heap s);
                      trace := trace s |}).

Definition api_query (q : string) (kind : RemoteObjectType.t) (limit : nat)
  : Comp Trace (list Response) :=
  λ t, (query q kind limit,
        {| queries := queries t ++ [(q, kind, limit)];
           extended := extended t; logs := logs t |}).

Definition api_extend_items (response : Response) (kind key : RemoteObjectType.t)
  : Comp Trace Response :=
  λ t, (extend_items response kind key,
        {| queries := queries t;
           extended := extended t ++ [response]; logs := logs t |}).

Definition execute_query (item : MusifyObject) (kind : RemoteObjectType.t)
    (settings : SearchConfig) (keys : list Tag.t) : Comp Trace (list Response * string) :=
  let q := query_string item keys in
  results <- api_query q kind (result_count settings) ;;
  ret (results, q).

(** [_get_results]; falling off the end returns [None]. *)
Definition _get_results (item : MusifyObject) (kind : RemoteObjectType.t)
    (settings : SearchConfig) : Comp Trace (option (list Response)) :=
  rq <- execute_query item kind settings (search_fields_1 settings) ;;
  rq <- (if negb (truthy rq.1) && truthy (search_fields_2 settings)
         then execute_query item kind settings (search_fields_2 settings)
         else ret rq) ;;
  rq <- (if negb (truthy rq.1) && truthy (search_fields_3 settings)
         then execute_query item kind settings (search_fields_3 settings)
         else ret rq) ;;
  if truthy rq.1
  then _log_padded (LogResults (obj_name item) rq.2 (length rq.1)) ;;;
       ret (Some rq.1)
  else _log_padded (LogNoResults (obj_name item) rq.2) ;;;
       ret None.

Definition _determine_remote_object_type {S} (obj : MusifyObject)
  : Comp S RemoteObjectType.t :=
  match obj_kind obj with
  | Some kind => ret kind
  | None => raise MusifyAttributeError
  end.

(** [self.search_settings[kind]] *)
Definition get_search_settings {S} (kind : RemoteObjectType.t) : Comp S SearchConfig :=
  match search_settings kind with
  | Some config => ret config
  | None => raise KeyError
  end.

(** [_get_item_match]; the item is passed as the value the task reads.
    Without [results] the candidates are a [map] object, which is truthy
    even when it yields nothing; given [results] are a list, tested as
    such. *)
Definition _get_item_match (item : Item.t) (match_on : option (list Tag.t))
    (results : option (list Response)) : Comp Trace (option Response) :=
  kind <- _determine_remote_object_type (Item.obj item) ;;
  search_config <- get_search_settings kind ;;
  results <- match results with
             | None =>
                 responses <- _get_results (Item.obj item) kind search_config ;;
                 ret (default [] responses, true)
             | Some results => ret (results, truthy results)
             end ;;
  ret (if results.2 : bool
       then match_ score is_karaoke karaoke_source (Item.obj item) results.1
              (default (match_fields search_config) match_on)
              (min_score search_config) (max_score search_config)
              (allow_karaoke search_config)
       else None).

(** [for item, match in matches: if match and match.has_uri: item.uri = match.uri] *)
Fixpoint assign_matches (matches : list (Outcome (ref * option Response)))
  : Comp State () :=
  match matches with
  | [] => ret ()
  | Return (item, m) :: rest =>
      (match m with
       | Some r => if truthy r && resp_has_uri r
                   then assign_uri item (resp_uri r) else ret ()
       | None => ret ()
       end) ;;;
      assign_matches rest
  | Raise e :: _ => raise e
  end.

(** The two inner pools: one task per item that has [None] on [has_uri]
    when the tasks are submitted; the pool is shut down, and only then
    are the matches consumed and assigned. *)
Definition match_items (match_on : option (list Tag.t))
    (results : option (list Response)) (collection : list ref) : Comp State () :=
  λ s,
    let '(matches, t) :=
      executor_map
        (λ i, m <- _get_item_match (heap s i) match_on results ;; ret (i, m))
        (unsearched (heap s) collection) (trace s) in
    assign_matches matches {| heap := heap s; trace := t |}.

Definition _search_items (collection : list ref) : Comp State () :=
  match_items None None collection.

Definition _search_collection_unit (collection : Collection.t) : Comp State () :=
  let items := Collection.items collection in
  h <- get_heap ;;
  if forallb (λ i, truthy (Item.has_uri (h i))) items then ret ()
  else
    kind <- _determine_remote_object_type (Collection.obj collection) ;;
    search_config <- get_search_settings kind ;;
    responses <- lift (_get_results (Collection.obj collection) kind search_config) ;;
    key <- match collection_item_map kind with
           | Some key => ret key
           | None => raise KeyError
           end ;;
    responses <- match responses with
                 | Some responses => ret responses
                 | None => raise TypeError
                 end ;;
    responses <- lift (for_each (λ r, api_extend_items r kind key) responses) ;;
    let results :=
      sorted (λ x, Z.abs (resp_total x - Z.of_nat (length items))) responses in
    let result :=
      match_ score is_karaoke karaoke_source (Collection.obj collection) results
        (match_fields search_config) (min_score search_config)
        (max_score search_config) (allow_karaoke search_config) in
    match result with
    | Some result =>
        if truthy result
        then match_items (Some [Tag.TITLE]) (Some (resp_items result)) items
        else ret ()
    | None => ret ()
    end.

Definition _search_collection (collection : Collection.t) : Comp State ItemSearchResult :=
  let name := Collection.name collection in
  let items := Collection.items collection in
  h0 <- get_heap ;;
  let skipped := List.filter (λ i, bool_decide (Item.has_uri (h0 i) ≠ None)) items in
  (if bool_decide (length skipped = length items)
   then lift (_log_padded (LogSkipping name)) else ret ()) ;;;
  (if Collection.as_unit collection
   then
     lift (_log_padded (LogAsUnit name)) ;;;
     _search_collection_unit collection ;;;
     h <- get_heap ;;
     let missing := unsearched h items in
     if truthy missing
     then lift (_log_padded (LogMissing name (length missing))) ;;;
          _search_items items
     else ret ()
   else
     lift (_log_padded (LogDistinct name)) ;;;
     _search_items items) ;;;
  h <- get_heap ;;
  ret {| matched :=
           List.filter (λ i, truthy (Item.has_uri (h i)) && negb (contains h i skipped)) items;
         unmatched :=
           List.filter (λ i, bool_decide (Item.has_uri (h i) = None)
                             && negb (contains h i skipped)) items;
         skipped := skipped |}.

(** [search]; the progress bar and [_log_results], which only report,
    are left out.  The outer pool runs every collection's task, as a pool
    with a worker per collection does, before the first exception, if
    any, is re-raised by the consumer. *)
Definition search (collections : list Collection.t)
  : Comp State (gmap string ItemSearchResult) :=
  λ s,
    if negb (truthy (flat_map (λ c, unsearched (heap s) (Collection.items c)) collections))
    then (Return ∅, s)
    else
      let '(outs, s1) :=
        executor_map
          (λ coll, r <- _search_collection coll ;; ret (Collection.name coll, r))
          collections s in
      (match consume outs with
       | Return pairs => Return (dict pairs)
       | Raise e => Raise e
       end, s1).

(** *** Notions used to state what the pools do *)

(** The outcome of the task submitted for item [i]. *)
Definition item_match (h : Heap) (match_on : option (list Tag.t))
    (results : option (list Response)) (i : ref) : Outcome (option Response) :=
  (_get_item_match (h i) match_on results no_trace).1.

(** The state after the loop body has handled one match. *)
Definition after_match (i : ref) (m : option Response) (s : State) : State :=
  match m with
  | Some r =>
      if truthy r && resp_has_uri r
      then {| heap := <[i := set_uri (heap s i) (Some (resp_uri r))]>
                        (heap s);
              trace := trace s |}
      else s
  | None => s
  end.

End Searcher.

(** ** The query planner as the spec words it *)

Section Planner.

Variable query : string → RemoteObjectType.t → nat → Outcome (list Response).

(** One field-set after another: build the query string, call the query
    function, stop at the first non-empty result; when every field-set
    is exhausted, the result is the last attempt's. *)
Fixpoint cascade (item : MusifyObject) (kind : RemoteObjectType.t)
    (settings : SearchConfig) (field_sets : list (list Tag.t))
    (last : list Response * string) : Comp Trace (list Response * string) :=
  match field_sets with
  | [] => ret last
  | keys :: rest =>
      rq <- execute_query query item kind settings keys ;;
      if truthy rq.1 then ret rq else cascade item kind settings rest rq
  end.

(** The spec's [plan_and_execute]: the up to three field-sets in order,
    an empty or unset field-set being skipped. *)
Definition plan_and_execute (item : MusifyObject) (kind : RemoteObjectType.t)
    (settings : SearchConfig) : Comp Trace (list Response * string) :=
  cascade item kind settings
    (List.filter truthy
       [search_fields_1 settings; search_fields_2 settings; search_fields_3 settings])
    ([], "").

(** How [_get_results] ends: it logs the outcome and returns the results,
    or [None] when there are none. *)
Definition report_results (item : MusifyObject) (rq : list Response * string)
  : Comp Trace (option (list Response)) :=
  if truthy rq.1
  then _log_padded (LogResults (obj_name item) rq.2 (length rq.1)) ;;;
       ret (Some rq.1)
  else _log_padded (LogNoResults (obj_name item) rq.2) ;;;
       ret None.

End Planner.

(** ** Auxiliary notions for the statements *)

(** An item has a real URI when [has_uri] is truthy. *)
Definition real_uri (i : Item.t) : Prop := Item.has_uri i = Some true.

#[global] Instance real_uri_dec i : Decision (real_uri i).
Proof. unfold real_uri. apply _. Defined.

(** The candidates a scan scores: all of them up to and including the
    first that reaches [max_score]. *)
Fixpoint scanned (score : MusifyObject → list Tag.t → Response → Q)
    (source : MusifyObject) (match_on : list Tag.t) (max_score : Q)
    (results : list Response) : list Response :=
  match results with
  | [] => []
  | c :: rest =>
      c :: (if Qle_bool max_score (score source match_on c) then []
            else scanned score source match_on max_score rest)
  end.

Definition below (min_score : Q) (best : option (Response * Q)) : Prop :=
  match best with
  | Some (_, sb) => (sb < min_score)%Q
  | None => True
  end.

(** The queries a plan makes when none of them has results, and what the
    cascade then hands back: no results and the last query string. *)
Definition plan_queries (item : MusifyObject) (kind : RemoteObjectType.t)
    (settings : SearchConfig) (plan : list (list Tag.t))
  : list (string * RemoteObjectType.t * nat) :=
  map (λ keys, (query_string item keys, kind, result_count settings)) plan.

Definition exhausted (item : MusifyObject) (plan : list (list Tag.t))
    (last : list Response * string) : list Response * string :=
  fold_left (λ _ keys, ([], query_string item keys)) plan last.

(** The outcome of a computation does not depend on the calls and log
    lines already recorded. *)
Definition oblivious {A} (c : Comp Trace A) : Prop :=
  ∀ t t', (c t).1 = (c t').1.

(** What the loop that consumes the matches does to one item. *)
Definition assign_one (unavailable_uri_dummy : string) (m : option Response)
    (x : Item.t) : Item.t :=
  match m with
  | Some r => if truthy r && resp_has_uri r
              then set_uri unavailable_uri_dummy x (Some (resp_uri r)) else x
  | None => x
  end.

(** A task's outcome paired with the item it was submitted for, as the
    item tasks return it. *)
Definition tagged {A B} (a : A) (o : Outcome B) : Outcome (A * B) :=
  match o with
  | Return b => Return (a, b)
  | Raise e => Raise e
  end.

(** The items [_search_collection] sets aside before it searches, and the
    result it builds afterwards from the heap as the search left it. *)
Definition skipped_of (h : Heap) (items : list ref) : list ref :=
  List.filter (λ i, bool_decide (Item.has_uri (h i) ≠ None)) items.

Definition classification (h : Heap) (skipped items : list ref) : ItemSearchResult :=
  {| matched :=
       List.filter (λ i, truthy (Item.has_uri (h i)) && negb (contains h i skipped)) items;
     unmatched :=
       List.filter (λ i, bool_decide (Item.has_uri (h i) = None)
                         && negb (contains h i skipped)) items;
     skipped := skipped |}.

(** A computation keeps a property of the state, however it ends. *)
Definition preserves {S A} (P : S → Prop) (c : Comp S A) : Prop :=
  ∀ s, P s → P (c s).2.

(** The first exception among the outcomes of a pool, if any. *)
Fixpoint first_raise {A} (outs : list (Outcome A)) : option Exn :=
  match outs with
  | [] => None
  | Return _ :: rest => first_raise rest
  | Raise e :: _ => Some e
  end.

(** What a search may have done to a heap [h0]: an item is as it was, or
    it was unsearched and has been assigned the URI of a remote object
    that has one. *)
Definition assigned_from (unavailable_uri_dummy : string) (h0 h : Heap) : Prop :=
  ∀ r, h r = h0 r ∨
       (Item.has_uri (h0 r) = None ∧
        ∃ m, resp_has_uri m = true ∧
             h r = set_uri unavailable_uri_dummy (h0 r) (Some (resp_uri m))).

(** ** Example inputs *)

Module Ex.

(** A scoring oracle for the examples: an exact name match scores 1,
    the remote objects ["c1"], ["c2"], ["c3"] have fixed scores. *)
Definition score (source : MusifyObject) (match_on : list Tag.t) (c : Response) : Q :=
  if bool_decide (resp_name c = obj_name source) then 1
  else if bool_decide (resp_name c = "c1") then 5 # 10
  else if bool_decide (resp_name c = "c2") then 85 # 100
  else if bool_decide (resp_name c = "c3") then 6 # 10
  else 0.

Definition never {A} (_ : A) : bool := false.

Definition extend_items (r : Response) (kind key : RemoteObjectType.t)
  : Outcome Response := Return r.

Definition collection_item_map (kind : RemoteObjectType.t) : option RemoteObjectType.t :=
  match kind with
  | RemoteObjectType.ALBUM | RemoteObjectType.PLAYLIST => Some RemoteObjectType.TRACK
  | _ => None
  end.

Definition unavailable_uri_dummy : string := "spotify:track:unavailable".

Definition no_results (q : string) (kind : RemoteObjectType.t) (limit : nat)
  : Outcome (list Response) := Return [].

Definition start (h : Heap) : State :=
  {| heap := h; trace := {| queries := []; extended := []; logs := [] |} |}.

Definition track (name : string) (uri : option string) (has_uri : option bool) : Item.t :=
  {| Item.name := name; Item.uri := uri; Item.has_uri := has_uri;
     Item.kind := Some RemoteObjectType.TRACK;
     Item.clean_tags := [(Tag.NAME, name); (Tag.TITLE, name)] |}.

Definition remote_track (name uri : string) : Response :=
  {| resp_kind := RemoteObjectType.TRACK; resp_name := name; resp_uri := uri;
     resp_is_local := false; resp_total := 0; resp_items := [] |}.

Definition remote_album (name uri : string) (total : Z) (items : list Response) : Response :=
  {| resp_kind := RemoteObjectType.ALBUM; resp_name := name; resp_uri := uri;
     resp_is_local := false; resp_total := total; resp_items := items |}.

Definition folder (name : string) (items : list ref) (compilation : bool) : Collection.t :=
  {| Collection.name := name; Collection.items := items;
     Collection.kind := Some RemoteObjectType.ALBUM;
     Collection.compilation := Some (Some compilation);
     Collection.clean_tags := [(Tag.NAME, name)] |}.

Definition source (name : string) : MusifyObject :=
  {| obj_name := name; obj_kind := Some RemoteObjectType.TRACK;
     obj_clean_tags := [(Tag.NAME, name)] |}.

(** Item 0 is marked unavailable, item 1 is unsearched; both are named
    ["Intro"]. *)
Definition two_intros : Heap :=
  λ r, match r with
       | 0 => track "Intro" None (Some false)
       | _ => track "Intro" None None
       end.

(** Items 0 and 1 are unsearched; every other item has a real URI. *)
Definition two_unsearched : Heap :=
  λ r, match r with
       | 0 => track "Alpha" None None
       | 1 => track "Beta" None None
       | _ => track "Gamma" (Some "spotify:track:3") (Some true)
       end.

(** Every item has a real URI. *)
Definition all_available : Heap :=
  λ r, track "Gamma" (Some "spotify:track:3") (Some true).

(** Item 0 is marked unavailable, every other item is unsearched. *)
Definition one_unavailable : Heap :=
  λ r, match r with
       | 0 => track "Alpha" None (Some false)
       | _ => track "Beta" None None
       end.

(** The query for ["Alpha"] fails; the one for ["Beta"] finds a track. *)
Definition query_alpha_fails (q : string) (kind : RemoteObjectType.t) (limit : nat)
  : Outcome (list Response) :=
  if bool_decide (q = "Alpha") then Raise (RemoteAPIError "503")
  else if bool_decide (q = "Beta") then Return [remote_track "Beta" "spotify:track:2"]
  else Return [].

(** Only the query ["Intro"] has results. *)
Definition query_intro (q : string) (kind : RemoteObjectType.t) (limit : nat)
  : Outcome (list Response) :=
  if bool_decide (q = "Intro") then Return [remote_track "Intro" "spotify:track:1"]
  else Return [].

(** Settings whose first field-set is empty. *)
Definition empty_first : SearchConfig :=
  {| match_fields := [Tag.TITLE]; search_fields_1 := [];
     search_fields_2 := [Tag.NAME]; search_fields_3 := [];
     result_count := 10; min_score := 1 # 10; max_score := 8 # 10;
     allow_karaoke := false |}.

Definition album_one : Response :=
  remote_album "Gold" "spotify:album:1" 1 [remote_track "Alpha" "spotify:track:1"].
Definition album_two : Response :=
  remote_album "Gold (Deluxe)" "spotify:album:2" 9 [remote_track "Alpha" "spotify:track:9"].

(** The album query ["Gold"] returns two albums. *)
Definition query_gold (q : string) (kind : RemoteObjectType.t) (limit : nat)
  : Outcome (list Response) :=
  if bool_decide (q = "Gold") then Return [album_one; album_two] else Return [].

(** The album query ["Gold"] returns one album, of another name. *)
Definition query_deluxe (q : string) (kind : RemoteObjectType.t) (limit : nat)
  : Outcome (list Response) :=
  if bool_decide (q = "Gold") then Return [album_two] else Return [].

(** Item 0 already has the URI that the query ["Intro"] finds; every
    other item is an unsearched track of the same name. *)
Definition intro_twice : Heap :=
  λ r, match r with
       | 0 => track "Intro" (Some "spotify:track:1") (Some true)
       | _ => track "Intro" None None
       end.

(** The searcher over the example API. *)
Definition search (query : string → RemoteObjectType.t → nat → Outcome (list Response))
  : list Collection.t → Comp State (gmap string ItemSearchResult) :=
  search score never never query extend_items collection_item_map unavailable_uri_dummy.

Definition search_collection
    (query : string → RemoteObjectType.t → nat → Outcome (list Response))
  : Collection.t → Comp State ItemSearchResult :=
  _search_collection score never never query extend_items collection_item_map
    unavailable_uri_dummy.

Definition search_collection_unit
    (query : string → RemoteObjectType.t → nat → Outcome (list Response))
  : Collection.t → Comp State () :=
  _search_collection_unit score never never query extend_items collection_item_map
    unavailable_uri_dummy.

End Ex.

(** ** The report of [_log_results] *)

(** The colours of a report row: [\33[92m], [\33[94m], [\33[91m], [\33[93m]. *)
Inductive Colour := Green | Blue | Red | Yellow.

(** A line given to [logger.report]: a collection's row with its three
    counts, their colours and its total, or the closing [TOTALS] row.
    Alignment and width ([align_string], [get_max_width]) are left out. *)
Inductive ReportLine :=
| RowLine (name : string) (colour1 : Colour) (matched : nat)
    (colour2 : Colour) (unmatched : nat) (colour3 : Colour) (skipped : nat) (total : nat)
| TotalsLine (total_matched total_unmatched total_skipped total_all : nat).

(** The loop of [_log_results] over [results.items()], with the four
    running totals; [total] is computed before the running totals are
    increased, as in the source. *)
Fixpoint report_rows (results : list (string * ItemSearchResult))
    (total_matched total_unmatched total_skipped total_all : nat)
  : list ReportLine * (nat * nat * nat * nat) :=
  match results with
  | [] => ([], (total_matched, total_unmatched, total_skipped, total_all))
  | (name, result) :: rest =>
      let matched := length (matched result) in
      let unmatched := length (unmatched result) in
      let skipped := length (skipped result) in
      let total := total_matched + total_unmatched + total_skipped in
      let colour1 := if bool_decide (0 < matched) then Green else Blue in
      let colour2 := if bool_decide (unmatched = 0) then Green else Red in
      let colour3 := if bool_decide (skipped = 0) then Green else Yellow in
      let '(lines, totals) :=
        report_rows rest (total_matched + matched) (total_unmatched + unmatched)
          (total_skipped + skipped) (total_all + total) in
      (RowLine name colour1 matched colour2 unmatched colour3 skipped total :: lines, totals)
  end.

(** [_log_results], on the mapping's items in iteration order: the lines
    it reports. *)
Definition _log_results (results : list (string * ItemSearchResult)) : list ReportLine :=
  if negb (truthy results) then []
  else
    let '(lines, (total_matched, total_unmatched, total_skipped, total_all)) :=
      report_rows results 0 0 0 0 in
    lines ++ [TotalsLine total_matched total_unmatched total_skipped total_all].

(** The count of all the items of a result, and its sum over results. *)
Definition result_size (result : ItemSearchResult) : nat :=
  length (matched result) + length (unmatched result) + length (skipped result).

Definition results_size (results : list (string * ItemSearchResult)) : nat :=
  sum_list_with (λ p, result_size p.2) results.

(** ** The result of the earlier [ItemSearcher.search] *)

(** [SearchResult] of [syncify/spotify/processor/search.py]. *)
Record SearchResult := {
  sr_matched : list ref;
  sr_unmatched : list ref;
  sr_skipped : list ref;
}.

(** The [SearchResult] that [ItemSearcher.search] stores for a collection,
    built from the items of [result]:
    [matched=[track for track in result if track.has_uri]],
    [unmatched=[... if track.has_uri is None]],
    [skipped=[... if not track.has_uri]]. *)
Definition search_result (h : Heap) (result : list ref) : SearchResult :=
  {| sr_matched := List.filter (λ track, truthy (Item.has_uri (h track))) result;
     sr_unmatched := List.filter (λ track, bool_decide (Item.has_uri (h track) = None)) result;
     sr_skipped := List.filter (λ track, negb (truthy (Item.has_uri (h track)))) result |}.

(** ** Python lists *)

#[global] Instance truthy_Z : Truthy Z := λ z, negb (z =? 0)%Z.

Module PyList.

Inductive Error := ValueError | IndexError | KeyError.

Inductive Result (A : Type) :=
| Ok (a : A)
| Err (e : Error).
Arguments Ok {A} a.
Arguments Err {A} e.

Definition and_then {A B} (r : Result A) (k : A → Result B) : Result B :=
  match r with
  | Ok a => k a
  | Err e => Err e
  end.

(** A negative index counts from the end. *)
Definition wrap (len : nat) (i : Z) : Z :=
  if (i <? 0)%Z then (i + Z.of_nat len)%Z else i.

(** A slice bound: a negative one counts from the end and stops at 0. *)
Definition clamp (len : nat) (i : Z) : nat := Z.to_nat (Z.max 0 (wrap len i)).

(** [l[i]] *)
Definition getitem {A} (l : list A) (i : Z) : Result A :=
  let j := wrap (length l) i in
  if (j <? 0)%Z then Err IndexError
  else match l !! Z.to_nat j with
       | Some a => Ok a
       | None => Err IndexError
       end.

(** [l.pop(i)]: the item and the list without it. *)
Definition pop {A} (l : list A) (i : Z) : Result (A * list A) :=
  let j := wrap (length l) i in
  if (j <? 0)%Z then Err IndexError
  else match l !! Z.to_nat j with
       | Some a => Ok (a, delete (Z.to_nat j) l)
       | None => Err IndexError
       end.

(** The position of the first item that satisfies [f]. *)
Fixpoint position {A} (f : A → bool) (l : list A) : option nat :=
  match l with
  | [] => None
  | y :: l' => if f y then Some 0 else S <$> position f l'
  end.

(** [l.index(x, start, stop)], where [same y x] compares the list's item
    [y] with [x]. *)
Definition index {A} (same : A → A → bool) (l : list A) (x : A) (start stop : Z)
  : Result nat :=
  let a := clamp (length l) start in
  let b := clamp (length l) stop in
  match position (λ y, same y x) (drop a (take b l)) with
  | Some i => Ok (a + i)
  | None => Err ValueError
  end.

(** [l.count(x)] *)
Definition count {A} (same : A → A → bool) (l : list A) (x : A) : nat :=
  length (List.filter (λ y, same y x) l).

(** [l.remove(x)]: the list without the first item equal to [x]. *)
Fixpoint remove {A} (same : A → A → bool) (l : list A) (x : A) : Result (list A) :=
  match l with
  | [] => Err ValueError
  | y :: l' => if same y x then Ok l'
               else and_then (remove same l' x) (λ l'', Ok (y :: l''))
  end.

(** [l.insert(i, x)]: the position is brought within the list. *)
Definition insert {A} (l : list A) (i : Z) (x : A) : list A :=
  let j := Nat.min (clamp (length l) i) (length l) in
  take j l ++ x :: drop j l.

(** [l[i] = x] for a position [i] known to be within the list. *)
Definition setitem {A} (l : list A) (i : nat) (x : A) : list A := <[i := x]> l.

End PyList.

(** ** Item collections *)

Module ItemCollection.

Import PyList.

(** How the list methods compare an item of the list with a value: the
    same object, or equal by [Item.__eq__]. *)
Definition same (h : Heap) (y x : ref) : bool :=
  bool_decide (y = x) || Item.eq (h y) (h x).

(** [a or b] on an optional integer. *)
Definition or_else (o : option Z) (d : Z) : Z :=
  match o with
  | Some z => if truthy z then z else d
  | None => d
  end.

(** The methods of [ItemCollection] on the list [self.items].  Every
    reference denotes an [Item], so [_validate_item_type] holds and
    [SyncifyTypeError] is never raised. *)

Definition count (h : Heap) (items : list ref) (item : ref) : nat :=
  PyList.count (same h) items item.

(** [self.items.index(__item, __start or 0, __stop or len(self.items))] *)
Definition index (h : Heap) (items : list ref) (item : ref) (start stop : option Z)
  : Result nat :=
  PyList.index (same h) items item (or_else start 0) (or_else stop (Z.of_nat (length items))).

(** [if allow_duplicates or __item not in self.items: self.items.append(__item)] *)
Definition append (h : Heap) (items : list ref) (item : ref) (allow_duplicates : bool)
  : list ref :=
  if allow_duplicates || negb (contains h item items) then items ++ [item] else items.

Definition insert (h : Heap) (items : list ref) (i : Z) (item : ref)
    (allow_duplicates : bool) : list ref :=
  if allow_duplicates || negb (contains h item items) then PyList.insert items i item
  else items.

Definition remove (h : Heap) (items : list ref) (item : ref) : Result (list ref) :=
  PyList.remove (same h) items item.

(** [self.items.pop(__item) if __item else self.items.pop()] *)
Definition pop (items : list ref) (i : option Z) : Result (ref * list ref) :=
  if truthy i then PyList.pop items (default 0%Z i) else PyList.pop items (-1).

(** [__contains__]: [any(__item == i for i in self.items)] *)
Definition __contains__ (h : Heap) (items : list ref) (item : ref) : bool :=
  existsb (λ i, Item.eq (h item) (h i)) items.

(** [__eq__] of two collections: names equal, lengths equal and the items
    equal in order, as far as [zip] pairs them. *)
Fixpoint zip_all (h : Heap) (l1 l2 : list ref) : bool :=
  match l1, l2 with
  | x :: l1', y :: l2' => Item.eq (h x) (h y) && zip_all h l1' l2'
  | _, _ => true
  end.

Definition __eq__ (h : Heap) (c1 c2 : string * list ref) : bool :=
  bool_decide (c1.1 = c2.1) && bool_decide (length c1.2 = length c2.2)
  && zip_all h c1.2 c2.2.

(** [__sub__]: a copy of the items from which each of [__items] is
    removed in turn. *)
Definition __sub__ (h : Heap) (items other : list ref) : Result (list ref) :=
  fold_left (λ acc item, and_then acc (λ l, remove h l item)) other (Ok items).

(** The keys of [BasicCollection.__getitem__] other than slices. *)
Inductive Key := KInt (i : Z) | KItem (item : ref) | KStr (s : string).

Definition first_where (f : ref → bool) (items : list ref) : Result ref :=
  match List.find f items with
  | Some item => Ok item
  | None => Err KeyError
  end.

(** [BasicCollection.__getitem__] *)
Definition __getitem__ (h : Heap) (items : list ref) (key : Key) : Result ref :=
  match key with
  | KInt i => getitem items i
  | KItem k =>
      if negb (truthy (Item.has_uri (h k))) || bool_decide (Item.uri (h k) = None)
      then Err KeyError
      else first_where (λ item, bool_decide (Item.uri (h item) = Item.uri (h k))) items
  | KStr s => first_where (λ item, bool_decide (Item.name (h item) = s)) items
  end.

(** [__setitem__]; [class_of] gives the class of the object a reference
    denotes.  Only [KeyError] from the lookup is re-raised as [KeyError];
    the item found is then looked up again with [self.index]. *)
Definition __setitem__ {C} `{EqDecision C} (class_of : ref → C) (h : Heap)
    (items : list ref) (key : Key) (value : ref) : Result (list ref) :=
  and_then (__getitem__ h items key) (λ item,
    if negb (bool_decide (class_of value = class_of item)) then Err ValueError
    else and_then (index h items item None None) (λ i, Ok (setitem items i value))).

End ItemCollection.

(** ** The caller's pruning before a search *)

(** [main.py], [search]:
    [[album.items.remove(track) for album in albums
      for track in album.items.copy() if track.has_uri is not None]]
    for one album. *)
Definition prune_tracks (h : Heap) (items : list ref) : PyList.Result (list ref) :=
  fold_left
    (λ acc track,
       if bool_decide (Item.has_uri (h track) ≠ None)
       then PyList.and_then acc (λ l, ItemCollection.remove h l track)
       else acc)
    items (PyList.Ok items).

(** ** Further notions for the statements *)

(** No two items of the list compare equal. *)
Fixpoint distinct (h : Heap) (items : list ref) : bool :=
  match items with
  | [] => true
  | y :: rest => negb (contains h y rest) && distinct h rest
  end.

(** [[albums.remove(album) for album in albums.copy() if len(album.items) == 0]],
    an album being its name and its items. *)
Definition prune_albums (h : Heap) (albums : list (string * list ref))
  : PyList.Result (list (string * list ref)) :=
  fold_left
    (λ acc album,
       if bool_decide (length album.2 = 0)
       then PyList.and_then acc (λ l, PyList.remove (ItemCollection.__eq__ h) l album)
       else acc)
    albums (PyList.Ok albums).

(** The albums handed to the searcher: the tracks are pruned album by
    album, then the albums. *)
Fixpoint prune_all_tracks (h : Heap) (albums : list (string * list ref))
  : PyList.Result (list (string * list ref)) :=
  match albums with
  | [] => PyList.Ok []
  | album :: rest =>
      PyList.and_then (prune_tracks h album.2) (λ items,
        PyList.and_then (prune_all_tracks h rest) (λ rest',
          PyList.Ok ((album.1, items) :: rest')))
  end.

Definition prune (h : Heap) (albums : list (string * list ref))
  : PyList.Result (list (string * list ref)) :=
  PyList.and_then (prune_all_tracks h albums) (prune_albums h).

(** A computation started in a state that satisfies [P] adds at most [k]
    to the measure [count] of the state, however it ends. *)
Definition adds_at_most {S A} (count : S → nat) (P : S → Prop) (k : nat)
    (c : Comp S A) : Prop :=
  ∀ s, P s → (count (c s).2 ≤ count s + k)%nat.

(** The number of queries sent to the API so far. *)
Definition queries_sent (t : Trace) : nat := length (queries t).

(** The queries a search may spend on a collection: three for the
    collection when it is searched as a unit, three for each item. *)
Definition query_budget (h : Heap) (c : Collection.t) : nat :=
  (if Collection.as_unit c then 3 else 0) + 3 * length (unsearched h (Collection.items c)).

(** The list comprehension's test [track.has_uri is not None]. *)
Definition searched (h : Heap) (t : ref) : bool :=
  bool_decide (Item.has_uri (h t) ≠ None).

(** Further example inputs: items and a collection without a [kind], as a
    local folder has none. *)
Definition kindless_items : Heap :=
  λ r, {| Item.name := "Alpha"; Item.uri := None; Item.has_uri := None;
          Item.kind := None; Item.clean_tags := [(Tag.NAME, "Alpha")] |}.

Definition kindless_folder (items : list ref) (compilation : bool) : Collection.t :=
  {| Collection.name := "Folder"; Collection.items := items;
     Collection.kind := None;
     Collection.compilation := Some (Some compilation);
     Collection.clean_tags := [(Tag.NAME, "Folder")] |}.

(** The outcome of a computation, and the items it leaves, do not depend
    on the calls and log lines already recorded. *)
Definition trace_blind {A} (c : Comp State A) : Prop :=
  ∀ h t t',
    (c {| heap := h; trace := t |}).1 = (c {| heap := h; trace := t' |}).1 ∧
    heap (c {| heap := h; trace := t |}).2 = heap (c {| heap := h; trace := t' |}).2.

(** * Properties *)

(** ** Item equality (C9) *)

Lemma truthy_has_uri (i : Item.t) : truthy (Item.has_uri i) = true ↔ real_uri i.
Proof.
  unfold real_uri. destruct (Item.has_uri i) as [[]|]; compute; split; congruence.
Qed.

(** C9. [Item.__eq__] is not structural.  If either item has a real URI,
    the items are equal iff their [has_uri] flags and their [uri] values
    are equal; if neither has one, they are equal iff their names are
    equal.  Hence two different item objects that are unsearched or
    unavailable and share a name compare equal, and the membership test
    [item in skipped] answers [True] for an item that is not an element of
    [skipped]. *)
Theorem item_eq_not_structural :
  (∀ a b : Item.t, real_uri a ∨ real_uri b →
     (Item.eq a b = true ↔ Item.has_uri a = Item.has_uri b ∧ Item.uri a = Item.uri b)) ∧
  (∀ a b : Item.t, ¬ real_uri a → ¬ real_uri b →
     (Item.eq a b = true ↔ Item.name a = Item.name b)) ∧
  (∀ (h : Heap) (x y : ref),
     x ≠ y → ¬ real_uri (h x) → ¬ real_uri (h y) →
     Item.name (h x) = Item.name (h y) →
     (y ∉ [x]) ∧ contains h y [x] = true).
Proof.
  split; [|split].
  - intros a b Hab. unfold Item.eq.
    assert (truthy (Item.has_uri a) || truthy (Item.has_uri b) = true) as ->.
    { apply orb_true_iff. rewrite !truthy_has_uri. exact Hab. }
    rewrite andb_true_iff, !bool_decide_eq_true. reflexivity.
  - intros a b Ha Hb. unfold Item.eq.
    assert (truthy (Item.has_uri a) || truthy (Item.has_uri b) = false) as ->.
    { apply orb_false_iff. split; apply not_true_is_false;
        rewrite truthy_has_uri; assumption. }
    apply bool_decide_eq_true.
  - intros h x y Hxy Hx Hy Hname. split.
    + rewrite list_elem_of_singleton. congruence.
    + unfold contains, Item.eq. cbn.
      assert (truthy (Item.has_uri (h x)) || truthy (Item.has_uri (h y)) = false) as ->.
      { apply orb_false_iff. split; apply not_true_is_false;
          rewrite truthy_has_uri; assumption. }
      rewrite (bool_decide_eq_true_2 _ Hname). rewrite orb_true_r. reflexivity.
Qed.

Lemma item_eq_not_structural_witness :
  Item.eq (Ex.two_intros 0) (Ex.two_intros 1) = true ∧
  (1 ∉ [0]) ∧ contains Ex.two_intros 1 [0] = true.
Proof.
  split.
  - apply (proj1 (proj2 item_eq_not_structural)).
    + unfold real_uri. cbn. discriminate.
    + unfold real_uri. cbn. discriminate.
    + reflexivity.
  - apply (proj2 (proj2 item_eq_not_structural) Ex.two_intros 0 1).
    + lia.
    + unfold real_uri. cbn. discriminate.
    + unfold real_uri. cbn. discriminate.
    + reflexivity.
Defined.

(** ** The matcher's thresholds (C6) *)

Section MatcherFacts.

Variable score : MusifyObject → list Tag.t → Response → Q.
Variable is_karaoke : Response → bool.
Variable karaoke_source : MusifyObject → bool.

Lemma scan_scored source match_on max_score results best scored :
  snd (scan score source match_on max_score results best scored)
  = scored ++ scanned score source match_on max_score results.
Proof.
  revert best scored.
  induction results as [|c rest IH]; intros best scored; cbn.
  - by rewrite app_nil_r.
  - destruct (Qle_bool max_score (score source match_on c)); cbn.
    + reflexivity.
    + rewrite IH, <- app_assoc. reflexivity.
Qed.

Lemma scan_below source match_on min_score max_score results best scored :
  below min_score best →
  (∀ c, c ∈ scanned score source match_on max_score results →
        (score source match_on c < min_score)%Q) →
  below min_score (fst (scan score source match_on max_score results best scored)).
Proof.
  revert best scored.
  induction results as [|c rest IH]; intros best scored Hbest Hall; cbn.
  - exact Hbest.
  - cbn in Hall.
    assert (score source match_on c < min_score)%Q as Hc
      by (apply Hall; left).
    destruct (Qle_bool max_score (score source match_on c)); cbn.
    + exact Hc.
    + apply IH.
      * destruct best as [[b sb]|]; cbn; [|exact Hc].
        destruct (Qle_bool (score source match_on c) sb); cbn; assumption.
      * intros c' Hc'. apply Hall. by right.
Qed.

Lemma scan_short_circuit source match_on max_score pre c post best scored :
  (∀ p, p ∈ pre → (score source match_on p < max_score)%Q) →
  (max_score <= score source match_on c)%Q →
  scan score source match_on max_score (pre ++ c :: post) best scored
  = (Some (c, score source match_on c), scored ++ pre ++ [c]).
Proof.
  intros Hpre Hc. revert best scored.
  induction pre as [|p pre IH]; intros best scored; cbn.
  - apply Qle_bool_iff in Hc. rewrite Hc. reflexivity.
  - assert (Qle_bool max_score (score source match_on p) = false) as ->.
    { apply not_true_is_false. rewrite Qle_bool_iff.
      apply Qlt_not_le, Hpre. left. }
    rewrite IH.
    + rewrite <- app_assoc. reflexivity.
    + intros q Hq. apply Hpre. by right.
Qed.

Lemma match_scored_unfold source results match_on min_score max_score allow :
  match_scored score is_karaoke karaoke_source source results match_on
    min_score max_score allow
  = let r := scan score source match_on max_score
               (eligible is_karaoke karaoke_source source allow results) None [] in
    (match r.1 with
     | Some (b, sb) => if Qle_bool min_score sb then Some b else None
     | None => None
     end, r.2).
Proof. unfold match_scored. by destruct (scan _ _ _ _ _ _ _). Qed.

(** C6, as amended.  [match] returns [None] whenever every candidate it
    scored is strictly below [min_score], the empty candidate list
    included.  As soon as a candidate scores at least [max_score] the
    scan stops: no later candidate is scored, and that candidate is the
    one returned provided its score is also at least [min_score] (as it
    is whenever [min_score <= max_score]); below [min_score] the answer
    is [None] even then. *)
Theorem match_thresholds source results match_on min_score max_score allow :
  let candidates := eligible is_karaoke karaoke_source source allow results in
  let r := match_scored score is_karaoke karaoke_source source results match_on
             min_score max_score allow in
  ((∀ c, c ∈ r.2 → (score source match_on c < min_score)%Q) → r.1 = None) ∧
  (candidates = [] → r.1 = None) ∧
  (∀ pre c post,
     candidates = pre ++ c :: post →
     (∀ p, p ∈ pre → (score source match_on p < max_score)%Q) →
     (max_score <= score source match_on c)%Q →
     r.2 = pre ++ [c] ∧
     ((min_score <= score source match_on c)%Q → r.1 = Some c) ∧
     ((min_score <= max_score)%Q → r.1 = Some c) ∧
     ((score source match_on c < min_score)%Q → r.1 = None)).
Proof.
  intros candidates r. subst r. rewrite match_scored_unfold. cbn zeta.
  fold candidates. split; [|split].
  - intros Hall. cbn [fst snd] in *.
    rewrite scan_scored in Hall. cbn [app] in Hall.
    pose proof (scan_below source match_on min_score max_score candidates None []
                  I Hall) as Hb.
    destruct (scan _ _ _ _ _ _ _).1 as [[b sb]|]; [|reflexivity].
    cbn in Hb. destruct (Qle_bool min_score sb) eqn:E; [|reflexivity].
    apply Qle_bool_iff in E. by apply Qlt_not_le in Hb.
  - intros ->. reflexivity.
  - intros pre c post Hc Hpre Hmax.
    rewrite Hc, (scan_short_circuit _ _ _ _ _ _ _ _ Hpre Hmax). cbn [fst snd app].
    split; [reflexivity|]. split; [|split].
    + intros Hmin. apply Qle_bool_iff in Hmin. by rewrite Hmin.
    + intros Hmm. assert (min_score <= score source match_on c)%Q as Hmin
        by (eapply Qle_trans; eassumption).
      apply Qle_bool_iff in Hmin. by rewrite Hmin.
    + intros Hlt. destruct (Qle_bool min_score _) eqn:E; [|reflexivity].
      apply Qle_bool_iff in E. by apply Qlt_not_le in Hlt.
Qed.

End MatcherFacts.

(** S4 of the spec, through [match_thresholds]: with [c1] scoring 0.5 and
    [c2] scoring 0.85 against thresholds 0.1 and 0.8, [c2] is returned and
    [c3] is never scored. *)
Lemma match_thresholds_witness :
  let c1 := Ex.remote_track "c1" "spotify:track:c1" in
  let c2 := Ex.remote_track "c2" "spotify:track:c2" in
  let c3 := Ex.remote_track "c3" "spotify:track:c3" in
  let r := match_scored Ex.score Ex.never Ex.never (Ex.source "Intro") [c1; c2; c3]
             [Tag.TITLE] (1 # 10) (8 # 10) false in
  r.2 = [c1; c2] ∧ r.1 = Some c2.
Proof.
  intros c1 c2 c3 r.
  destruct (match_thresholds Ex.score Ex.never Ex.never (Ex.source "Intro")
              [c1; c2; c3] [Tag.TITLE] (1 # 10) (8 # 10) false) as (_ & _ & H).
  destruct (H [c1] c2 [c3]) as (Hscored & _ & Hret & _).
  - reflexivity.
  - intros p Hp. apply list_elem_of_singleton in Hp. subst p. reflexivity.
  - vm_compute. discriminate.
  - split; [exact Hscored|]. apply Hret. vm_compute. discriminate.
Defined.

(** C6 as stated fails where [max_score] is below [min_score]: a
    candidate scoring 0.6 reaches [max_score = 0.5], yet is not returned
    because [min_score = 0.9]. *)
Lemma match_at_max_score_counterexample :
  let c3 := Ex.remote_track "c3" "spotify:track:c3" in
  (5 # 10 <= Ex.score (Ex.source "Intro") [Tag.TITLE] c3)%Q ∧
  match_ Ex.score Ex.never Ex.never (Ex.source "Intro") [c3]
    [Tag.TITLE] (9 # 10) (5 # 10) false = None.
Proof. split; [vm_compute; discriminate | reflexivity]. Qed.

(** ** Computations *)

Section CompFacts.

Context {S : Type} (P : S → Prop).

Lemma bind_ret_l {A B} (a : A) (k : A → Comp S B) (s : S) : bind (ret a) k s = k a s.
Proof. reflexivity. Qed.

Lemma bind_raise_l {A B} (e : Exn) (k : A → Comp S B) (s : S) :
  bind (raise e) k s = (Raise e, s).
Proof. reflexivity. Qed.

Lemma bind_bind {A B C} (c : Comp S A) (k : A → Comp S B) (k' : B → Comp S C) (s : S) :
  bind (bind c k) k' s = bind c (λ a, bind (k a) k') s.
Proof. unfold bind. by destruct (c s) as [[a|e] s1]. Qed.

Lemma bind_ext {A B} (c : Comp S A) (k k' : A → Comp S B) (s : S) :
  (∀ a s1, k a s1 = k' a s1) → bind c k s = bind c k' s.
Proof. intros H. unfold bind. destruct (c s) as [[a|e] s1]; [apply H | reflexivity]. Qed.

Lemma bind_returns {A B} (c : Comp S A) (k : A → Comp S B) (s s1 : S) (a : A) :
  c s = (Return a, s1) → bind c k s = k a s1.
Proof. intros H. unfold bind. by rewrite H. Qed.

Lemma bind_raises {A B} (c : Comp S A) (k : A → Comp S B) (s s1 : S) (e : Exn) :
  c s = (Raise e, s1) → bind c k s = (Raise e, s1).
Proof. intros H. unfold bind. by rewrite H. Qed.

Lemma bind_returns_inv {A B} (c : Comp S A) (k : A → Comp S B) (s s' : S) (b : B) :
  bind c k s = (Return b, s') → ∃ a s1, c s = (Return a, s1) ∧ k a s1 = (Return b, s').
Proof.
  unfold bind. destruct (c s) as [[a|e] s1]; intros H; [|discriminate].
  by exists a, s1.
Qed.

Lemma preserves_ret {A} (a : A) : preserves P (ret a).
Proof. intros s Hs. exact Hs. Qed.

Lemma preserves_raise {A} (e : Exn) : preserves P (@raise S A e).
Proof. intros s Hs. exact Hs. Qed.

Lemma preserves_bind {A B} (c : Comp S A) (k : A → Comp S B) :
  preserves P c → (∀ a, preserves P (k a)) → preserves P (bind c k).
Proof.
  intros Hc Hk s Hs. unfold bind. specialize (Hc s Hs).
  destruct (c s) as [[a|e] s1]; cbn in *; [by apply Hk | exact Hc].
Qed.

Lemma preserves_executor_map {A B} (fn : A → Comp S B) (l : list A) :
  (∀ a, preserves P (fn a)) → ∀ s, P s → P (executor_map fn l s).2.
Proof.
  intros Hfn. induction l as [|a l IH]; intros s Hs; cbn; [exact Hs|].
  specialize (Hfn a s Hs). destruct (fn a s) as [o s1]. cbn in Hfn.
  specialize (IH s1 Hfn). destruct (executor_map fn l s1) as [os s2].
  exact IH.
Qed.

End CompFacts.

Lemma preserves_lift {A} (P : Heap → Prop) (c : Comp Trace A) :
  preserves (λ s, P (heap s)) (lift c).
Proof. intros s Hs. unfold lift. by destruct (c (trace s)). Qed.

Lemma preserves_get_heap (P : State → Prop) : preserves P get_heap.
Proof. intros s Hs. exact Hs. Qed.

Lemma first_raise_tagged {A B} (f : A → Outcome B) (l : list A) :
  first_raise (map (λ a, tagged a (f a)) l) = first_raise (map f l).
Proof.
  induction l as [|a l IH]; cbn; [reflexivity|].
  destruct (f a); cbn; [exact IH | reflexivity].
Qed.

Lemma first_raise_some {A} (outs : list (Outcome A)) (e : Exn) :
  Raise e ∈ outs → ∃ e', first_raise outs = Some e'.
Proof.
  induction outs as [|[a|e0] outs IH]; intros H.
  - by apply not_elem_of_nil in H.
  - apply elem_of_cons in H as [H|H]; [discriminate|]. cbn. by apply IH.
  - cbn. by exists e0.
Qed.

(** ** Dictionaries built from pairs *)

Lemma dict_snoc {V} (l : list (string * V)) (p : string * V) :
  dict (l ++ [p]) = <[p.1 := p.2]> (dict l).
Proof. unfold dict. by rewrite fold_left_app. Qed.

Lemma dict_lookup_last {V} (pairs : list (string * V)) (j : nat) (k : string) (v : V) :
  pairs !! j = Some (k, v) →
  (∀ j' p, j < j' → pairs !! j' = Some p → p.1 ≠ k) →
  dict pairs !! k = Some v.
Proof.
  revert j. induction pairs as [|p l IH] using rev_ind; intros j Hj Hlast.
  - by rewrite lookup_nil in Hj.
  - rewrite dict_snoc. destruct (decide (j < length l)) as [Hlt|Hge].
    + rewrite lookup_app_l in Hj by exact Hlt.
      rewrite lookup_insert_ne.
      * apply (IH j Hj). intros j' p' Hj' Hp'. apply (Hlast j' p' Hj').
        rewrite lookup_app_l; [exact Hp'|]. by apply lookup_lt_Some in Hp'.
      * apply (Hlast (length l) p Hlt). by rewrite list_lookup_middle.
    + assert (j = length l) as ->.
      { apply lookup_lt_Some in Hj. rewrite length_app in Hj. cbn in Hj. lia. }
      rewrite list_lookup_middle in Hj by reflexivity. injection Hj as ->.
      cbn. apply lookup_insert_eq.
Qed.

Lemma dom_dict {V} (pairs : list (string * V)) :
  dom (dict pairs) = list_to_set (map fst pairs).
Proof.
  induction pairs as [|p l IH] using rev_ind; [reflexivity|].
  rewrite dict_snoc, dom_insert_L, IH, map_app, list_to_set_app_L. cbn.
  rewrite union_empty_r_L. apply (comm_L (∪)).
Qed.

Lemma consume_returns {A} (outs : list (Outcome A)) (l : list A) :
  consume outs = Return l → outs = map Return l.
Proof.
  revert l. induction outs as [|[a|e] outs IH]; intros l H; cbn in H.
  - by injection H as <-.
  - destruct (consume outs) as [l'|e]; [|discriminate].
    injection H as <-. cbn. f_equal. by apply IH.
  - discriminate.
Qed.

Lemma executor_map_keyed {S A B K} (key : A → K) (fn : A → Comp S B)
    (l : list A) (s : S) (pairs : list (K * B)) :
  (executor_map (λ a, b <- fn a ;; ret (key a, b)) l s).1 = map Return pairs →
  map fst pairs = map key l.
Proof.
  revert s pairs. induction l as [|a l IH]; intros s pairs; cbn.
  - destruct pairs; [reflexivity | discriminate].
  - unfold bind at 1. destruct (fn a s) as [[b|e] s1]; cbn;
      destruct (executor_map _ l s1) as [os s2] eqn:E; cbn;
      destruct pairs as [|p pairs]; try discriminate.
    intros H. injection H as <- H. cbn. f_equal. apply (IH s1). by rewrite E.
Qed.

Lemma heap_lookup_insert (h : Heap) (i : ref) (v : Item.t) : (<[i:=v]> h) i = v.
Proof. apply fn_lookup_insert. Qed.

Lemma heap_lookup_insert_ne (h : Heap) (i j : ref) (v : Item.t) :
  i ≠ j → (<[i:=v]> h) j = h j.
Proof. apply fn_lookup_insert_ne. Qed.

(** A pool whose tasks pair their result with their argument returns
    pairs whose first components were submitted. *)
Lemma executor_map_tagged {S A B} (fn : A → Comp S B) (l : list A) (s : S) a b :
  Return (a, b) ∈ (executor_map (λ a, b <- fn a ;; ret (a, b)) l s).1 → a ∈ l.
Proof.
  revert s. induction l as [|x l IH]; intros s; cbn.
  - intros H. by apply not_elem_of_nil in H.
  - unfold bind at 1. destruct (fn x s) as [[y|e] s1]; cbn;
      destruct (executor_map _ l s1) as [os s2] eqn:E; cbn;
      intros H; apply elem_of_cons in H as [H|H].
    + injection H as -> _. left.
    + right. apply (IH s1). by rewrite E.
    + discriminate.
    + right. apply (IH s1). by rewrite E.
Qed.

(** ** Tasks do not read the trace *)

Lemma oblivious_ret {A} (a : A) : oblivious (ret a).
Proof. intros t t'. reflexivity. Qed.

Lemma oblivious_raise {A} (e : Exn) : oblivious (@raise Trace A e).
Proof. intros t t'. reflexivity. Qed.

Lemma oblivious_bind {A B} (c : Comp Trace A) (k : A → Comp Trace B) :
  oblivious c → (∀ a, oblivious (k a)) → oblivious (bind c k).
Proof.
  intros Hc Hk t t'. unfold bind. specialize (Hc t t').
  destruct (c t) as [[a|e] t1], (c t') as [[a'|e'] t1']; cbn in Hc; try discriminate.
  - injection Hc as ->. apply Hk.
  - cbn. by injection Hc as ->.
Qed.

Lemma oblivious_log (l : LogLine) : oblivious (_log_padded l).
Proof. intros t t'. reflexivity. Qed.

Lemma oblivious_for_each {A B} (body : A → Comp Trace B) (l : list A) :
  (∀ a, oblivious (body a)) → oblivious (for_each body l).
Proof.
  intros H. induction l as [|a l IH]; cbn.
  - apply oblivious_ret.
  - apply oblivious_bind; [apply H|]. intros b.
    apply oblivious_bind; [exact IH|]. intros bs. apply oblivious_ret.
Qed.

Lemma executor_map_lookup {S A B} (fn : A → Comp S B) (l : list A) (s : S) (j : nat) (a : A) :
  l !! j = Some a →
  (executor_map fn l s).1 !! j = Some (fn a (executor_map fn (take j l) s).2).1.
Proof.
  revert s j. induction l as [|x l IH]; intros s [|j] H; cbn in H; try discriminate.
  - injection H as ->. cbn. destruct (fn a s) as [o s1].
    by destruct (executor_map fn l s1).
  - cbn. destruct (fn x s) as [o s1]. specialize (IH s1 j H).
    destruct (executor_map fn l s1) as [os s2].
    destruct (executor_map fn (take j l) s1) as [os' s2']. exact IH.
Qed.

Lemma executor_map_oblivious {A B} (fn : A → Comp Trace B) (l : list A) (t t0 : Trace) :
  (∀ a, oblivious (fn a)) →
  (executor_map fn l t).1 = map (λ a, (fn a t0).1) l.
Proof.
  intros H. revert t. induction l as [|a l IH]; intros t; cbn; [reflexivity|].
  specialize (H a t t0). destruct (fn a t) as [o t1]. cbn in H. subst o.
  specialize (IH t1). destruct (executor_map fn l t1) as [os t2]. cbn in *.
  by rewrite IH.
Qed.

(** ** The searcher only assigns to unsearched items (C10) *)

Section Frame.

Variable score : MusifyObject → list Tag.t → Response → Q.
Variable is_karaoke : Response → bool.
Variable karaoke_source : MusifyObject → bool.
Variable query : string → RemoteObjectType.t → nat → Outcome (list Response).
Variable extend_items : Response → RemoteObjectType.t → RemoteObjectType.t → Outcome Response.
Variable collection_item_map : RemoteObjectType.t → option RemoteObjectType.t.
Variable unavailable_uri_dummy : string.

Variable h0 : Heap.

Let P (s : State) : Prop := assigned_from unavailable_uri_dummy h0 (heap s).

Lemma set_uri_set_uri i a b :
  set_uri unavailable_uri_dummy (set_uri unavailable_uri_dummy i a) b
  = set_uri unavailable_uri_dummy i b.
Proof.
  unfold set_uri. destruct a as [a|], b as [b|]; repeat case_bool_decide; reflexivity.
Qed.

Lemma assigned_from_unsearched h i :
  assigned_from unavailable_uri_dummy h0 h →
  Item.has_uri (h i) = None → Item.has_uri (h0 i) = None.
Proof.
  intros Hh Hi. destruct (Hh i) as [E|[E _]]; [by rewrite <- E | exact E].
Qed.

Lemma frame_assign_uri i m :
  Item.has_uri (h0 i) = None → resp_has_uri m = true →
  preserves P (assign_uri unavailable_uri_dummy i (resp_uri m)).
Proof.
  intros Hi Hm s Hs r. unfold assign_uri. cbn [snd heap].
  destruct (decide (i = r)) as [->|Hne].
  - rewrite heap_lookup_insert. right. split; [exact Hi|]. exists m. split; [exact Hm|].
    destruct (Hs r) as [E|(_ & m' & _ & E)]; rewrite E; [reflexivity|].
    apply set_uri_set_uri.
  - rewrite heap_lookup_insert_ne by exact Hne. apply Hs.
Qed.

Lemma frame_assign_matches matches :
  (∀ i m, Return (i, m) ∈ matches → Item.has_uri (h0 i) = None) →
  preserves P (assign_matches unavailable_uri_dummy matches).
Proof.
  induction matches as [|[[i m]|e] rest IH]; intros Hall; cbn.
  - apply preserves_ret.
  - apply preserves_bind.
    + destruct m as [r|]; [|apply preserves_ret].
      destruct (truthy r && resp_has_uri r) eqn:E; [|apply preserves_ret].
      apply andb_true_iff in E as [_ E].
      apply frame_assign_uri; [|exact E]. apply (Hall i (Some r)). left.
    + intros _. apply IH. intros i' m' H. apply (Hall i' m'). by right.
  - apply preserves_raise.
Qed.

Lemma frame_match_items match_on results collection :
  preserves P
    (match_items score is_karaoke karaoke_source query unavailable_uri_dummy
       match_on results collection).
Proof.
  intros s Hs. unfold match_items.
  destruct (executor_map _ _ _) as [matches t] eqn:E.
  apply frame_assign_matches; [|exact Hs].
  intros i m Hin.
  assert (i ∈ unsearched (heap s) collection) as Hi.
  { pose proof (executor_map_tagged
                  (λ i, _get_item_match score is_karaoke karaoke_source query
                          (heap s i) match_on results)
                  (unsearched (heap s) collection) (trace s) i m) as Ht.
    cbn beta in Ht. rewrite E in Ht. exact (Ht Hin). }
  apply list_elem_of_In, filter_In in Hi as [_ Hi].
  apply bool_decide_eq_true in Hi.
  by apply (assigned_from_unsearched (heap s)).
Qed.

Lemma frame_lift {A} (c : Comp Trace A) : preserves P (lift c).
Proof. apply (preserves_lift (assigned_from unavailable_uri_dummy h0)). Qed.

Ltac frame_step :=
  first
    [ apply preserves_bind; [|intros ?]
    | apply preserves_ret
    | apply preserves_raise
    | apply preserves_get_heap
    | apply frame_lift
    | apply frame_match_items
    | match goal with
      | |- preserves _ (if ?b then _ else _) => destruct b
      | |- preserves _ (match ?x with _ => _ end) => destruct x
      end ].

Lemma frame_search_collection_unit collection :
  preserves P
    (_search_collection_unit score is_karaoke karaoke_source query extend_items
       collection_item_map unavailable_uri_dummy collection).
Proof.
  unfold _search_collection_unit, _determine_remote_object_type, get_search_settings.
  repeat frame_step.
Qed.

Lemma frame_search_collection collection :
  preserves P
    (_search_collection score is_karaoke karaoke_source query extend_items
       collection_item_map unavailable_uri_dummy collection).
Proof.
  unfold _search_collection, _search_items.
  repeat first [ apply frame_search_collection_unit | frame_step ].
Qed.

Lemma frame_search collections :
  preserves P
    (search score is_karaoke karaoke_source query extend_items
       collection_item_map unavailable_uri_dummy collections).
Proof.
  intros s Hs. unfold search.
  destruct (negb _); [exact Hs|].
  destruct (executor_map _ _ _) as [outs s1] eqn:E. cbn.
  change s1 with (outs, s1).2. rewrite <- E.
  apply (preserves_executor_map P); [|exact Hs].
  intros c. apply preserves_bind; [apply frame_search_collection|].
  intros r. apply preserves_ret.
Qed.

End Frame.

(** ** Lists of item references *)

Lemma filter_none {A} (f : A → bool) (l : list A) :
  (∀ x, x ∈ l → f x = false) → List.filter f l = [].
Proof.
  induction l as [|x l IH]; intros H; cbn; [reflexivity|].
  rewrite (H x) by left. apply IH. intros y Hy. apply H. by right.
Qed.

Lemma filter_all {A} (f : A → bool) (l : list A) :
  (∀ x, x ∈ l → f x = true) → List.filter f l = l.
Proof.
  induction l as [|x l IH]; intros H; cbn; [reflexivity|].
  rewrite (H x) by left. f_equal. apply IH. intros y Hy. apply H. by right.
Qed.

Lemma contains_self (h : Heap) (i : ref) (l : list ref) : i ∈ l → contains h i l = true.
Proof.
  intros Hi. unfold contains. apply existsb_exists. exists i. split.
  - by apply list_elem_of_In.
  - by rewrite bool_decide_eq_true_2.
Qed.

Lemma unsearched_nil (h : Heap) (l : list ref) :
  (∀ i, i ∈ l → Item.has_uri (h i) ≠ None) → unsearched h l = [].
Proof.
  intros H. apply filter_none. intros i Hi. by apply bool_decide_eq_false_2, H.
Qed.

(** ** The search *)

Section SearcherFacts.

Variable score : MusifyObject → list Tag.t → Response → Q.
Variable is_karaoke : Response → bool.
Variable karaoke_source : MusifyObject → bool.
Variable query : string → RemoteObjectType.t → nat → Outcome (list Response).
Variable extend_items : Response → RemoteObjectType.t → RemoteObjectType.t → Outcome Response.
Variable collection_item_map : RemoteObjectType.t → option RemoteObjectType.t.
Variable unavailable_uri_dummy : string.

Local Abbreviation get_item_match :=
  (_get_item_match score is_karaoke karaoke_source query).
Local Abbreviation item_match :=
  (item_match score is_karaoke karaoke_source query).
Local Abbreviation after_match := (after_match unavailable_uri_dummy).
Local Abbreviation items_pool :=
  (match_items score is_karaoke karaoke_source query unavailable_uri_dummy).
Local Abbreviation search_items :=
  (_search_items score is_karaoke karaoke_source query unavailable_uri_dummy).
Local Abbreviation search_collection_unit :=
  (_search_collection_unit score is_karaoke karaoke_source query extend_items
     collection_item_map unavailable_uri_dummy).
Local Abbreviation search_collection :=
  (_search_collection score is_karaoke karaoke_source query extend_items
     collection_item_map unavailable_uri_dummy).
Local Abbreviation searcher :=
  (search score is_karaoke karaoke_source query extend_items
     collection_item_map unavailable_uri_dummy).

(** C10.  Whatever [search] does and however it ends, every item is
    either exactly as it was, or it had [None] on [has_uri] and was
    assigned the URI of a matched remote object that has one.  So an item
    whose [has_uri] is not [None] when [search] is called has the same
    [uri] and [has_uri] (and every other field) afterwards. *)
Theorem search_assigns_only_unsearched collections s :
  let s' := (searcher collections s).2 in
  assigned_from unavailable_uri_dummy (heap s) (heap s') ∧
  (∀ r, Item.has_uri (heap s r) ≠ None → heap s' r = heap s r).
Proof.
  intros s'.
  assert (assigned_from unavailable_uri_dummy (heap s) (heap s')) as H.
  { apply (frame_search score is_karaoke karaoke_source query extend_items
             collection_item_map unavailable_uri_dummy (heap s) collections s).
    intros r. by left. }
  split; [exact H|].
  intros r Hr. destruct (H r) as [E|[E _]]; [exact E | contradiction].
Qed.

Lemma items_pool_idle match_on results collection h t :
  unsearched h collection = [] →
  items_pool match_on results collection {| heap := h; trace := t |}
  = (Return (), {| heap := h; trace := t |}).
Proof. intros E. unfold match_items. cbn. rewrite E. reflexivity. Qed.

Lemma search_collection_skips collection s :
  (∀ i, i ∈ Collection.items collection → Item.has_uri (heap s i) ≠ None) →
  (Collection.as_unit collection = false ∨
   ∀ i, i ∈ Collection.items collection → Item.has_uri (heap s i) = Some true) →
  ∃ s',
    search_collection collection s
    = (Return {| matched := []; unmatched := [];
                 skipped := Collection.items collection |}, s') ∧
    heap s' = heap s ∧
    queries (trace s') = queries (trace s) ∧
    extended (trace s') = extended (trace s).
Proof.
  destruct s as [h t]. intros Hall Hmode. cbn [heap] in *.
  assert (List.filter (λ i, bool_decide (Item.has_uri (h i) ≠ None))
            (Collection.items collection) = Collection.items collection) as Hsk.
  { apply filter_all. intros i Hi. by apply bool_decide_eq_true_2, Hall. }
  assert (∀ f, List.filter (λ i, f i && negb (contains h i (Collection.items collection)))
                 (Collection.items collection) = []) as Hnone.
  { intros f. apply filter_none. intros i Hi.
    rewrite (contains_self h i _ Hi). apply andb_false_r. }
  pose proof (unsearched_nil h _ Hall) as Hun.
  unfold _search_collection, _search_items. unfold bind at 1. cbn [get_heap heap].
  rewrite Hsk, bool_decide_eq_true_2 by reflexivity.
  unfold bind at 1. cbn [lift _log_padded trace heap].
  destruct Hmode as [Hmode|Hreal].
  + rewrite Hmode. unfold bind at 1. unfold bind at 1.
    cbn [lift _log_padded trace heap queries extended logs].
    rewrite items_pool_idle by exact Hun.
    unfold bind, get_heap, ret. cbn [heap].
    rewrite !Hnone. eexists. split; [reflexivity|]. cbn. auto.
  + destruct (Collection.as_unit collection).
    * unfold bind at 1. unfold bind at 1.
      cbn [lift _log_padded trace heap queries extended logs].
      unfold _search_collection_unit. unfold bind at 1. unfold bind at 1.
      cbn [get_heap heap].
      assert (forallb (λ i, truthy (Item.has_uri (h i))) (Collection.items collection)
              = true) as ->.
      { apply forallb_forall. intros i Hi. apply list_elem_of_In in Hi.
        by rewrite (Hreal i Hi). }
      cbn [ret]. unfold bind at 1. cbn [get_heap heap]. rewrite Hun.
      unfold bind, get_heap, ret. cbn [heap truthy truthy_list].
      rewrite !Hnone. eexists. split; [reflexivity|]. cbn. auto.
    * unfold bind at 1. unfold bind at 1.
      cbn [lift _log_padded trace heap queries extended logs].
      rewrite items_pool_idle by exact Hun.
      unfold bind, get_heap, ret. cbn [heap].
      rewrite !Hnone. eexists. split; [reflexivity|]. cbn. auto.
Qed.

(** C5, as amended.  When no item of any collection has [None] on
    [has_uri], [search] returns the empty mapping at once and touches
    nothing.  Otherwise, for a collection whose items all have a URI or
    an unavailable marker, and which is not searched as a unit or whose
    items all have a real URI, [_search_collection] issues no query,
    extends no response, assigns nothing, and classifies every item as
    skipped; this holds from any state, and so for the collection's task in
    the pool that [search] runs, when its items are such as [search] is
    called. *)
Theorem search_skips_searched :
  (∀ collections s,
     (∀ c i, c ∈ collections → i ∈ Collection.items c →
             Item.has_uri (heap s i) ≠ None) →
     searcher collections s = (Return ∅, s)) ∧
  (∀ collection s,
     (∀ i, i ∈ Collection.items collection → Item.has_uri (heap s i) ≠ None) →
     (Collection.as_unit collection = false ∨
      ∀ i, i ∈ Collection.items collection → Item.has_uri (heap s i) = Some true) →
     ∃ s',
       search_collection collection s
       = (Return {| matched := []; unmatched := [];
                    skipped := Collection.items collection |}, s') ∧
       heap s' = heap s ∧
       queries (trace s') = queries (trace s) ∧
       extended (trace s') = extended (trace s)) ∧
  (∀ collections s j collection,
     collections !! j = Some collection →
     (∀ i, i ∈ Collection.items collection → Item.has_uri (heap s i) ≠ None) →
     (Collection.as_unit collection = false ∨
      ∀ i, i ∈ Collection.items collection → Item.has_uri (heap s i) = Some true) →
     let task := λ coll, r <- search_collection coll ;; ret (Collection.name coll, r) in
     let before := (executor_map task (take j collections) s).2 in
     let result := {| matched := []; unmatched := [];
                      skipped := Collection.items collection |} in
     (executor_map task collections s).1 !! j
     = Some (Return (Collection.name collection, result)) ∧
     ∃ s',
       search_collection collection before = (Return result, s') ∧
       heap s' = heap before ∧
       queries (trace s') = queries (trace before) ∧
       extended (trace s') = extended (trace before)).
Proof.
  split; [|split].
  - intros collections s H. unfold search.
    assert (flat_map (λ c, unsearched (heap s) (Collection.items c)) collections = [])
      as ->; [|reflexivity].
    induction collections as [|c cs IH]; cbn; [reflexivity|].
    rewrite unsearched_nil, IH; [reflexivity| |].
    + intros c' i Hc'. apply H. by right.
    + intros i. apply H. left.
  - apply search_collection_skips.
  - intros collections s j collection Hj Hall Hmode task before result.
    assert (assigned_from unavailable_uri_dummy (heap s) (heap before)) as Hframe.
    { apply (preserves_executor_map
               (λ s', assigned_from unavailable_uri_dummy (heap s) (heap s'))).
      - intros c. apply preserves_bind.
        + apply (frame_search_collection score is_karaoke karaoke_source query
                   extend_items collection_item_map unavailable_uri_dummy (heap s)).
        + intros r. apply preserves_ret.
      - intros r. by left. }
    assert (∀ i, Item.has_uri (heap s i) ≠ None → heap before i = heap s i) as Hsame.
    { intros i Hi. destruct (Hframe i) as [E|[E _]]; [exact E | contradiction]. }
    destruct (search_collection_skips collection before) as (s' & Hrun & Hrest).
    + intros i Hi. rewrite Hsame; by apply Hall.
    + destruct Hmode as [Hmode|Hreal]; [by left | right].
      intros i Hi. rewrite Hsame; [by apply Hreal | by apply Hall].
    + split; [|by exists s'].
      rewrite (executor_map_lookup task collections s j collection Hj).
      fold before. subst task. cbn beta.
      by rewrite (bind_returns _ _ _ _ _ Hrun).
Qed.

Lemma get_results_refines item kind settings t :
  _get_results query item kind settings t
  = (rq <- cascade query item kind settings
             (search_fields_1 settings
              :: List.filter truthy [search_fields_2 settings; search_fields_3 settings])
             ([], "") ;;
     report_results item rq) t.
Proof.
  unfold _get_results. cbn [cascade]. rewrite bind_bind.
  apply bind_ext. intros rq1 t1. fold (report_results item).
  unfold report_results.
  destruct (truthy rq1.1) eqn:E1; cbn [negb andb];
    repeat first [rewrite bind_ret_l | rewrite E1 | progress cbn [negb andb]];
    [reflexivity|].
  cbn [List.filter].
  destruct (truthy (search_fields_2 settings)) eqn:F2; cbn [cascade].
  - rewrite bind_bind. apply bind_ext. intros rq2 t2.
    destruct (truthy rq2.1) eqn:E2; cbn [negb andb];
      repeat first [rewrite bind_ret_l | rewrite E2 | progress cbn [negb andb]];
      [reflexivity|].
    destruct (truthy (search_fields_3 settings)) eqn:F3; cbn [cascade].
    + rewrite bind_bind. apply bind_ext. intros rq3 t3.
      destruct (truthy rq3.1) eqn:E3; cbn [cascade];
        rewrite bind_ret_l, E3; reflexivity.
    + rewrite !bind_ret_l. by rewrite E2.
  - repeat first [rewrite bind_ret_l | rewrite E1 | progress cbn [negb andb]].
    destruct (truthy (search_fields_3 settings)) eqn:F3; cbn [cascade].
    + rewrite bind_bind. apply bind_ext. intros rq3 t3.
      destruct (truthy rq3.1) eqn:E3; cbn [cascade];
        rewrite bind_ret_l, E3; reflexivity.
    + rewrite !bind_ret_l. by rewrite E1.
Qed.

Lemma lift_run {A} (c : Comp Trace A) h t :
  lift c {| heap := h; trace := t |} = ((c t).1, {| heap := h; trace := (c t).2 |}).
Proof. unfold lift. cbn [heap trace]. by destruct (c t). Qed.

(** *** The item pools *)

Lemma oblivious_api_query q kind limit : oblivious (api_query query q kind limit).
Proof. intros t t'. reflexivity. Qed.

Ltac oblivious_step :=
  first
    [ apply oblivious_bind; [|intros ?]
    | apply oblivious_ret
    | apply oblivious_raise
    | apply oblivious_log
    | apply oblivious_api_query
    | match goal with
      | |- oblivious (if ?b then _ else _) => destruct b
      | |- oblivious (match ?x with _ => _ end) => destruct x
      end ].

Lemma oblivious_get_results item kind settings :
  oblivious (_get_results query item kind settings).
Proof. unfold _get_results, execute_query. repeat oblivious_step. Qed.

Lemma oblivious_get_item_match item match_on results :
  oblivious (get_item_match item match_on results).
Proof.
  unfold _get_item_match, _determine_remote_object_type, get_search_settings.
  repeat first [ apply oblivious_get_results | oblivious_step ].
Qed.

Lemma pool_outcomes h match_on results todo t :
  (executor_map (λ i, m <- get_item_match (h i) match_on results ;; ret (i, m))
     todo t).1
  = map (λ i, tagged i (item_match h match_on results i)) todo.
Proof.
  rewrite (executor_map_oblivious _ _ t no_trace).
  - apply map_ext. intros i. unfold item_match, bind.
    by destruct (get_item_match (h i) match_on results no_trace) as [[m|e] t1].
  - intros i. apply oblivious_bind; [apply oblivious_get_item_match|].
    intros m. apply oblivious_ret.
Qed.

Lemma items_pool_unfold match_on results collection h t :
  items_pool match_on results collection {| heap := h; trace := t |}
  = assign_matches unavailable_uri_dummy
      (map (λ i, tagged i (item_match h match_on results i)) (unsearched h collection))
      {| heap := h;
         trace := (executor_map
                     (λ i, m <- get_item_match (h i) match_on results ;; ret (i, m))
                     (unsearched h collection) t).2 |}.
Proof.
  unfold match_items. cbn [heap trace]. rewrite <- pool_outcomes with (t := t).
  by destruct (executor_map _ _ _).
Qed.

Lemma assign_uri_run i v s :
  assign_uri unavailable_uri_dummy i v s
  = (Return (), {| heap := <[i := set_uri unavailable_uri_dummy (heap s i) (Some v)]> (heap s);
                   trace := trace s |}).
Proof. reflexivity. Qed.

Lemma assign_matches_raises matches s e :
  first_raise matches = Some e →
  (assign_matches unavailable_uri_dummy matches s).1 = Raise e.
Proof.
  revert s. induction matches as [|[[i m]|e'] rest IH]; intros s H; cbn in *.
  - discriminate.
  - destruct m as [r|]; [destruct (truthy r && resp_has_uri r)|];
      (rewrite ?bind_ret_l; unfold bind; rewrite ?assign_uri_run; by apply IH).
  - by injection H as ->.
Qed.

Lemma assign_matches_returns matches s :
  first_raise matches = None →
  (assign_matches unavailable_uri_dummy matches s).1 = Return ().
Proof.
  revert s. induction matches as [|[[i m]|e'] rest IH]; intros s H; cbn in *.
  - reflexivity.
  - destruct m as [r|]; [destruct (truthy r && resp_has_uri r)|];
      (rewrite ?bind_ret_l; unfold bind; rewrite ?assign_uri_run; by apply IH).
  - discriminate.
Qed.

Lemma assign_matches_trace matches s :
  trace (assign_matches unavailable_uri_dummy matches s).2 = trace s.
Proof.
  revert s. induction matches as [|[[i m]|e'] rest IH]; intros s; cbn.
  - reflexivity.
  - destruct m as [r|]; [destruct (truthy r && resp_has_uri r)|];
      (rewrite ?bind_ret_l; unfold bind; rewrite ?assign_uri_run; by rewrite IH).
  - reflexivity.
Qed.

Lemma assign_matches_untouched matches s i :
  (∀ m, Return (i, m) ∉ matches) →
  heap (assign_matches unavailable_uri_dummy matches s).2 i = heap s i.
Proof.
  revert s. induction matches as [|[[j m]|e'] rest IH]; intros s H; cbn.
  - reflexivity.
  - assert (j ≠ i) as Hne.
    { intros ->. apply (H m). left. }
    assert (∀ m', Return (i, m') ∉ rest) as Hrest.
    { intros m' Hin. apply (H m'). by right. }
    destruct m as [r|]; [destruct (truthy r && resp_has_uri r)|];
      rewrite ?bind_ret_l; unfold bind; rewrite ?assign_uri_run;
      rewrite IH by exact Hrest; cbn [heap]; [|reflexivity..].
    by rewrite heap_lookup_insert_ne.
  - reflexivity.
Qed.

Lemma assign_one_idempotent m x :
  assign_one unavailable_uri_dummy m (assign_one unavailable_uri_dummy m x)
  = assign_one unavailable_uri_dummy m x.
Proof.
  unfold assign_one. destruct m as [r|]; [|reflexivity].
  destruct (truthy r && resp_has_uri r); [|reflexivity].
  apply set_uri_set_uri.
Qed.

Lemma assign_matches_cons i m rest s :
  assign_matches unavailable_uri_dummy (Return (i, m) :: rest) s
  = assign_matches unavailable_uri_dummy rest (after_match i m s).
Proof.
  cbn [assign_matches]. unfold after_match.
  destruct m as [r|]; [destruct (truthy r && resp_has_uri r)|]; reflexivity.
Qed.

Lemma after_match_heap i m s r :
  heap (after_match i m s) r
  = if decide (r = i) then assign_one unavailable_uri_dummy m (heap s i) else heap s r.
Proof.
  unfold after_match, assign_one.
  destruct m as [x|]; [destruct (truthy x && resp_has_uri x)|];
    cbn [heap]; destruct (decide (r = i)) as [->|Hne]; try reflexivity.
  - apply heap_lookup_insert.
  - apply heap_lookup_insert_ne. congruence.
Qed.

Lemma assign_matches_heap (f : ref → option Response) todo s r :
  heap (assign_matches unavailable_uri_dummy (map (λ i, Return (i, f i)) todo) s).2 r
  = if bool_decide (r ∈ todo)
    then assign_one unavailable_uri_dummy (f r) (heap s r) else heap s r.
Proof.
  revert s. induction todo as [|i todo IH]; intros s; cbn [map].
  - reflexivity.
  - rewrite assign_matches_cons, IH, after_match_heap.
    destruct (decide (r = i)) as [->|Hne].
    + rewrite (bool_decide_eq_true_2 (i ∈ i :: todo)) by left.
      rewrite assign_one_idempotent. by destruct (bool_decide (i ∈ todo)).
    + rewrite (bool_decide_ext (r ∈ i :: todo) (r ∈ todo)); [reflexivity|].
      rewrite elem_of_cons. split; [intros [?|?]; [contradiction|assumption] | by right].
Qed.

Section NoResults.

Hypothesis no_results : ∀ q kind limit, query q kind limit = Return [].

Lemma cascade_exhausted item kind settings plan last t :
  cascade query item kind settings plan last t
  = (Return (exhausted item plan last),
     {| queries := queries t ++ plan_queries item kind settings plan;
        extended := extended t; logs := logs t |}).
Proof.
  revert last t. induction plan as [|keys plan IH]; intros last t; cbn.
  - rewrite app_nil_r. by destruct t.
  - unfold execute_query, api_query. unfold bind at 1 2.
    rewrite no_results. cbn [ret fst truthy truthy_list]. rewrite IH. cbn.
    by rewrite <- app_assoc.
Qed.

Lemma exhausted_empty item plan last : last.1 = [] → (exhausted item plan last).1 = [].
Proof.
  revert last. induction plan as [|keys plan IH]; intros last H; cbn; [exact H|].
  by apply IH.
Qed.

Lemma get_results_exhausted item kind settings t :
  let plan := search_fields_1 settings
              :: List.filter truthy [search_fields_2 settings; search_fields_3 settings] in
  _get_results query item kind settings t
  = (Return None,
     {| queries := queries t ++ plan_queries item kind settings plan;
        extended := extended t;
        logs := logs t ++ [LogNoResults (obj_name item) (exhausted item plan ([], "")).2] |}).
Proof.
  intros plan. rewrite get_results_refines. fold plan.
  rewrite (bind_returns _ _ _ _ _ (cascade_exhausted item kind settings plan ([], "") t)).
  unfold report_results. rewrite exhausted_empty by reflexivity.
  reflexivity.
Qed.

Lemma get_item_match_exhausted item t :
  Item.kind item = Some RemoteObjectType.TRACK →
  ∃ t', get_item_match item None None t = (Return None, t') ∧
        queries t' = queries t
                     ++ plan_queries (Item.obj item) RemoteObjectType.TRACK track_settings
                          [[Tag.NAME; Tag.ARTIST]; [Tag.NAME; Tag.ALBUM]; [Tag.NAME]] ∧
        extended t' = extended t.
Proof.
  intros Hkind. unfold _get_item_match, _determine_remote_object_type.
  cbn [Item.obj obj_kind]. rewrite Hkind, bind_ret_l.
  cbn [get_search_settings search_settings]. rewrite bind_ret_l, bind_bind.
  rewrite (bind_returns _ _ _ _ _
             (get_results_exhausted (Item.obj item) RemoteObjectType.TRACK track_settings t)).
  rewrite !bind_ret_l. eexists. split; [reflexivity|]. split; reflexivity.
Qed.

Lemma search_collection_single_exhausted collection h t i :
  Collection.items collection = [i] →
  Collection.as_unit collection = false →
  Item.has_uri (h i) = None →
  Item.kind (h i) = Some RemoteObjectType.TRACK →
  ∃ t',
    search_collection collection {| heap := h; trace := t |}
    = (Return {| matched := []; unmatched := [i]; skipped := [] |},
       {| heap := h; trace := t' |}) ∧
    length (queries t') = length (queries t) + 3.
Proof.
  intros Hitems Hunit Hi Hkind.
  destruct (get_item_match_exhausted (h i)
              {| queries := queries t; extended := extended t;
                 logs := logs t ++ [LogDistinct (Collection.name collection)] |} Hkind)
    as (t' & Ht' & Hq & _).
  exists t'. split.
  - unfold _search_collection, _search_items. rewrite Hitems, Hunit.
    unfold bind at 1. cbn [get_heap heap List.filter].
    rewrite Hi.
    rewrite !(bool_decide_eq_false_2 (None ≠ None)) by (intros H; by apply H).
    cbn [length]. rewrite (bool_decide_eq_false_2 (0 = 1)) by lia.
    rewrite bind_ret_l. rewrite bind_bind. unfold bind at 1.
    cbn [lift _log_padded trace heap].
    unfold match_items. unfold bind at 1. cbn [heap trace unsearched List.filter].
    rewrite Hi, bool_decide_eq_true_2 by reflexivity.
    cbn [executor_map]. unfold bind at 1. rewrite Ht'.
    cbn [ret assign_matches]. unfold bind, get_heap, ret. cbn [heap].
    rewrite Hi, bool_decide_eq_true_2 by reflexivity. reflexivity.
  - rewrite Hq, length_app. reflexivity.
Qed.

Lemma search_collection_unit_exhausted collection h t key :
  Collection.kind collection = Some RemoteObjectType.ALBUM →
  collection_item_map RemoteObjectType.ALBUM = Some key →
  forallb (λ i, truthy (Item.has_uri (h i))) (Collection.items collection) = false →
  ∃ t', search_collection_unit collection {| heap := h; trace := t |}
        = (Raise TypeError, {| heap := h; trace := t' |}).
Proof.
  intros Hkind Hkey Hsome.
  unfold _search_collection_unit. unfold bind at 1. cbn [get_heap heap]. rewrite Hsome.
  unfold _determine_remote_object_type. cbn [Collection.obj obj_kind]. rewrite Hkind, bind_ret_l.
  cbn [get_search_settings search_settings]. rewrite bind_ret_l.
  unfold bind at 1. rewrite lift_run, get_results_exhausted. cbn [fst snd].
  rewrite Hkey, bind_ret_l, bind_raise_l. eexists. reflexivity.
Qed.


End NoResults.

(** C4, as amended.  [_get_results] queries field-set 1 whatever it
    holds, then field-sets 2 and 3 in that order, each only if it is
    not empty, and it stops at the first query with results, which it
    returns: it is the cascade over those field-sets followed by the
    report.  With three non-empty field-sets and a query function that
    never has results, exactly three queries are made, in order, the
    answer is [None], and a collection that holds one unsearched track
    and is not searched as a unit ends with that track unmatched. *)
Theorem query_cascade :
  (∀ item kind settings t,
     _get_results query item kind settings t
     = (rq <- cascade query item kind settings
                (search_fields_1 settings
                 :: List.filter truthy
                      [search_fields_2 settings; search_fields_3 settings])
                ([], "") ;;
        report_results item rq) t) ∧
  ((∀ q kind limit, query q kind limit = Return []) →
   (∀ item kind settings t,
     truthy (search_fields_1 settings) = true →
     truthy (search_fields_2 settings) = true →
     truthy (search_fields_3 settings) = true →
     let r := _get_results query item kind settings t in
     r.1 = Return None ∧
     queries r.2
     = queries t
       ++ [(query_string item (search_fields_1 settings), kind, result_count settings);
           (query_string item (search_fields_2 settings), kind, result_count settings);
           (query_string item (search_fields_3 settings), kind, result_count settings)]) ∧
  (∀ collection s i,
     Collection.items collection = [i] →
     Collection.as_unit collection = false →
     Item.has_uri (heap s i) = None →
     Item.kind (heap s i) = Some RemoteObjectType.TRACK →
     let r := searcher [collection] s in
     r.1 = Return {[ Collection.name collection :=
                       {| matched := []; unmatched := [i]; skipped := [] |} ]} ∧
     length (queries (trace r.2)) = length (queries (trace s)) + 3 ∧
     heap r.2 = heap s)).
Proof.
  split; [|intros no_results; split].
  - apply get_results_refines.
  - intros item kind settings t F1 F2 F3 r. subst r.
    rewrite get_results_exhausted by exact no_results.
    cbn [List.filter]. rewrite F2, F3.
    split; reflexivity.
  - intros collection [h t] i Hitems Hunit Hi Hkind r. subst r.
    cbn [heap trace] in *. unfold search. cbn [heap flat_map].
    rewrite Hitems. cbn [unsearched List.filter]. rewrite Hi.
    rewrite bool_decide_eq_true_2 by reflexivity.
    cbn [app truthy truthy_list negb executor_map].
    destruct (search_collection_single_exhausted no_results collection h t i
                Hitems Hunit Hi Hkind) as (t' & Hrun & Hlen).
    rewrite (bind_returns _ _ _ _ _ Hrun).
    cbn [ret consume dict fold_left fst snd heap trace].
    split; [|split; [exact Hlen | reflexivity]].
    reflexivity.
Qed.


(** Whenever [_search_collection] returns, its result is the
    classification of the items by the heap it leaves, against the items
    skipped at the start. *)
Lemma search_collection_result collection s res s' :
  search_collection collection s = (Return res, s') →
  res = classification (heap s') (skipped_of (heap s) (Collection.items collection))
          (Collection.items collection).
Proof.
  unfold _search_collection. intros H.
  apply bind_returns_inv in H as (h0 & s0 & H0 & H). injection H0 as <- <-.
  apply bind_returns_inv in H as (? & s1 & _ & H).
  apply bind_returns_inv in H as (? & s2 & _ & H).
  apply bind_returns_inv in H as (h2 & s3 & H2 & H). injection H2 as <- <-.
  by injection H as <- <-.
Qed.

(** The three sequences of a classification never share an item; an item
    that has no real URI and is not unsearched is in neither [matched] nor
    [unmatched]. *)
Lemma classification_disjoint h skip items i :
  let res := classification h skip items in
  (i ∈ matched res → (i ∉ unmatched res) ∧ (i ∉ skipped res)) ∧
  (i ∈ unmatched res → i ∉ skipped res).
Proof.
  cbn. split.
  - intros Hm. apply list_elem_of_In, filter_In in Hm as [_ Hm].
    apply andb_true_iff in Hm as [Ht Hc]. split.
    + intros Hu. apply list_elem_of_In, filter_In in Hu as [_ Hu].
      apply andb_true_iff in Hu as [Hn _]. apply bool_decide_eq_true in Hn.
      rewrite Hn in Ht. discriminate.
    + intros Hs. rewrite (contains_self h i skip Hs) in Hc. discriminate.
  - intros Hu. apply list_elem_of_In, filter_In in Hu as [_ Hu].
    apply andb_true_iff in Hu as [_ Hc].
    intros Hs. rewrite (contains_self h i skip Hs) in Hc. discriminate.
Qed.

Lemma search_single collection s :
  truthy (unsearched (heap s) (Collection.items collection)) = true →
  (searcher [collection] s).1
  = match (search_collection collection s).1 with
    | Return r => Return {[ Collection.name collection := r ]}
    | Raise e => Raise e
    end.
Proof.
  intros H. unfold search. cbn [flat_map]. rewrite app_nil_r, H.
  cbn [negb executor_map]. unfold bind.
  by destruct (search_collection collection s) as [[r|e] s1].
Qed.

Lemma search_collection_distinct collection h t :
  Collection.as_unit collection = false →
  ∃ t0, queries t0 = queries t ∧ extended t0 = extended t ∧
    search_collection collection {| heap := h; trace := t |}
    = (search_items (Collection.items collection) ;;;
       h' <- get_heap ;;
       ret (classification h' (skipped_of h (Collection.items collection))
              (Collection.items collection)))
        {| heap := h; trace := t0 |}.
Proof.
  intros Hunit. unfold _search_collection. unfold bind at 1. cbn [get_heap heap].
  rewrite Hunit. fold (skipped_of h (Collection.items collection)).
  destruct (bool_decide _).
  - unfold bind at 1. rewrite lift_run. cbn [_log_padded fst snd].
    rewrite !bind_bind. unfold bind at 1. rewrite lift_run. cbn [_log_padded fst snd].
    eexists. split; [|split]; [| |reflexivity]; reflexivity.
  - rewrite bind_ret_l.
    rewrite !bind_bind. unfold bind at 1. rewrite lift_run. cbn [_log_padded fst snd].
    eexists. split; [|split]; [| |reflexivity]; reflexivity.
Qed.

Lemma set_uri_searched (x : Item.t) (v : string) :
  Item.has_uri (set_uri unavailable_uri_dummy x (Some v)) ≠ None.
Proof. unfold set_uri. by destruct (bool_decide (v = unavailable_uri_dummy)). Qed.

(** An exception of the first, second or third query of the cascade is
    the outcome of [_get_results]. *)
Lemma get_results_raises item kind config t e :
  let q := λ keys, query (query_string item keys) kind (result_count config) in
  q (search_fields_1 config) = Raise e ∨
  (q (search_fields_1 config) = Return [] ∧
   truthy (search_fields_2 config) = true ∧
   q (search_fields_2 config) = Raise e) ∨
  (q (search_fields_1 config) = Return [] ∧
   (truthy (search_fields_2 config) = true → q (search_fields_2 config) = Return []) ∧
   truthy (search_fields_3 config) = true ∧
   q (search_fields_3 config) = Raise e) →
  (_get_results query item kind config t).1 = Raise e.
Proof.
  cbn zeta. unfold _get_results, execute_query, api_query, bind, ret.
  intros [H1|[(H1 & F2 & H2)|(H1 & H2 & F3 & H3)]]; rewrite H1;
    cbn [fst snd truthy truthy_list negb andb].
  - reflexivity.
  - by rewrite F2, H2.
  - destruct (truthy (search_fields_2 config)) eqn:F2.
    + rewrite (H2 eq_refl). cbn [fst snd truthy truthy_list negb andb].
      by rewrite F3, H3.
    + cbn [fst snd truthy truthy_list negb andb]. by rewrite F3, H3.
Qed.

Lemma get_item_match_raises item kind config t e :
  Item.kind item = Some kind → search_settings kind = Some config →
  (_get_results query (Item.obj item) kind config t).1 = Raise e →
  (get_item_match item None None t).1 = Raise e.
Proof.
  intros Hkind Hset Hraise.
  unfold _get_item_match, _determine_remote_object_type, get_search_settings.
  cbn [Item.obj obj_kind]. rewrite Hkind, bind_ret_l, Hset, bind_ret_l.
  fold (Item.obj item). rewrite bind_bind. unfold bind at 1.
  destruct (_get_results query (Item.obj item) kind config t) as [o t1].
  cbn [fst] in Hraise. by subst o.
Qed.

(** The item pool when the task of an unsearched item raises. *)
Lemma search_items_raises items h t i e :
  i ∈ items → Item.has_uri (h i) = None →
  item_match h None None i = Raise e →
  ∃ e' s',
    first_raise (map (item_match h None None) (unsearched h items)) = Some e' ∧
    search_items items {| heap := h; trace := t |} = (Raise e', s') ∧
    heap s' i = h i.
Proof.
  intros Hin Hi Hraise.
  assert (i ∈ unsearched h items) as Htodo.
  { apply list_elem_of_In, filter_In. split; [by apply list_elem_of_In|].
    by apply bool_decide_eq_true_2. }
  destruct (first_raise_some (map (item_match h None None) (unsearched h items)) e)
    as [e' He'].
  { rewrite <- Hraise. by apply list_elem_of_fmap_2. }
  unfold _search_items. rewrite items_pool_unfold.
  set (matches := map (λ j, tagged j (item_match h None None j)) (unsearched h items)).
  set (s0 := {| heap := h; trace := _ |}).
  exists e', (assign_matches unavailable_uri_dummy matches s0).2.
  split; [exact He'|]. split.
  - rewrite (surjective_pairing (assign_matches unavailable_uri_dummy matches s0)).
    f_equal. apply assign_matches_raises. subst matches.
    by rewrite first_raise_tagged.
  - rewrite assign_matches_untouched; [reflexivity|].
    intros m Hm. apply list_elem_of_fmap in Hm as (j & Hj & _).
    destruct (item_match h None None j) as [m'|e0] eqn:E; [|discriminate].
    injection Hj as -> ->. rewrite Hraise in E. discriminate.
Qed.

(** *** What the unit search does is independent of the trace *)

Lemma oblivious_api_extend_items r kind key :
  oblivious (api_extend_items extend_items r kind key).
Proof. intros t t'. reflexivity. Qed.

Lemma blind_ret {A} (a : A) : trace_blind (ret a).
Proof. intros h t t'. by split. Qed.

Lemma blind_raise {A} (e : Exn) : trace_blind (@raise State A e).
Proof. intros h t t'. by split. Qed.

Lemma blind_get_heap : trace_blind get_heap.
Proof. intros h t t'. by split. Qed.

Lemma blind_bind {A B} (c : Comp State A) (k : A → Comp State B) :
  trace_blind c → (∀ a, trace_blind (k a)) → trace_blind (bind c k).
Proof.
  intros Hc Hk h t t'. destruct (Hc h t t') as [H1 H2]. unfold bind.
  destruct (c {| heap := h; trace := t |}) as [[a|e] [h1 t1]],
           (c {| heap := h; trace := t' |}) as [[a'|e'] [h1' t1']];
    cbn [fst snd heap] in *; try discriminate; subst h1'.
  - injection H1 as <-. apply Hk.
  - by injection H1 as <-.
Qed.

Lemma blind_lift {A} (c : Comp Trace A) : oblivious c → trace_blind (lift c).
Proof.
  intros Hc h t t'. rewrite !lift_run. cbn [fst snd heap]. split; [apply Hc | done].
Qed.

Lemma blind_assign_matches matches :
  trace_blind (assign_matches unavailable_uri_dummy matches).
Proof.
  induction matches as [|[[i m]|e] rest IH]; cbn [assign_matches].
  - apply blind_ret.
  - apply blind_bind; [|intros _; exact IH].
    destruct m as [r|]; [destruct (truthy r && resp_has_uri r)|];
      [|apply blind_ret..].
    intros h t t'. by split.
  - apply blind_raise.
Qed.

Lemma blind_items_pool match_on results collection :
  trace_blind (items_pool match_on results collection).
Proof.
  intros h t t'. rewrite !items_pool_unfold. apply blind_assign_matches.
Qed.

Ltac blind_step :=
  first
    [ apply blind_bind; [|intros ?]
    | apply blind_ret
    | apply blind_raise
    | apply blind_get_heap
    | apply blind_items_pool
    | apply blind_lift
    | apply oblivious_get_results
    | apply oblivious_for_each; intros ?
    | apply oblivious_api_extend_items
    | match goal with
      | |- trace_blind (if ?b then _ else _) => destruct b
      | |- trace_blind (match ?x with _ => _ end) => destruct x
      end ].

Lemma blind_search_collection_unit collection :
  trace_blind (search_collection_unit collection).
Proof.
  unfold _search_collection_unit, _determine_remote_object_type, get_search_settings.
  repeat blind_step.
Qed.

(** The items left over by a unit search that returned are searched one
    by one from the heap it left. *)
Lemma search_collection_leftovers collection h t s1 i e :
  Collection.as_unit collection = true →
  search_collection_unit collection {| heap := h; trace := t |} = (Return (), s1) →
  i ∈ Collection.items collection → Item.has_uri (heap s1 i) = None →
  item_match (heap s1) None None i = Raise e →
  ∃ e' s',
    first_raise (map (item_match (heap s1) None None)
                   (unsearched (heap s1) (Collection.items collection))) = Some e' ∧
    search_collection collection {| heap := h; trace := t |} = (Raise e', s') ∧
    heap s' i = heap s1 i.
Proof.
  intros Hunit Hrun Hin Hi Hraise.
  assert (∀ t0, ∃ t1, search_collection_unit collection {| heap := h; trace := t0 |}
                      = (Return (), {| heap := heap s1; trace := t1 |})) as Hany.
  { intros t0. destruct (blind_search_collection_unit collection h t t0) as [H1 H2].
    rewrite Hrun in H1, H2. cbn [fst snd] in H1, H2.
    destruct (search_collection_unit collection {| heap := h; trace := t0 |})
      as [o [h1 t1]]. cbn [fst snd heap] in H1, H2. subst o h1.
    by exists t1. }
  assert (∀ t1, ∃ e' s',
            first_raise (map (item_match (heap s1) None None)
                           (unsearched (heap s1) (Collection.items collection)))
            = Some e' ∧
            heap s' i = heap s1 i ∧
            ∀ B (k : () → Comp State B),
              bind
                (h' <- get_heap ;;
                 let missing := unsearched h' (Collection.items collection) in
                 if truthy missing
                 then lift (_log_padded (LogMissing (Collection.name collection)
                                           (length missing))) ;;;
                      search_items (Collection.items collection)
                 else ret ())
                k {| heap := heap s1; trace := t1 |}
              = (Raise e', s')) as Hrest.
  { intros t1.
    assert (i ∈ unsearched (heap s1) (Collection.items collection)) as Htodo.
    { apply list_elem_of_In, filter_In. split; [by apply list_elem_of_In|].
      by apply bool_decide_eq_true_2. }
    destruct (search_items_raises (Collection.items collection) (heap s1)
                {| queries := queries t1; extended := extended t1;
                   logs := logs t1 ++ [LogMissing (Collection.name collection)
                                         (length (unsearched (heap s1)
                                                    (Collection.items collection)))] |}
                i e Hin Hi Hraise) as (e' & s' & He' & Hs' & Hh').
    exists e', s'. split; [exact He'|]. split; [exact Hh'|]. intros B k.
    rewrite bind_bind. unfold bind at 1. cbn [get_heap heap]. cbn zeta.
    destruct (unsearched (heap s1) (Collection.items collection)) as [|j rest] eqn:Eu;
      [by apply not_elem_of_nil in Htodo|].
    cbn [truthy truthy_list]. rewrite bind_bind.
    unfold bind at 1. rewrite lift_run. cbn [_log_padded fst snd].
    by rewrite (bind_raises _ _ _ _ _ Hs'). }
  unfold _search_collection. unfold bind at 1. cbn [get_heap heap].
  rewrite Hunit. destruct (bool_decide _).
  - unfold bind at 1. rewrite lift_run. cbn [_log_padded fst snd].
    rewrite !bind_bind. unfold bind at 1. rewrite lift_run. cbn [_log_padded fst snd].
    destruct (Hany {| queries := queries t; extended := extended t;
                      logs := (logs t ++ [LogSkipping (Collection.name collection)])
                              ++ [LogAsUnit (Collection.name collection)] |})
      as [t1 Hu].
    destruct (Hrest t1) as (e' & s' & He' & Hh' & Hs').
    exists e', s'. split; [exact He'|]. split; [|exact Hh'].
    cbn [queries extended logs].
    rewrite !bind_bind, (bind_returns _ _ _ _ _ Hu).
    apply Hs'.
  - rewrite bind_ret_l.
    rewrite !bind_bind. unfold bind at 1. rewrite lift_run. cbn [_log_padded fst snd].
    destruct (Hany {| queries := queries t; extended := extended t;
                      logs := logs t ++ [LogAsUnit (Collection.name collection)] |})
      as [t1 Hu].
    destruct (Hrest t1) as (e' & s' & He' & Hh' & Hs').
    exists e', s'. split; [exact He'|]. split; [|exact Hh'].
    rewrite !bind_bind, (bind_returns _ _ _ _ _ Hu).
    apply Hs'.
Qed.

(** C3, as amended.  An exception raised while an item is being queried
    in an item-level search is not caught.  (a) An exception of the
    first, second or third query of the item's cascade, whatever the
    item's kind, is the outcome of the item's task.  (b) In a collection
    searched item by item, and (c) among the items a unit search that
    returned has left unsearched, every task of the pool still runs;
    then the first exception among their outcomes is re-raised while
    the matches are consumed, so [_search_collection] raises it instead
    of returning a result, as does [search] called on that collection,
    and the failing item is left as it was, classified nowhere. *)
Theorem item_error_propagates :
  (∀ item kind config t e,
     Item.kind item = Some kind → search_settings kind = Some config →
     let q := λ keys,
       query (query_string (Item.obj item) keys) kind (result_count config) in
     q (search_fields_1 config) = Raise e ∨
     (q (search_fields_1 config) = Return [] ∧
      truthy (search_fields_2 config) = true ∧
      q (search_fields_2 config) = Raise e) ∨
     (q (search_fields_1 config) = Return [] ∧
      (truthy (search_fields_2 config) = true → q (search_fields_2 config) = Return []) ∧
      truthy (search_fields_3 config) = true ∧
      q (search_fields_3 config) = Raise e) →
     (get_item_match item None None t).1 = Raise e) ∧
  (∀ collection s i e,
     Collection.as_unit collection = false →
     i ∈ Collection.items collection →
     Item.has_uri (heap s i) = None →
     item_match (heap s) None None i = Raise e →
     let r := search_collection collection s in
     let outcomes :=
       map (item_match (heap s) None None)
         (unsearched (heap s) (Collection.items collection)) in
     (∃ e', first_raise outcomes = Some e' ∧ r.1 = Raise e' ∧
            (searcher [collection] s).1 = Raise e') ∧
     heap r.2 i = heap s i) ∧
  (∀ collection s s1 i e,
     Collection.as_unit collection = true →
     search_collection_unit collection s = (Return (), s1) →
     i ∈ Collection.items collection →
     Item.has_uri (heap s1 i) = None →
     item_match (heap s1) None None i = Raise e →
     let r := search_collection collection s in
     let outcomes :=
       map (item_match (heap s1) None None)
         (unsearched (heap s1) (Collection.items collection)) in
     (∃ e', first_raise outcomes = Some e' ∧ r.1 = Raise e' ∧
            (searcher [collection] s).1 = Raise e') ∧
     heap r.2 i = heap s i).
Proof.
  split; [|split].
  - intros item kind config t e Hkind Hset q Hq.
    apply (get_item_match_raises item kind config t e Hkind Hset).
    by apply get_results_raises.
  - intros collection [h t] i e Hunit Hin Hi Hraise. cbn [heap] in *. cbn zeta.
    destruct (search_collection_distinct collection h t Hunit) as (t0 & _ & _ & Hsc).
    destruct (search_items_raises (Collection.items collection) h t0 i e Hin Hi Hraise)
      as (e' & s' & He' & Hs' & Hh').
    assert (search_collection collection {| heap := h; trace := t |} = (Raise e', s'))
      as Hrun by (by rewrite Hsc, (bind_raises _ _ _ _ _ Hs')).
    rewrite Hrun. cbn [fst snd].
    split; [|exact Hh']. exists e'. split; [exact He'|]. split; [reflexivity|].
    rewrite search_single, Hrun; [reflexivity|].
    cbn [heap]. destruct (unsearched h (Collection.items collection)); [|done].
    discriminate.
  - intros collection [h t] s1 i e Hunit Hrun Hin Hi Hraise. cbn [heap] in *. cbn zeta.
    destruct (search_collection_leftovers collection h t s1 i e Hunit Hrun Hin Hi Hraise)
      as (e' & s' & He' & Hs' & Hh').
    pose proof (frame_search_collection_unit score is_karaoke karaoke_source query
                  extend_items collection_item_map unavailable_uri_dummy h collection
                  {| heap := h; trace := t |} ltac:(intros r; by left)) as Hframe.
    rewrite Hrun in Hframe. cbn [snd heap] in Hframe.
    assert (heap s1 i = h i) as Hsame.
    { destruct (Hframe i) as [E|(_ & m & _ & E)]; [exact E|].
      rewrite E in Hi. by apply set_uri_searched in Hi. }
    rewrite Hs'. cbn [fst snd]. split; [|by rewrite Hh'].
    exists e'. split; [exact He'|]. split; [reflexivity|].
    rewrite search_single, Hs'; [reflexivity|]. cbn [heap].
    assert (i ∈ unsearched h (Collection.items collection)) as Htodo.
    { apply list_elem_of_In, filter_In. split; [by apply list_elem_of_In|].
      apply bool_decide_eq_true_2. by rewrite <- Hsame. }
    destruct (unsearched h (Collection.items collection)); [|done].
    by apply not_elem_of_nil in Htodo.
Qed.

(** C2.  When every query of the cascade comes back empty, the item
    search takes the [None] that [_get_results] returns as no candidates
    and ends without a match, but the unit search of a collection
    iterates over that [None]: [_search_collection_unit], and with it
    [_search_collection], raises [TypeError], and so does [search] called
    on that collection when one of its items is unsearched. *)
Theorem unit_search_without_results_raises collection s key :
  (∀ q kind limit, query q kind limit = Return []) →
  Collection.as_unit collection = true →
  Collection.kind collection = Some RemoteObjectType.ALBUM →
  collection_item_map RemoteObjectType.ALBUM = Some key →
  forallb (λ i, truthy (Item.has_uri (heap s i))) (Collection.items collection) = false →
  (search_collection_unit collection s).1 = Raise TypeError ∧
  (search_collection collection s).1 = Raise TypeError ∧
  (truthy (unsearched (heap s) (Collection.items collection)) = true →
   (searcher [collection] s).1 = Raise TypeError) ∧
  (∀ item t, Item.kind item = Some RemoteObjectType.TRACK →
             (get_item_match item None None t).1 = Return None).
Proof.
  intros no_results Hunit Hkind Hkey Hsome. destruct s as [h t]. cbn [heap] in *.
  assert ((search_collection collection {| heap := h; trace := t |}).1 = Raise TypeError)
    as Hsc.
  { unfold _search_collection. unfold bind at 1. cbn [get_heap heap].
    rewrite Hunit.
    destruct (bool_decide _).
    - unfold bind at 1. rewrite lift_run. cbn [_log_padded fst snd].
      rewrite !bind_bind. unfold bind at 1. rewrite lift_run. cbn [_log_padded fst snd].
      destruct (search_collection_unit_exhausted no_results collection h
                  {| queries := queries t; extended := extended t;
                     logs := (logs t ++ [LogSkipping (Collection.name collection)])
                             ++ [LogAsUnit (Collection.name collection)] |} key
                  Hkind Hkey Hsome) as [t' Hrun].
      cbn [queries extended logs].
      by rewrite !bind_bind, (bind_raises _ _ _ _ _ Hrun).
    - rewrite bind_ret_l.
      rewrite !bind_bind. unfold bind at 1. rewrite lift_run. cbn [_log_padded fst snd].
      destruct (search_collection_unit_exhausted no_results collection h
                  {| queries := queries t; extended := extended t;
                     logs := logs t ++ [LogAsUnit (Collection.name collection)] |} key
                  Hkind Hkey Hsome) as [t' Hrun].
      by rewrite !bind_bind, (bind_raises _ _ _ _ _ Hrun). }
  split; [|split; [exact Hsc|split]].
  - destruct (search_collection_unit_exhausted no_results collection h t key
                Hkind Hkey Hsome) as [t' ->]. reflexivity.
  - intros Hguard. by rewrite search_single, Hsc.
  - intros item t0 Hitem.
    destruct (get_item_match_exhausted no_results item t0 Hitem) as (t' & -> & _).
    reflexivity.
Qed.

(** C8, as amended.  When some item of the input has [None] on
    [has_uri] and [search] returns, the mapping it returns is the
    dictionary of the pairs (collection name, result) in input order: its
    keys are the collections' names, and the entry for a name is the
    result of the last collection carrying that name, any earlier one
    having been replaced. *)
Theorem search_keyed_by_name collections s m :
  truthy (flat_map (λ c, unsearched (heap s) (Collection.items c)) collections) = true →
  (searcher collections s).1 = Return m →
  ∃ pairs,
    (executor_map
       (λ coll, r <- search_collection coll ;; ret (Collection.name coll, r))
       collections s).1 = map Return pairs ∧
    map fst pairs = map Collection.name collections ∧
    dom m = list_to_set (map Collection.name collections) ∧
    ∀ j c,
      collections !! j = Some c →
      (∀ j' c', j < j' → collections !! j' = Some c' →
                Collection.name c' ≠ Collection.name c) →
      m !! Collection.name c = snd <$> pairs !! j.
Proof.
  intros Hguard. unfold search. rewrite Hguard. cbn [negb].
  destruct (executor_map _ collections s) as [outs s1] eqn:E. cbn [fst].
  destruct (consume outs) as [pairs|e] eqn:Ec; [|discriminate].
  intros H. injection H as <-. apply consume_returns in Ec. subst outs.
  assert (map fst pairs = map Collection.name collections) as Hnames.
  { apply (executor_map_keyed Collection.name search_collection collections s).
    by rewrite E. }
  exists pairs. split; [reflexivity|]. split; [exact Hnames|]. split.
  - by rewrite dom_dict, Hnames.
  - intros j c Hj Hlast.
    assert (map fst pairs !! j = Some (Collection.name c)) as Hp.
    { rewrite Hnames, list_lookup_fmap, Hj. reflexivity. }
    rewrite list_lookup_fmap in Hp.
    destruct (pairs !! j) as [[k v]|] eqn:Ej; [|discriminate].
    cbn in Hp. injection Hp as ->. cbn.
    apply (dict_lookup_last pairs j _ v Ej).
    intros j' p' Hlt Hp'.
    assert (map fst pairs !! j' = Some p'.1) as Hk
      by (by rewrite list_lookup_fmap, Hp').
    rewrite Hnames, list_lookup_fmap in Hk.
    destruct (collections !! j') as [c'|] eqn:Ec'; [|discriminate].
    cbn in Hk. injection Hk as <-. by apply (Hlast j' c').
Qed.

(** *** The unit search *)

Lemma preserves_api_query (P : Trace → Prop) q kind limit :
  (∀ t x, P t → P {| queries := queries t ++ [x]; extended := extended t; logs := logs t |}) →
  preserves P (api_query query q kind limit).
Proof. intros H t Ht. apply H, Ht. Qed.

Lemma get_results_extended item kind settings X :
  preserves (λ t, extended t = X) (_get_results query item kind settings).
Proof.
  unfold _get_results, execute_query.
  repeat first
    [ apply preserves_bind; [|intros ?]
    | apply preserves_ret
    | apply preserves_api_query; intros ? ? H; exact H
    | match goal with
      | |- preserves _ (if ?b then _ else _) => destruct b
      end
    | intros ? H; exact H ].
Qed.

Lemma get_item_match_extended item match_on results X :
  preserves (λ t, extended t = X) (get_item_match item match_on results).
Proof.
  unfold _get_item_match, _determine_remote_object_type, get_search_settings.
  repeat first
    [ apply get_results_extended
    | apply preserves_bind; [|intros ?]
    | apply preserves_ret
    | apply preserves_raise
    | match goal with
      | |- preserves _ (match ?x with _ => _ end) => destruct x
      end ].
Qed.

Lemma for_each_extend_trace responses kind key t exts :
  (for_each (λ r, api_extend_items extend_items r kind key) responses t).1 = Return exts →
  (for_each (λ r, api_extend_items extend_items r kind key) responses t).2
  = {| queries := queries t; extended := extended t ++ responses; logs := logs t |}.
Proof.
  revert t exts. induction responses as [|r rs IH]; intros t exts.
  - intros _. cbn. rewrite app_nil_r. by destruct t.
  - set (t' := {| queries := queries t; extended := extended t ++ [r]; logs := logs t |}).
    assert (for_each (λ r, api_extend_items extend_items r kind key) (r :: rs) t
            = match extend_items r kind key with
              | Return r' =>
                  match for_each (λ r, api_extend_items extend_items r kind key) rs t' with
                  | (Return rs', t1) => (Return (r' :: rs'), t1)
                  | (Raise e, t1) => (Raise e, t1)
                  end
              | Raise e => (Raise e, t')
              end) as ->.
    { cbn [for_each]. unfold bind, api_extend_items. fold t'.
      by destruct (extend_items r kind key). }
    destruct (extend_items r kind key) as [r'|e]; [|discriminate].
    specialize (IH t').
    destruct (for_each _ rs t') as [[rs'|e] t1]; [|discriminate].
    intros _. cbn [fst snd] in *. rewrite (IH rs') by reflexivity.
    subst t'. cbn [queries extended logs]. by rewrite <- app_assoc.
Qed.


Lemma item_match_given h i match_on results :
  Item.kind (h i) = Some RemoteObjectType.TRACK →
  item_match h (Some match_on) (Some results) i
  = Return (match_ score is_karaoke karaoke_source (Item.obj (h i)) results match_on
              (min_score track_settings) (max_score track_settings)
              (allow_karaoke track_settings)).
Proof.
  intros Hkind. unfold item_match, _get_item_match, _determine_remote_object_type.
  cbn [Item.obj obj_kind]. rewrite Hkind, bind_ret_l.
  cbn [get_search_settings search_settings]. rewrite !bind_ret_l.
  cbn [ret fst snd default]. f_equal.
  destruct results as [|c cs]; reflexivity.
Qed.

Lemma first_raise_returns {A B} (f : A → B) (l : list A) :
  first_raise (map (λ a, Return (f a)) l) = None.
Proof. induction l as [|a l IH]; [reflexivity | exact IH]. Qed.

Lemma insert_sorted_perm {A} (key : A → Z) (x : A) (l : list A) :
  insert_sorted key x l ≡ₚ x :: l.
Proof.
  induction l as [|y l IH]; [reflexivity|]. cbn.
  destruct (key x <=? key y)%Z; [reflexivity|].
  rewrite IH. apply Permutation_swap.
Qed.

Lemma sorted_perm {A} (key : A → Z) (l : list A) : sorted key l ≡ₚ l.
Proof.
  unfold sorted. induction l as [|x l IH]; [reflexivity|]. cbn [fold_right].
  rewrite insert_sorted_perm. by constructor.
Qed.

(** The candidate a scan keeps is one of the candidates it was given. *)
Lemma scan_best_in source match_on max_score results best scored c sc :
  (scan score source match_on max_score results best scored).1 = Some (c, sc) →
  best = Some (c, sc) ∨ c ∈ results.
Proof.
  revert best scored. induction results as [|x rest IH]; intros best scored; cbn [scan].
  - intros H. by left.
  - destruct (Qle_bool max_score (score source match_on x)).
    + cbn. intros [= <- <-]. right. left.
    + intros H. apply IH in H as [H|H]; [|right; by right].
      destruct best as [[b sb]|].
      * destruct (Qle_bool (score source match_on x) sb); [by left|].
        injection H as <- <-. right. left.
      * injection H as <- <-. right. left.
Qed.

Lemma match_in_results source results match_on min_score max_score allow c :
  match_ score is_karaoke karaoke_source source results match_on
    min_score max_score allow = Some c →
  c ∈ results.
Proof.
  unfold match_, match_scored.
  destruct (scan score source match_on max_score
              (eligible is_karaoke karaoke_source source allow results) None [])
    as [[[b sb]|] scored] eqn:E; cbn [fst]; [|done].
  destruct (Qle_bool min_score sb); [|done]. intros [= ->].
  destruct (scan_best_in source match_on max_score
              (eligible is_karaoke karaoke_source source allow results) None [] c sb)
    as [H|H]; [by rewrite E | done |].
  unfold eligible in H. apply list_elem_of_In, filter_In in H as [H _].
  by apply list_elem_of_In.
Qed.

(** What [extend_items] returned for each response, in order. *)
Lemma for_each_extend_results responses kind key t exts :
  (for_each (λ r, api_extend_items extend_items r kind key) responses t).1 = Return exts →
  Forall2 (λ r x, extend_items r kind key = Return x) responses exts.
Proof.
  revert t exts. induction responses as [|r responses IH]; intros t exts; cbn [for_each].
  - intros [= <-]. constructor.
  - unfold bind at 1. unfold api_extend_items at 1.
    destruct (extend_items r kind key) as [x|e] eqn:E; [|done].
    unfold bind at 1.
    destruct (for_each _ responses _) as [[xs|e] t1] eqn:EF; [|done].
    cbn. intros [= <-]. constructor; [exact E|].
    apply (IH {| queries := queries t; extended := extended t ++ [r]; logs := logs t |} xs).
    by rewrite EF.
Qed.

(** C7.  In the unit search of a collection, [extend_items] is called on
    the responses of the album query, in the order the query returned
    them.  When the sorted, extended candidates yield a match, the
    matched album is what [extend_items] returned for one of those
    responses, so its full item listing has been fetched; every item of
    the collection that has [None] on [has_uri] is then matched on
    [TITLE] alone against the items of the matched album, and is assigned
    the URI of its match if that has one; nothing else changes. *)
Theorem unit_search_extends_then_matches_titles collection s key responses exts album :
  let items := Collection.items collection in
  Collection.kind collection = Some RemoteObjectType.ALBUM →
  collection_item_map RemoteObjectType.ALBUM = Some key →
  forallb (λ i, truthy (Item.has_uri (heap s i))) items = false →
  (_get_results query (Collection.obj collection) RemoteObjectType.ALBUM
     album_settings (trace s)).1 = Return (Some responses) →
  (for_each (λ r, api_extend_items extend_items r RemoteObjectType.ALBUM key)
     responses no_trace).1 = Return exts →
  match_ score is_karaoke karaoke_source (Collection.obj collection)
    (sorted (λ x, Z.abs (resp_total x - Z.of_nat (length items))) exts)
    (match_fields album_settings) (min_score album_settings)
    (max_score album_settings) (allow_karaoke album_settings) = Some album →
  truthy album = true →
  (∀ i, i ∈ items → Item.has_uri (heap s i) = None →
        Item.kind (heap s i) = Some RemoteObjectType.TRACK) →
  let r := search_collection_unit collection s in
  r.1 = Return () ∧
  extended (trace r.2) = extended (trace s) ++ responses ∧
  (∃ response,
     response ∈ responses ∧ response ∈ extended (trace r.2) ∧
     extend_items response RemoteObjectType.ALBUM key = Return album) ∧
  ∀ i, heap r.2 i
       = if bool_decide (i ∈ unsearched (heap s) items)
         then assign_one unavailable_uri_dummy
                (match_ score is_karaoke karaoke_source (Item.obj (heap s i))
                   (resp_items album) [Tag.TITLE]
                   (min_score track_settings) (max_score track_settings)
                   (allow_karaoke track_settings))
                (heap s i)
         else heap s i.
Proof.
  intros items Hkind Hkey Hsome Hres Hext Hmatch Htruthy Htracks r. subst r.
  destruct s as [h t]. cbn [heap trace] in *.
  pose proof (get_results_extended (Collection.obj collection) RemoteObjectType.ALBUM
                album_settings (extended t) t eq_refl) as Hx1.
  destruct (_get_results query (Collection.obj collection) RemoteObjectType.ALBUM
              album_settings t) as [o t1] eqn:ER.
  cbn [fst snd] in Hres, Hx1. subst o.
  set (body := λ r, api_extend_items extend_items r RemoteObjectType.ALBUM key) in *.
  assert ((for_each body responses t1).1 = Return exts) as Hext1.
  { rewrite <- Hext. apply oblivious_for_each. intros a.
    apply oblivious_api_extend_items. }
  pose proof (for_each_extend_trace responses _ key t1 exts Hext1) as Hx2.
  fold body in Hx2.
  destruct (for_each body responses t1) as [o t2] eqn:EF.
  cbn [fst snd] in Hext1, Hx2. subst o t2.
  set (t2 := {| queries := queries t1; extended := extended t1 ++ responses;
                logs := logs t1 |}) in *.
  set (f := λ i, match_ score is_karaoke karaoke_source (Item.obj (h i))
                   (resp_items album) [Tag.TITLE]
                   (min_score track_settings) (max_score track_settings)
                   (allow_karaoke track_settings)).
  set (todo := unsearched h items).
  set (s0 := {| heap := h;
                trace := (executor_map
                            (λ i, m <- get_item_match (h i) (Some [Tag.TITLE])
                                        (Some (resp_items album)) ;; ret (i, m))
                            todo t2).2 |}).
  assert (search_collection_unit collection {| heap := h; trace := t |}
          = assign_matches unavailable_uri_dummy (map (λ i, Return (i, f i)) todo) s0)
    as ->.
  { unfold _search_collection_unit. fold items. unfold bind at 1. cbn [get_heap heap].
    rewrite Hsome. unfold _determine_remote_object_type.
    cbn [Collection.obj obj_kind]. rewrite Hkind, bind_ret_l.
    cbn [get_search_settings search_settings]. rewrite bind_ret_l.
    unfold bind at 1. rewrite lift_run, ER. cbn [fst snd].
    rewrite Hkey, !bind_ret_l. fold body.
    unfold bind at 1. rewrite lift_run, EF. cbn [fst snd].
    rewrite Hmatch, Htruthy, items_pool_unfold. fold todo s0. f_equal.
    apply map_ext_in. intros i Hi. apply filter_In in Hi as [Hi Hnone].
    apply bool_decide_eq_true in Hnone.
    rewrite item_match_given; [reflexivity|].
    apply Htracks; [by apply list_elem_of_In | exact Hnone]. }
  assert (extended (trace (assign_matches unavailable_uri_dummy
                             (map (λ i, Return (i, f i)) todo) s0).2)
          = extended t ++ responses) as Hextended.
  { rewrite assign_matches_trace. subst s0. cbn [trace].
    rewrite <- Hx1.
    apply (preserves_executor_map (λ t, extended t = extended t1 ++ responses));
      [|reflexivity].
    intros i. apply preserves_bind; [apply get_item_match_extended|].
    intros m. apply preserves_ret. }
  split; [|split; [exact Hextended|split]].
  - apply assign_matches_returns, first_raise_returns.
  - apply match_in_results in Hmatch. rewrite sorted_perm in Hmatch.
    apply for_each_extend_results in Hext.
    apply list_elem_of_lookup_1 in Hmatch as [j Hj].
    destruct (Forall2_lookup_r _ _ _ _ _ Hext Hj) as (response & Hr & He).
    exists response. apply list_elem_of_lookup_2 in Hr.
    split; [exact Hr|]. split; [|exact He].
    rewrite Hextended. apply elem_of_app. by right.
  - intros i. rewrite assign_matches_heap. reflexivity.
Qed.

End SearcherFacts.

(** * The properties on the example inputs *)

(** C1.  A collection holds an unavailable track and an unsearched track
    of the same name; no query has results.  The unsearched track is still
    unsearched after the search, yet it is in none of the three sequences:
    [item not in skipped] holds it equal to the unavailable one.  Likewise
    a track that the search matches to the URI a skipped track already has
    is dropped from [matched]. *)
Theorem search_drops_item_equal_to_skipped :
  let r := Ex.search Ex.no_results [Ex.folder "Mix" [0; 1] true] (Ex.start Ex.two_intros) in
  let r' := Ex.search Ex.query_intro [Ex.folder "Mix" [0; 1] true] (Ex.start Ex.intro_twice) in
  (Item.has_uri (Ex.two_intros 1) = None ∧
   r.1 = Return {[ "Mix" := {| matched := []; unmatched := []; skipped := [0] |} ]} ∧
   Item.has_uri (heap r.2 1) = None) ∧
  (Item.has_uri (Ex.intro_twice 1) = None ∧
   r'.1 = Return {[ "Mix" := {| matched := []; unmatched := []; skipped := [0] |} ]} ∧
   Item.has_uri (heap r'.2 1) = Some true).
Proof. vm_compute. repeat split. Qed.

(** C2 on an album folder with two unsearched tracks and an API without
    results: the unit search raises. *)
Lemma unit_search_without_results_raises_witness :
  (Ex.search_collection Ex.no_results (Ex.folder "Gold" [0; 1] false)
     (Ex.start Ex.two_unsearched)).1 = Raise TypeError.
Proof.
  apply (unit_search_without_results_raises Ex.score Ex.never Ex.never Ex.no_results
           Ex.extend_items Ex.collection_item_map Ex.unavailable_uri_dummy
           (Ex.folder "Gold" [0; 1] false) (Ex.start Ex.two_unsearched)
           RemoteObjectType.TRACK).
  - reflexivity.
  - reflexivity.
  - reflexivity.
  - reflexivity.
  - reflexivity.
Defined.

(** C3 as stated fails: the query for the first of two unsearched tracks
    raises, the query for the second finds a match.  [search] raises, and
    the second track, whose task ran and found its match, is not assigned
    it. *)
Lemma item_error_aborts_batch_counterexample :
  let r := Ex.search Ex.query_alpha_fails [Ex.folder "Mix" [0; 1] true]
             (Ex.start Ex.two_unsearched) in
  r.1 = Raise (RemoteAPIError "503") ∧
  queries (trace r.2)
  = [("Alpha", RemoteObjectType.TRACK, 10); ("Beta", RemoteObjectType.TRACK, 10)] ∧
  Item.has_uri (heap r.2 1) = None.
Proof. vm_compute. repeat split. Qed.

Lemma item_error_propagates_witness :
  let r := Ex.search_collection Ex.query_alpha_fails (Ex.folder "Mix" [0; 1] true)
             (Ex.start Ex.two_unsearched) in
  (∃ e', r.1 = Raise e') ∧ heap r.2 0 = Ex.two_unsearched 0.
Proof.
  destruct (proj1 (proj2 (item_error_propagates Ex.score Ex.never Ex.never
                            Ex.query_alpha_fails Ex.extend_items
                            Ex.collection_item_map Ex.unavailable_uri_dummy))
              (Ex.folder "Mix" [0; 1] true) (Ex.start Ex.two_unsearched) 0
              (RemoteAPIError "503")) as [(e' & _ & He' & _) Hheap].
  - reflexivity.
  - left.
  - reflexivity.
  - vm_compute. reflexivity.
  - split; [by exists e' | exact Hheap].
Defined.

(** C4 as stated fails: with an empty first field-set, [_get_results]
    still makes a query for it, with the empty string, before it queries
    the second field-set; the planner that skips every empty field-set
    makes the second query only. *)
Lemma empty_first_field_set_counterexample :
  queries (_get_results Ex.query_intro (Ex.source "Intro") RemoteObjectType.TRACK
             Ex.empty_first no_trace).2
  = [("", RemoteObjectType.TRACK, 10); ("Intro", RemoteObjectType.TRACK, 10)] ∧
  queries (plan_and_execute Ex.query_intro (Ex.source "Intro") RemoteObjectType.TRACK
             Ex.empty_first no_trace).2
  = [("Intro", RemoteObjectType.TRACK, 10)].
Proof. vm_compute. split; reflexivity. Qed.

(** S3 of the spec, through [query_cascade]. *)
Lemma query_cascade_witness :
  let r := Ex.search Ex.no_results [Ex.folder "Mix" [1] true] (Ex.start Ex.two_intros) in
  r.1 = Return {[ "Mix" := {| matched := []; unmatched := [1]; skipped := [] |} ]} ∧
  length (queries (trace r.2)) = 3.
Proof.
  destruct (query_cascade Ex.score Ex.never Ex.never Ex.no_results
              Ex.extend_items Ex.collection_item_map Ex.unavailable_uri_dummy)
    as [_ H].
  destruct H as [_ H]; [reflexivity|].
  destruct (H (Ex.folder "Mix" [1] true) (Ex.start Ex.two_intros) 1)
    as (Hres & Hlen & _).
  - reflexivity.
  - reflexivity.
  - reflexivity.
  - reflexivity.
  - split; [exact Hres | exact Hlen].
Defined.

(** C5 as stated fails twice.  When nothing at all is left to search,
    [search] returns the empty mapping, so the collection's items are not
    classified.  And a collection searched as a unit whose only item is
    marked unavailable is still queried for. *)
Lemma searched_collection_counterexample :
  let r := Ex.search Ex.no_results [Ex.folder "Mix" [0; 1] true] (Ex.start Ex.all_available) in
  let r' := Ex.search_collection Ex.query_gold (Ex.folder "Gold" [0] false)
              (Ex.start Ex.one_unavailable) in
  (∃ m, r.1 = Return m ∧ m !! "Mix" = None) ∧
  Item.has_uri (Ex.one_unavailable 0) = Some false ∧
  queries (trace r'.2) = [("Gold", RemoteObjectType.ALBUM, 5)].
Proof.
  split; [|split].
  - exists ∅. split; reflexivity.
  - reflexivity.
  - vm_compute. reflexivity.
Qed.

Lemma search_skips_searched_witness :
  ∃ s', Ex.search_collection Ex.no_results (Ex.folder "Mix" [0; 1] true)
          (Ex.start Ex.all_available)
        = (Return {| matched := []; unmatched := []; skipped := [0; 1] |}, s') ∧
        queries (trace s') = [].
Proof.
  destruct (proj1 (proj2 (search_skips_searched Ex.score Ex.never Ex.never Ex.no_results
                            Ex.extend_items Ex.collection_item_map
                            Ex.unavailable_uri_dummy))
              (Ex.folder "Mix" [0; 1] true) (Ex.start Ex.all_available))
    as (s' & Hrun & _ & Hq & _).
  - intros i _. cbn. discriminate.
  - left. reflexivity.
  - exists s'. split; [exact Hrun | exact Hq].
Defined.

Lemma unit_search_extends_then_matches_titles_witness :
  let r := Ex.search_collection_unit Ex.query_gold (Ex.folder "Gold" [0; 1] false)
             (Ex.start Ex.two_unsearched) in
  r.1 = Return () ∧
  extended (trace r.2) = [Ex.album_one; Ex.album_two] ∧
  Item.uri (heap r.2 0) = Some "spotify:track:1" ∧
  Item.has_uri (heap r.2 1) = None.
Proof.
  destruct (unit_search_extends_then_matches_titles Ex.score Ex.never Ex.never Ex.query_gold
              Ex.extend_items Ex.collection_item_map Ex.unavailable_uri_dummy
              (Ex.folder "Gold" [0; 1] false) (Ex.start Ex.two_unsearched)
              RemoteObjectType.TRACK [Ex.album_one; Ex.album_two]
              [Ex.album_one; Ex.album_two] Ex.album_one)
    as (Hret & Hext & _ & Hheap).
  - reflexivity.
  - reflexivity.
  - reflexivity.
  - reflexivity.
  - reflexivity.
  - vm_compute. reflexivity.
  - reflexivity.
  - intros i Hi _. cbn in Hi.
    apply elem_of_cons in Hi as [->|Hi]; [reflexivity|].
    apply list_elem_of_singleton in Hi as ->. reflexivity.
  - split; [exact Hret|]. split; [exact Hext|]. rewrite !Hheap.
    split; vm_compute; reflexivity.
Defined.

(** C8 as stated fails: two collections share a name and no item is left
    to search, so the mapping returned has no entry for the name. *)
Lemma same_name_no_entry_counterexample :
  let r := Ex.search Ex.no_results [Ex.folder "Mix" [0] true; Ex.folder "Mix" [1] true]
             (Ex.start Ex.all_available) in
  ∃ m, r.1 = Return m ∧ m !! "Mix" = None.
Proof. exists ∅. split; reflexivity. Qed.

Lemma search_keyed_by_name_witness :
  let collections := [Ex.folder "Mix" [0] true; Ex.folder "Mix" [1; 2] true] in
  let r := Ex.search Ex.no_results collections (Ex.start Ex.two_unsearched) in
  ∃ m, r.1 = Return m ∧
       dom m = {[ "Mix" ]} ∧
       m !! "Mix" = Some {| matched := []; unmatched := [1]; skipped := [2] |}.
Proof.
  intros collections r.
  destruct (r.1) as [m|e] eqn:E; [|vm_compute in E; discriminate].
  destruct (search_keyed_by_name Ex.score Ex.never Ex.never Ex.no_results
              Ex.extend_items Ex.collection_item_map Ex.unavailable_uri_dummy
              collections (Ex.start Ex.two_unsearched) m)
    as (pairs & Hpairs & _ & Hdom & Hlast).
  - reflexivity.
  - exact E.
  - exists m. split; [reflexivity|]. split.
    + rewrite Hdom. vm_compute. reflexivity.
    + specialize (Hlast 1 (Ex.folder "Mix" [1; 2] true) eq_refl).
      cbn [Collection.name Ex.folder] in Hlast. rewrite Hlast.
      * vm_compute in Hpairs.
        destruct pairs as [|p1 [|p2 [|p3 pairs]]]; try discriminate.
        injection Hpairs as <- <-. reflexivity.
      * intros [|[|j']] c' Hlt Hc'; [lia | lia | discriminate].
Defined.

(** C10 on two tracks named alike, one unavailable and one unsearched:
    the search matches the second and leaves the first as it was. *)
Lemma search_assigns_only_unsearched_witness :
  Item.has_uri (Ex.two_intros 0) ≠ None ∧
  heap (Ex.search Ex.query_intro [Ex.folder "Mix" [0; 1] true] (Ex.start Ex.two_intros)).2 0
  = Ex.two_intros 0.
Proof.
  split; [discriminate|].
  apply (search_assigns_only_unsearched Ex.score Ex.never Ex.never Ex.query_intro
           Ex.extend_items Ex.collection_item_map Ex.unavailable_uri_dummy
           [Ex.folder "Mix" [0; 1] true] (Ex.start Ex.two_intros)).
  discriminate.
Defined.

(** * Further properties *)

(** ** Equality of items *)

Lemma item_eq_refl (a : Item.t) : Item.eq a a = true.
Proof.
  unfold Item.eq. destruct (truthy (Item.has_uri a) || truthy (Item.has_uri a)).
  - by rewrite !bool_decide_eq_true_2.
  - by rewrite bool_decide_eq_true_2.
Qed.

Lemma item_eq_sym (a b : Item.t) : Item.eq a b = Item.eq b a.
Proof.
  unfold Item.eq. rewrite (orb_comm (truthy (Item.has_uri a))).
  destruct (truthy (Item.has_uri b) || truthy (Item.has_uri a)).
  - f_equal; apply bool_decide_ext; split; congruence.
  - apply bool_decide_ext; split; congruence.
Qed.

Lemma item_eq_trans (a b c : Item.t) :
  Item.eq a b = true → Item.eq b c = true → Item.eq a c = true.
Proof.
  unfold Item.eq.
  destruct (Item.has_uri a) as [[|]|] eqn:Ea, (Item.has_uri b) as [[|]|] eqn:Eb,
    (Item.has_uri c) as [[|]|] eqn:Ec; cbn;
    rewrite ?andb_true_iff, ?bool_decide_eq_true; intros ? ?; destruct_and?;
    try discriminate; try split; congruence.
Qed.

(** X1: [Item.__eq__] is an equivalence relation on items: reflexive,
    symmetric and transitive, whatever the URI state of the items. *)
Theorem item_eq_equivalence :
  (∀ a, Item.eq a a = true) ∧
  (∀ a b, Item.eq a b = Item.eq b a) ∧
  (∀ a b c, Item.eq a b = true → Item.eq b c = true → Item.eq a c = true).
Proof. split; [exact item_eq_refl | split; [exact item_eq_sym | exact item_eq_trans]]. Qed.

Lemma item_eq_equivalence_witness :
  Item.eq (Ex.two_intros 0) (Ex.two_intros 2) = true.
Proof.
  apply (proj2 (proj2 item_eq_equivalence) _ (Ex.two_intros 1)); reflexivity.
Defined.

(** ** The result of the earlier searcher *)

Lemma filter_filter_comm {A} (f g : A → bool) (l : list A) :
  List.filter f (List.filter g l) = List.filter (λ x, g x && f x) l.
Proof.
  induction l as [|x l IH]; [reflexivity|]. cbn.
  destruct (g x); cbn; [destruct (f x)|]; by rewrite IH.
Qed.

Lemma filter_ext_in' {A} (f g : A → bool) (l : list A) :
  (∀ x, x ∈ l → f x = g x) → List.filter f l = List.filter g l.
Proof.
  intros H. apply List.filter_ext_in. intros x Hx. apply H. by apply list_elem_of_In.
Qed.

Lemma filter_length_split {A} (f : A → bool) (l : list A) :
  length (List.filter f l) + length (List.filter (λ x, negb (f x)) l) = length l.
Proof.
  induction l as [|x l IH]; [reflexivity|]. cbn. destruct (f x); cbn; lia.
Qed.

Lemma elem_of_filter' {A} (f : A → bool) (l : list A) (x : A) :
  x ∈ List.filter f l ↔ x ∈ l ∧ f x = true.
Proof. rewrite !list_elem_of_In. apply List.filter_In. Qed.

(** X12: in the [SearchResult] of the earlier [ItemSearcher.search], the
    unmatched items are exactly the skipped items with [has_uri] [None],
    matched and skipped split the result between them, and skipped equals
    unmatched unless an item is marked unavailable. *)
Theorem search_result_skipped_includes_unmatched (h : Heap) (result : list ref) :
  let r := search_result h result in
  sr_unmatched r
  = List.filter (λ i, bool_decide (Item.has_uri (h i) = None)) (sr_skipped r) ∧
  (∀ i, i ∈ sr_unmatched r → i ∈ sr_skipped r) ∧
  (∀ i, i ∈ result → (i ∈ sr_matched r ↔ i ∉ sr_skipped r)) ∧
  length (sr_matched r) + length (sr_skipped r) = length result ∧
  (sr_skipped r = sr_unmatched r ↔
   ∀ i, i ∈ result → Item.has_uri (h i) ≠ Some false).
Proof.
  cbn. 
  assert (List.filter (λ i, bool_decide (Item.has_uri (h i) = None)) result
          = List.filter (λ i, bool_decide (Item.has_uri (h i) = None))
              (List.filter (λ track, negb (truthy (Item.has_uri (h track)))) result)) as E.
  { rewrite filter_filter_comm. apply filter_ext_in'. intros x _.
    by destruct (Item.has_uri (h x)) as [[|]|]. }
  split; [exact E|]. split; [|split; [|split]].
  - intros i. rewrite E, elem_of_filter'. tauto.
  - intros i Hi. rewrite !elem_of_filter'.
    destruct (truthy (Item.has_uri (h i))); cbn.
    + split; [intros _ [_ ?]; done | done].
    + split; [intros [_ ?]; done | intros H; exfalso; apply H; done].
  - apply filter_length_split.
  - split.
    + intros Heq i Hi Hf.
      assert (i ∈ List.filter (λ track, negb (truthy (Item.has_uri (h track)))) result) as Hs.
      { apply elem_of_filter'. split; [done|]. by rewrite Hf. }
      rewrite Heq in Hs. apply elem_of_filter' in Hs as [_ Hs].
      rewrite Hf in Hs. done.
    + intros H. apply filter_ext_in'. intros x Hx. specialize (H x Hx).
      by destruct (Item.has_uri (h x)) as [[|]|].
Qed.

Lemma search_result_skipped_includes_unmatched_witness :
  1 ∈ sr_skipped (search_result Ex.two_intros [0; 1]).
Proof.
  apply (proj1 (proj2 (search_result_skipped_includes_unmatched Ex.two_intros [0; 1]))).
  vm_compute. apply list_elem_of_here.
Defined.

(** ** The report *)

Lemma sum_list_with_map {A B} (f : B → nat) (g : A → B) (l : list A) :
  sum_list_with f (map g l) = sum_list_with (λ a, f (g a)) l.
Proof. induction l as [|a l IH]; [reflexivity|]. cbn. by rewrite IH. Qed.

Lemma sum_list_with_ext {A} (f g : A → nat) (l : list A) :
  (∀ a, f a = g a) → sum_list_with f l = sum_list_with g l.
Proof. intros H. induction l as [|a l IH]; [reflexivity|]. cbn. by rewrite H, IH. Qed.

Lemma sum_list_with_add {A} (f : A → nat) (c : nat) (l : list A) :
  sum_list_with (λ a, c + f a) l = c * length l + sum_list_with f l.
Proof. induction l as [|a l IH]; [cbn; lia|]. cbn. rewrite IH. lia. Qed.

Lemma report_rows_spec results tm tu ts ta :
  let r := report_rows results tm tu ts ta in
  r.2 = (tm + sum_list_with (λ p, length (matched p.2)) results,
         tu + sum_list_with (λ p, length (unmatched p.2)) results,
         ts + sum_list_with (λ p, length (skipped p.2)) results,
         ta + sum_list_with (λ k, tm + tu + ts + results_size (take k results))
                (seq 0 (length results))) ∧
  length r.1 = length results ∧
  ∀ k name res,
    results !! k = Some (name, res) →
    r.1 !! k
    = Some (RowLine name
              (if bool_decide (0 < length (matched res)) then Green else Blue)
              (length (matched res))
              (if bool_decide (length (unmatched res) = 0) then Green else Red)
              (length (unmatched res))
              (if bool_decide (length (skipped res) = 0) then Green else Yellow)
              (length (skipped res))
              (tm + tu + ts + results_size (take k results))).
Proof.
  revert tm tu ts ta. induction results as [|[name0 res0] rest IH]; intros tm tu ts ta.
  - cbn. split; [f_equal; [f_equal; [f_equal|]|]; lia|]. split; [reflexivity|].
    intros k name res Hk. by rewrite lookup_nil in Hk.
  - cbn [report_rows].
    specialize (IH (tm + length (matched res0)) (tu + length (unmatched res0))
                  (ts + length (skipped res0)) (ta + (tm + tu + ts))).
    destruct (report_rows rest _ _ _ _) as [lines totals].
    cbn in IH. destruct IH as (IH1 & IH2 & IH3). cbn [fst snd].
    split; [|split].
    + rewrite IH1. cbn [length sum_list_with fst snd].
      rewrite <- cons_seq, <- fmap_S_seq. cbn [sum_list_with take].
      change (S <$> seq 0 (length rest)) with (map S (seq 0 (length rest))).
      rewrite sum_list_with_map. cbn [take].
      unfold results_size at 2. cbn [sum_list_with].
      f_equal; [f_equal; [f_equal|]|]; try lia.
      rewrite (sum_list_with_ext
                 (λ a, tm + tu + ts + results_size ((name0, res0) :: take a rest))
                 (λ k, tm + length (matched res0) + (tu + length (unmatched res0)) +
                       (ts + length (skipped res0)) + results_size (take k rest))).
      * lia.
      * intros k. unfold results_size. cbn [sum_list_with snd]. unfold result_size. lia.
    + cbn. by rewrite IH2.
    + intros [|k] name res Hk.
      * cbn in Hk. injection Hk as -> ->. cbn. unfold results_size. cbn.
        do 2 f_equal. lia.
      * cbn in Hk. change ((?x :: lines) !! S k) with (lines !! k).
        rewrite (IH3 k name res Hk).
        do 2 f_equal. cbn [take]. unfold results_size. cbn [sum_list_with snd].
        unfold result_size. lia.
Qed.

(** X13: [_log_results] reports nothing for an empty mapping, and
    otherwise one row per collection and a [TOTALS] row whose first three
    counts are the sums of the rows'.  A row's total is the number of
    items of the rows above it, not of its own; for a single collection
    both totals are 0. *)
Theorem log_results_totals (results : list (string * ItemSearchResult)) :
  _log_results [] = [] ∧
  (results ≠ [] →
   ∃ rows,
     _log_results results
     = rows ++ [TotalsLine
                  (sum_list_with (λ p, length (matched p.2)) results)
                  (sum_list_with (λ p, length (unmatched p.2)) results)
                  (sum_list_with (λ p, length (skipped p.2)) results)
                  (sum_list_with (λ k, results_size (take k results))
                     (seq 0 (length results)))] ∧
     length rows = length results ∧
     ∀ k name res,
       results !! k = Some (name, res) →
       rows !! k
       = Some (RowLine name
                 (if bool_decide (0 < length (matched res)) then Green else Blue)
                 (length (matched res))
                 (if bool_decide (length (unmatched res) = 0) then Green else Red)
                 (length (unmatched res))
                 (if bool_decide (length (skipped res) = 0) then Green else Yellow)
                 (length (skipped res))
                 (results_size (take k results)))) ∧
  (∀ name res,
     ∃ row, _log_results [(name, res)]
            = [row; TotalsLine (length (matched res)) (length (unmatched res))
                      (length (skipped res)) 0] ∧
            ∃ c1 c2 c3, row = RowLine name c1 (length (matched res)) c2
                                (length (unmatched res)) c3 (length (skipped res)) 0).
Proof.
  split; [reflexivity|]. split.
  - intros Hne. unfold _log_results.
    destruct results as [|p rest]; [done|]. cbn [negb truthy truthy_list].
    set (results := p :: rest).
    destruct (report_rows_spec results 0 0 0 0) as (E1 & E2 & E3).
    destruct (report_rows results 0 0 0 0) as [lines [[[tm tu] ts] ta]].
    cbn [fst snd] in *. injection E1 as -> -> -> ->.
    exists lines. split; [|split; [exact E2|]].
    + cbn [Nat.add]. reflexivity.
    + intros k name res Hk. rewrite (E3 k name res Hk). reflexivity.
  - intros name res. eexists. split; [reflexivity|]. by eexists _, _, _.
Qed.

Lemma log_results_totals_witness :
  ∃ rows,
    _log_results [("Mix", {| matched := [1]; unmatched := [2]; skipped := [] |});
                  ("Gold", {| matched := []; unmatched := []; skipped := [3] |})]
    = rows ++ [TotalsLine 1 1 1 2].
Proof.
  destruct (proj1 (proj2 (log_results_totals
              [("Mix", {| matched := [1]; unmatched := [2]; skipped := [] |});
               ("Gold", {| matched := []; unmatched := []; skipped := [3] |})])))
    as (rows & E & _); [discriminate|].
  exists rows. exact E.
Defined.

(** ** The order of the candidates *)

Lemma insert_sorted_sorted {A} (key : A → Z) (x : A) (l : list A) :
  StronglySorted (λ a b, (key a ≤ key b)%Z) l →
  StronglySorted (λ a b, (key a ≤ key b)%Z) (insert_sorted key x l).
Proof.
  induction 1 as [|y l Hs IH Hy]; cbn.
  - repeat constructor.
  - destruct (key x <=? key y)%Z eqn:E.
    + apply Z.leb_le in E. constructor; [by constructor|].
      constructor; [done|]. revert Hy. apply List.Forall_impl. intros; lia.
    + apply Z.leb_gt in E. constructor; [exact IH|].
      rewrite insert_sorted_perm. constructor; [lia | exact Hy].
Qed.

Lemma insert_sorted_stable {A} (key : A → Z) (x : A) (l : list A) (k : Z) :
  List.filter (λ a, (key a =? k)%Z) (insert_sorted key x l)
  = List.filter (λ a, (key a =? k)%Z) (x :: l).
Proof.
  induction l as [|y l IH]; [reflexivity|]. cbn [insert_sorted].
  destruct (key x <=? key y)%Z eqn:E; [reflexivity|].
  apply Z.leb_gt in E. cbn [List.filter] in *. rewrite IH.
  destruct (key x =? k)%Z eqn:Ex, (key y =? k)%Z eqn:Ey; try reflexivity.
  apply Z.eqb_eq in Ex, Ey. lia.
Qed.

(** X14: the candidates of a unit search are the responses reordered by
    the distance of their track count from the collection's, ascending;
    responses at the same distance keep the order the API gave them. *)
Theorem unit_candidates_order (n : nat) (responses : list Response) :
  let key := λ x, Z.abs (resp_total x - Z.of_nat n) in
  let results := sorted key responses in
  results ≡ₚ responses ∧
  StronglySorted (λ a b, (key a ≤ key b)%Z) results ∧
  ∀ k, List.filter (λ x, (key x =? k)%Z) results
       = List.filter (λ x, (key x =? k)%Z) responses.
Proof.
  intros key results. subst results. unfold sorted.
  induction responses as [|x l (IH1 & IH2 & IH3)]; cbn [fold_right].
  - split; [reflexivity|]. split; [constructor | reflexivity].
  - split; [|split].
    + rewrite insert_sorted_perm. by constructor.
    + by apply insert_sorted_sorted.
    + intros k. rewrite insert_sorted_stable. cbn [List.filter]. by rewrite IH3.
Qed.


(** ** The searcher, continued *)

Section SearcherMore.

Variable score : MusifyObject → list Tag.t → Response → Q.
Variable is_karaoke : Response → bool.
Variable karaoke_source : MusifyObject → bool.
Variable query : string → RemoteObjectType.t → nat → Outcome (list Response).
Variable extend_items : Response → RemoteObjectType.t → RemoteObjectType.t → Outcome Response.
Variable collection_item_map : RemoteObjectType.t → option RemoteObjectType.t.
Variable unavailable_uri_dummy : string.

Local Abbreviation get_item_match :=
  (_get_item_match score is_karaoke karaoke_source query).
Local Abbreviation item_match :=
  (item_match score is_karaoke karaoke_source query).
Local Abbreviation after_match := (after_match unavailable_uri_dummy).
Local Abbreviation items_pool :=
  (match_items score is_karaoke karaoke_source query unavailable_uri_dummy).
Local Abbreviation search_items :=
  (_search_items score is_karaoke karaoke_source query unavailable_uri_dummy).
Local Abbreviation search_collection_unit :=
  (_search_collection_unit score is_karaoke karaoke_source query extend_items
     collection_item_map unavailable_uri_dummy).
Local Abbreviation search_collection :=
  (_search_collection score is_karaoke karaoke_source query extend_items
     collection_item_map unavailable_uri_dummy).
Local Abbreviation searcher :=
  (search score is_karaoke karaoke_source query extend_items
     collection_item_map unavailable_uri_dummy).

Ltac get_results_leaf q1 q2 q3 q_of :=
  match goal with
  | Hin : ∀ qs last, _ → _ → ∀ q, _ → _ |- _ =>
      split; [cbn [app]; rewrite <- ?app_assoc; reflexivity|];
      split; [cbn [length]; lia|];
      split; [reflexivity|];
      split; [apply Hin;
              [intros q Hq; repeat (apply elem_of_cons in Hq as [->|Hq]);
               [set_solver.. | by apply elem_of_nil in Hq]
              | set_solver]|];
      split; [intros q Hq; repeat (apply elem_of_cons in Hq as [->|Hq]);
              [assumption.. | by apply elem_of_nil in Hq]|];
      split; [reflexivity|];
      cbv delta [q1 q2 q3 q_of]; cbn [fst snd];
      match goal with
      | E : ?x = _ |- context [match ?x with _ => _ end] => rewrite E; reflexivity
      end
  end.

Lemma get_results_spec item kind settings t :
  let r := _get_results query item kind settings t in
  let q_of := λ keys, (query_string item keys, kind, result_count settings) in
  ∃ qs last,
    queries r.2 = queries t ++ qs ++ [last] ∧
    (length qs ≤ 2)%nat ∧
    head (qs ++ [last]) = Some (q_of (search_fields_1 settings)) ∧
    (∀ q, q ∈ qs ++ [last] →
          q ∈ map q_of [search_fields_1 settings; search_fields_2 settings;
                        search_fields_3 settings]) ∧
    (∀ q, q ∈ qs → query q.1.1 q.1.2 q.2 = Return []) ∧
    extended r.2 = extended t ∧
    r.1 = match query last.1.1 last.1.2 last.2 with
          | Return [] => Return None
          | Return res => Return (Some res)
          | Raise e => Raise e
          end.
Proof.
  intros r q_of. subst r.
  pose (q1 := q_of (search_fields_1 settings)).
  pose (q2 := q_of (search_fields_2 settings)).
  pose (q3 := q_of (search_fields_3 settings)).
  assert (∀ qs last,
            (∀ q, q ∈ qs → q ∈ [q1; q2; q3]) → last ∈ [q1; q2; q3] →
            ∀ q, q ∈ qs ++ [last] →
                 q ∈ map q_of [search_fields_1 settings; search_fields_2 settings;
                               search_fields_3 settings]) as Hin.
  { intros qs last Hqs Hlast q Hq. apply elem_of_app in Hq as [Hq|Hq]; [by apply Hqs|].
    apply list_elem_of_singleton in Hq as ->. exact Hlast. }
  unfold _get_results, execute_query, api_query, bind, ret, _log_padded.
  cbn [fst snd queries extended logs].
  destruct (truthy (search_fields_2 settings)) eqn:F2,
           (truthy (search_fields_3 settings)) eqn:F3;
    destruct (query (query_string item (search_fields_1 settings)) kind
                (result_count settings)) as [[|r1 l1]|e1] eqn:E1;
    cbn [fst snd truthy truthy_list negb andb queries extended logs];
    rewrite ?F2, ?F3;
    cbn [fst snd truthy truthy_list negb andb queries extended logs].
  all: repeat (match goal with
               | |- context [match query ?q ?k ?n with _ => _ end] =>
                   destruct (query q k n) as [[|? ?]|?] eqn:?
               end;
               cbn [fst snd truthy truthy_list negb andb queries extended logs]).
  all: first
         [ exists [], q1; get_results_leaf q1 q2 q3 q_of
         | exists [q1], q2; get_results_leaf q1 q2 q3 q_of
         | exists [q1], q3; get_results_leaf q1 q2 q3 q_of
         | exists [q1; q2], q3; get_results_leaf q1 q2 q3 q_of ].
Qed.

(** X15: [_get_results] issues one to three queries, the first for
    field-set 1 and each for one of the three field-sets with the given
    kind and limit; every query but the last returned no results, and the
    outcome is the last query's: its exception, [None] for no results,
    its results otherwise.  It extends no response. *)
Theorem get_results_bounds item kind settings t :
  let r := _get_results query item kind settings t in
  let q_of := λ keys, (query_string item keys, kind, result_count settings) in
  ∃ qs last,
    queries r.2 = queries t ++ qs ++ [last] ∧
    (length qs ≤ 2)%nat ∧
    head (qs ++ [last]) = Some (q_of (search_fields_1 settings)) ∧
    (∀ q, q ∈ qs ++ [last] →
          q ∈ map q_of [search_fields_1 settings; search_fields_2 settings;
                        search_fields_3 settings]) ∧
    (∀ q, q ∈ qs → query q.1.1 q.1.2 q.2 = Return []) ∧
    extended r.2 = extended t ∧
    r.1 = match query last.1.1 last.1.2 last.2 with
          | Return [] => Return None
          | Return res => Return (Some res)
          | Raise e => Raise e
          end.
Proof.
  intros r q_of.
  destruct (get_results_spec item kind settings t) as (qs & last & H).
  exists qs, last. exact H.
Qed.

Lemma search_collection_frame collection s :
  assigned_from unavailable_uri_dummy (heap s) (heap (search_collection collection s).2).
Proof.
  apply (frame_search_collection score is_karaoke karaoke_source query extend_items
           collection_item_map unavailable_uri_dummy (heap s) collection s).
  intros r. by left.
Qed.

(** X16: when [_search_collection] returns, [skipped] holds the items
    that had a [has_uri] value at the start, unchanged; a matched item
    was unsearched and now has a real URI; an unmatched item is as it was
    and unsearched; the three are pairwise disjoint; and an item in none
    of them was unsearched and is now equal to a skipped item or marked
    unavailable. *)
Theorem search_collection_classifies collection s res s' :
  search_collection collection s = (Return res, s') →
  let items := Collection.items collection in
  skipped res = List.filter (λ i, bool_decide (Item.has_uri (heap s i) ≠ None)) items ∧
  (∀ i, i ∈ matched res →
        i ∈ items ∧ Item.has_uri (heap s i) = None ∧ real_uri (heap s' i) ∧
        (i ∉ unmatched res) ∧ (i ∉ skipped res)) ∧
  (∀ i, i ∈ unmatched res →
        i ∈ items ∧ Item.has_uri (heap s i) = None ∧ heap s' i = heap s i ∧
        (i ∉ skipped res)) ∧
  (∀ i, i ∈ skipped res → i ∈ items ∧ heap s' i = heap s i) ∧
  (∀ i, i ∈ items →
        i ∈ matched res ∨ i ∈ unmatched res ∨ i ∈ skipped res ∨
        (Item.has_uri (heap s i) = None ∧
         (contains (heap s') i (skipped res) = true ∨
          Item.has_uri (heap s' i) = Some false))).
Proof.
  intros H items.
  pose proof (search_collection_frame collection s) as Hframe.
  rewrite H in Hframe. cbn [snd] in Hframe.
  apply search_collection_result in H. subst res.
  fold items. unfold classification, skipped_of. cbn [matched unmatched skipped].
  set (skip := List.filter (λ i, bool_decide (Item.has_uri (heap s i) ≠ None)) items).
  assert (∀ i, i ∈ items → contains (heap s') i skip = false →
               Item.has_uri (heap s i) = None ∧ i ∉ skip) as Hout.
  { intros i Hi Hc.
    assert (i ∉ skip) as Hn.
    { intros Hin. by rewrite (contains_self _ _ _ Hin) in Hc. }
    split; [|exact Hn].
    destruct (Item.has_uri (heap s i)) eqn:E; [|done].
    exfalso. apply Hn. apply elem_of_filter'. split; [done|].
    apply bool_decide_eq_true. by rewrite E. }
  split; [reflexivity|]. split; [|split; [|split]].
  - intros i Hi. apply elem_of_filter' in Hi as [Hi Hb].
    apply andb_true_iff in Hb as [Hb Hc]. apply negb_true_iff in Hc.
    destruct (Hout i Hi Hc) as [H0 Hn]. apply truthy_has_uri in Hb.
    repeat split; [done..| |done].
    rewrite elem_of_filter'. intros [_ Hu]. apply andb_true_iff in Hu as [Hu _].
    apply bool_decide_eq_true in Hu. unfold real_uri in Hb. congruence.
  - intros i Hi. apply elem_of_filter' in Hi as [Hi Hb].
    apply andb_true_iff in Hb as [Hb Hc]. apply negb_true_iff in Hc.
    apply bool_decide_eq_true in Hb.
    destruct (Hout i Hi Hc) as [H0 Hn]. repeat split; [done..| |done].
    destruct (Hframe i) as [E|(_ & m & _ & E)]; [done|].
    rewrite E in Hb. by apply set_uri_searched in Hb.
  - intros i Hi. apply elem_of_filter' in Hi as [Hi Hb].
    apply bool_decide_eq_true in Hb. split; [done|].
    destruct (Hframe i) as [E|(E & _)]; [done | contradiction].
  - intros i Hi. destruct (Item.has_uri (heap s i)) as [b|] eqn:E0.
    { right. right. left. apply elem_of_filter'. split; [done|].
      apply bool_decide_eq_true. by rewrite E0. }
    destruct (contains (heap s') i skip) eqn:Ec; [by right; right; right; split; [|left]|].
    destruct (Item.has_uri (heap s' i)) as [[|]|] eqn:E1.
    + left. apply elem_of_filter'. split; [done|]. by rewrite E1, Ec.
    + right. right. right. split; [done | by right].
    + right. left. apply elem_of_filter'. split; [done|]. by rewrite E1, Ec.
Qed.

Lemma search_collection_via_unit collection h t :
  Collection.as_unit collection = true →
  ∃ t0, queries t0 = queries t ∧ extended t0 = extended t ∧
    ∀ e s1,
      search_collection_unit collection {| heap := h; trace := t0 |} = (Raise e, s1) →
      search_collection collection {| heap := h; trace := t |} = (Raise e, s1).
Proof.
  intros Hunit. unfold _search_collection. unfold bind at 1. cbn [get_heap heap].
  rewrite Hunit. destruct (bool_decide _).
  - unfold bind at 1. rewrite lift_run. cbn [_log_padded fst snd].
    rewrite !bind_bind. unfold bind at 1. rewrite lift_run. cbn [_log_padded fst snd].
    exists {| queries := queries t; extended := extended t;
              logs := (logs t ++ [LogSkipping (Collection.name collection)])
                      ++ [LogAsUnit (Collection.name collection)] |}.
    split; [reflexivity|]. split; [reflexivity|]. intros e s1 Hrun.
    cbn [queries extended logs].
    by rewrite !bind_bind, (bind_raises _ _ _ _ _ Hrun).
  - rewrite bind_ret_l.
    rewrite !bind_bind. unfold bind at 1. rewrite lift_run. cbn [_log_padded fst snd].
    exists {| queries := queries t; extended := extended t;
              logs := logs t ++ [LogAsUnit (Collection.name collection)] |}.
    split; [reflexivity|]. split; [reflexivity|]. intros e s1 Hrun.
    by rewrite !bind_bind, (bind_raises _ _ _ _ _ Hrun).
Qed.

Lemma get_results_returns item kind settings t :
  (∀ q k n, ∃ l, query q k n = Return l) →
  ∃ o t', _get_results query item kind settings t = (Return o, t') ∧
          (length (queries t) < length (queries t'))%nat.
Proof.
  intros Htotal.
  destruct (get_results_spec item kind settings t)
    as (qs & last & Hq & _ & _ & _ & _ & _ & Hr).
  destruct (_get_results query item kind settings t) as [o t'] eqn:E.
  cbn [fst snd] in *. destruct (Htotal last.1.1 last.1.2 last.2) as [l Hl].
  rewrite Hl in Hr.
  assert (length (queries t) < length (queries t'))%nat as Hlen.
  { rewrite Hq, !length_app. cbn. lia. }
  destruct l; subst o; eauto.
Qed.

(** X17: a collection searched as a unit whose items do not all have a
    real URI raises [MusifyAttributeError] when it has no [kind] and
    [KeyError] when its kind has no search settings, before any query;
    when the API has no item key for its kind, [KeyError] is raised only
    after the queries for the collection were issued.  No item changes. *)
Theorem unit_search_kind_errors collection s :
  Collection.as_unit collection = true →
  forallb (λ i, truthy (Item.has_uri (heap s i))) (Collection.items collection) = false →
  let r := search_collection collection s in
  (Collection.kind collection = None →
   r.1 = Raise MusifyAttributeError ∧ heap r.2 = heap s ∧
   queries (trace r.2) = queries (trace s)) ∧
  (∀ kind, Collection.kind collection = Some kind → search_settings kind = None →
           r.1 = Raise KeyError ∧ heap r.2 = heap s ∧
           queries (trace r.2) = queries (trace s)) ∧
  (∀ kind, Collection.kind collection = Some kind → search_settings kind ≠ None →
           collection_item_map kind = None →
           (∀ q k n, ∃ l, query q k n = Return l) →
           r.1 = Raise KeyError ∧ heap r.2 = heap s ∧
           (length (queries (trace s)) < length (queries (trace r.2)))%nat).
Proof.
  destruct s as [h t]. cbn [heap trace]. intros Hunit Hsome. cbn zeta.
  destruct (search_collection_via_unit collection h t Hunit) as (t0 & Hq & _ & Hvia).
  split; [|split].
  - intros Hkind. rewrite (Hvia MusifyAttributeError {| heap := h; trace := t0 |}); [done|].
    unfold _search_collection_unit. unfold bind at 1. cbn [get_heap heap]. rewrite Hsome.
    unfold _determine_remote_object_type. cbn [Collection.obj obj_kind].
    by rewrite Hkind, bind_raise_l.
  - intros kind Hkind Hset.
    rewrite (Hvia KeyError {| heap := h; trace := t0 |}); [done|].
    unfold _search_collection_unit. unfold bind at 1. cbn [get_heap heap]. rewrite Hsome.
    unfold _determine_remote_object_type. cbn [Collection.obj obj_kind].
    rewrite Hkind, bind_ret_l. unfold get_search_settings.
    by rewrite Hset, bind_raise_l.
  - intros kind Hkind Hset Hmap Htotal.
    destruct (search_settings kind) as [config|] eqn:Ec; [|done].
    destruct (get_results_returns (Collection.obj collection) kind config t0 Htotal)
      as (o & t' & Hrun & Hlen).
    rewrite Hq in Hlen.
    rewrite (Hvia KeyError {| heap := h; trace := t' |}); [cbn; split; [done|]; split; [done|]; lia|].
    unfold _search_collection_unit. unfold bind at 1. cbn [get_heap heap]. rewrite Hsome.
    unfold _determine_remote_object_type. cbn [Collection.obj obj_kind].
    rewrite Hkind, bind_ret_l. unfold get_search_settings.
    rewrite Ec, bind_ret_l. unfold bind at 1. rewrite lift_run.
    fold (Collection.obj collection). rewrite Hrun. cbn [fst snd].
    by rewrite Hmap, bind_raise_l.
Qed.

Lemma tagged_returns {A B} (g : A → Outcome B) (d : B) (l : list A) :
  first_raise (map g l) = None →
  map (λ a, tagged a (g a)) l
  = map (λ a, Return (a, match g a with Return b => b | Raise _ => d end)) l.
Proof.
  induction l as [|a l IH]; [done|]. cbn. destruct (g a) as [b|e]; [|done].
  intros H. cbn. by rewrite IH.
Qed.

Lemma assign_matches_app_raise l1 e l2 s :
  first_raise l1 = None →
  assign_matches unavailable_uri_dummy (l1 ++ Raise e :: l2) s
  = (Raise e, (assign_matches unavailable_uri_dummy l1 s).2).
Proof.
  revert s. induction l1 as [|[[i m]|e'] l1 IH]; intros s H; [done| |done].
  cbn [app]. rewrite !assign_matches_cons. by apply IH.
Qed.

(** X18: when the task of an unsearched item raises in an item-by-item
    search and the tasks before it returned, the search raises that
    exception after the matches of the items before it have been
    assigned; every other item is as it was. *)
Theorem item_failure_keeps_earlier_matches collection s pre i post e :
  Collection.as_unit collection = false →
  unsearched (heap s) (Collection.items collection) = pre ++ i :: post →
  first_raise (map (item_match (heap s) None None) pre) = None →
  item_match (heap s) None None i = Raise e →
  let r := search_collection collection s in
  r.1 = Raise e ∧
  ∀ j, heap r.2 j
       = if bool_decide (j ∈ pre)
         then match item_match (heap s) None None j with
              | Return m => assign_one unavailable_uri_dummy m (heap s j)
              | Raise _ => heap s j
              end
         else heap s j.
Proof.
  destruct s as [h t]. cbn [heap]. intros Hunit Hun Hpre Hi. cbn zeta.
  destruct (search_collection_distinct score is_karaoke karaoke_source query extend_items
              collection_item_map unavailable_uri_dummy collection h t Hunit)
    as (t0 & _ & _ & ->).
  match goal with
  | |- (?c _).1 = _ ∧ _ =>
      assert (∃ tr, c {| heap := h; trace := t0 |}
                    = (Raise e,
                       (assign_matches unavailable_uri_dummy
                          (map (λ a, Return (a, match item_match h None None a with
                                                | Return b => b
                                                | Raise _ => None
                                                end)) pre)
                          {| heap := h; trace := tr |}).2)) as [tr ->]
  end.
  { unfold _search_items. unfold bind at 1. rewrite items_pool_unfold, Hun.
    rewrite map_app. cbn [map]. rewrite Hi. cbn [tagged].
    rewrite (tagged_returns _ None pre Hpre).
    rewrite assign_matches_app_raise by apply first_raise_returns.
    eexists. reflexivity. }
  cbn [fst snd]. split; [done|]. intros j.
  rewrite (assign_matches_heap unavailable_uri_dummy
             (λ a, match item_match h None None a with
                   | Return b => b
                   | Raise _ => None
                   end)).
  cbn [heap]. destruct (bool_decide (j ∈ pre)); [|done].
  by destruct (item_match h None None j).
Qed.

Lemma first_item_raises collection h t i post e :
  Collection.as_unit collection = false →
  unsearched h (Collection.items collection) = i :: post →
  item_match h None None i = Raise e →
  ∃ t', search_collection collection {| heap := h; trace := t |}
        = (Raise e, {| heap := h; trace := t' |}).
Proof.
  intros Hunit Hun Hi.
  destruct (search_collection_distinct score is_karaoke karaoke_source query extend_items
              collection_item_map unavailable_uri_dummy collection h t Hunit)
    as (t0 & _ & _ & ->).
  unfold _search_items. unfold bind at 1. rewrite items_pool_unfold, Hun.
  cbn [map]. rewrite Hi. cbn [tagged assign_matches raise]. by eexists.
Qed.

(** X19: in an item-by-item search, a first unsearched item without a
    [kind] makes [_search_collection] and [search] raise
    [MusifyAttributeError], and one whose kind has no search settings,
    [KeyError]; no item changes. *)
Theorem item_kind_errors collection s i post :
  Collection.as_unit collection = false →
  unsearched (heap s) (Collection.items collection) = i :: post →
  let r := search_collection collection s in
  (Item.kind (heap s i) = None →
   r.1 = Raise MusifyAttributeError ∧ heap r.2 = heap s ∧
   (searcher [collection] s).1 = Raise MusifyAttributeError) ∧
  (∀ kind, Item.kind (heap s i) = Some kind → search_settings kind = None →
           r.1 = Raise KeyError ∧ heap r.2 = heap s ∧
           (searcher [collection] s).1 = Raise KeyError).
Proof.
  destruct s as [h t]. cbn [heap]. intros Hunit Hun. cbn zeta.
  assert (∀ e, item_match h None None i = Raise e →
               (search_collection collection {| heap := h; trace := t |}).1 = Raise e ∧
               heap (search_collection collection {| heap := h; trace := t |}).2 = h ∧
               (searcher [collection] {| heap := h; trace := t |}).1 = Raise e) as Hraise.
  { intros e Hi.
    destruct (first_item_raises collection h t i post e Hunit Hun Hi) as [t' Hrun].
    rewrite (search_single score is_karaoke karaoke_source query extend_items
               collection_item_map unavailable_uri_dummy collection)
      by (cbn [heap]; by rewrite Hun).
    by rewrite Hrun. }
  split.
  - intros Hkind. apply Hraise.
    unfold item_match, _get_item_match, _determine_remote_object_type.
    cbn [Item.obj obj_kind]. by rewrite Hkind, bind_raise_l.
  - intros kind Hkind Hset. apply Hraise.
    unfold item_match, _get_item_match, _determine_remote_object_type,
      get_search_settings.
    cbn [Item.obj obj_kind]. by rewrite Hkind, bind_ret_l, Hset, bind_raise_l.
Qed.

(** *** The number of queries *)

Lemma adds_ret {S A} (count : S → nat) (P : S → Prop) (k : nat) (a : A) :
  adds_at_most count P k (ret a).
Proof. intros s _. cbn. lia. Qed.

Lemma adds_raise {S A} (count : S → nat) (P : S → Prop) (k : nat) (e : Exn) :
  adds_at_most count P k (@raise S A e).
Proof. intros s _. cbn. lia. Qed.

Lemma adds_weaken {S A} (count : S → nat) (P : S → Prop) (k k' : nat) (c : Comp S A) :
  (k ≤ k')%nat → adds_at_most count P k c → adds_at_most count P k' c.
Proof. intros Hk H s Hs. specialize (H s Hs). lia. Qed.

Lemma adds_bind {S A B} (count : S → nat) (P : S → Prop) (k1 k2 : nat)
    (c : Comp S A) (k : A → Comp S B) :
  preserves P c → adds_at_most count P k1 c → (∀ a, adds_at_most count P k2 (k a)) →
  adds_at_most count P (k1 + k2) (bind c k).
Proof.
  intros HP H1 H2 s Hs. specialize (H1 s Hs). specialize (HP s Hs).
  unfold bind. destruct (c s) as [[a|e] s1]; cbn [snd] in *; [|lia].
  specialize (H2 a s1 HP). lia.
Qed.

Lemma adds_executor_map {S A B} (count : S → nat) (P : S → Prop) (b : A → nat)
    (fn : A → Comp S B) (l : list A) :
  (∀ a, preserves P (fn a)) → (∀ a, a ∈ l → adds_at_most count P (b a) (fn a)) →
  ∀ s, P s → (count (executor_map fn l s).2 ≤ count s + sum_list_with b l)%nat.
Proof.
  intros HP. induction l as [|a l IH]; intros Hb s Hs; [cbn; lia|].
  cbn [executor_map sum_list_with].
  pose proof (Hb a ltac:(left) s Hs) as Ha. pose proof (HP a s Hs) as HPa.
  destruct (fn a s) as [o s1]. cbn [snd] in *.
  specialize (IH ltac:(intros a' Ha'; apply Hb; by right) s1 HPa).
  destruct (executor_map fn l s1) as [os s2]. cbn [snd] in *. lia.
Qed.

Lemma preserves_True {S A} (c : Comp S A) : preserves (λ _, True) c.
Proof. done. Qed.

Lemma sum_list_with_const {A} (k : nat) (l : list A) :
  sum_list_with (λ _, k) l = k * length l.
Proof. induction l as [|a l IH]; cbn; lia. Qed.

Lemma adds_get_results item kind settings :
  adds_at_most queries_sent (λ _, True) 3 (_get_results query item kind settings).
Proof.
  intros t _. destruct (get_results_spec item kind settings t) as (qs & last & Hq & Hl & _).
  unfold queries_sent. rewrite Hq, !length_app. cbn. lia.
Qed.

Lemma adds_get_item_match item match_on (results : option (list Response)) :
  adds_at_most queries_sent (λ _, True) (match results with Some _ => 0 | None => 3 end)
    (get_item_match item match_on results).
Proof.
  intros t _. unfold _get_item_match, _determine_remote_object_type, get_search_settings.
  cbn [Item.obj obj_kind].
  destruct (Item.kind item) as [kind|]; [|rewrite bind_raise_l; cbn; lia].
  rewrite bind_ret_l.
  destruct (search_settings kind) as [config|]; [|rewrite bind_raise_l; cbn; lia].
  rewrite bind_ret_l. destruct results as [given|].
  - rewrite !bind_ret_l. cbn. lia.
  - rewrite bind_bind. unfold bind at 1.
    pose proof (adds_get_results (Item.obj item) kind config t I) as H.
    destruct (_get_results query (Item.obj item) kind config t) as [[o|e] t1];
      cbn [snd] in *; [|exact H].
    rewrite !bind_ret_l. exact H.
Qed.

Lemma adds_lift {A} (P : State → Prop) (k : nat) (c : Comp Trace A) :
  adds_at_most queries_sent (λ _, True) k c →
  adds_at_most (λ s, queries_sent (trace s)) P k (lift c).
Proof.
  intros H s _. unfold lift. specialize (H (trace s) I).
  by destruct (c (trace s)).
Qed.

Lemma adds_log (P : State → Prop) (k : nat) (l : LogLine) :
  adds_at_most (λ s, queries_sent (trace s)) P k (lift (_log_padded l)).
Proof. intros s _. cbn. unfold queries_sent. cbn. lia. Qed.

Lemma adds_get_heap (P : State → Prop) (k : nat) :
  adds_at_most (λ s, queries_sent (trace s)) P k get_heap.
Proof. intros s _. cbn. lia. Qed.

Lemma adds_for_each_extend (k : nat) responses kind key :
  adds_at_most queries_sent (λ _, True) k
    (for_each (λ r, api_extend_items extend_items r kind key) responses).
Proof.
  apply (adds_weaken _ _ 0); [lia|].
  induction responses as [|r responses IH]; [apply adds_ret|].
  cbn [for_each]. apply (adds_bind _ _ 0 0); [apply preserves_True| |].
  - intros t _. cbn. unfold queries_sent. cbn. lia.
  - intros b. apply (adds_bind _ _ 0 0); [apply preserves_True | exact IH |].
    intros bs. apply adds_ret.
Qed.

Lemma unsearched_shrinks (h0 h : Heap) (l : list ref) :
  assigned_from unavailable_uri_dummy h0 h →
  (length (unsearched h l) ≤ length (unsearched h0 l))%nat.
Proof.
  intros Hh. unfold unsearched. induction l as [|a l IH]; [done|]. cbn.
  destruct (bool_decide (Item.has_uri (h a) = None)) eqn:E.
  - apply bool_decide_eq_true in E.
    rewrite (bool_decide_eq_true_2 _
               (assigned_from_unsearched unavailable_uri_dummy h0 h a Hh E)).
    cbn. lia.
  - destruct (bool_decide (Item.has_uri (h0 a) = None)); cbn; lia.
Qed.

Section Budget.

Variable h0 : Heap.

Let P (s : State) : Prop := assigned_from unavailable_uri_dummy h0 (heap s).
Let count (s : State) : nat := queries_sent (trace s).

Lemma adds_match_items match_on (results : option (list Response)) collection :
  adds_at_most count P ((match results with Some _ => 0 | None => 3 end) * length (unsearched h0 collection))
    (items_pool match_on results collection).
Proof.
  intros s Hs. unfold match_items.
  pose proof (adds_executor_map queries_sent (λ _, True)
                (λ _, match results with Some _ => 0 | None => 3 end)
                (λ i, m <- get_item_match (heap s i) match_on results ;; ret (i, m))
                (unsearched (heap s) collection)) as H.
  specialize (H ltac:(intros a; apply preserves_True)).
  rewrite sum_list_with_const in H.
  specialize (H ltac:(intros a _;
                      apply (adds_weaken _ _ ((match results with Some _ => 0 | None => 3 end) + 0)); [lia|];
                      apply adds_bind;
                        [apply preserves_True | apply adds_get_item_match
                        | intros m; apply adds_ret]) (trace s) I).
  destruct (executor_map _ _ _) as [matches t].
  unfold count. rewrite assign_matches_trace. cbn [trace snd] in *.
  pose proof (unsearched_shrinks h0 (heap s) collection Hs).
  destruct results; nia.
Qed.

Ltac keeps :=
  repeat first
    [ apply preserves_bind; [|intros ?]
    | apply preserves_ret
    | apply preserves_raise
    | apply preserves_get_heap
    | apply (frame_lift unavailable_uri_dummy h0)
    | apply (frame_match_items score is_karaoke karaoke_source query
               unavailable_uri_dummy h0)
    | apply (frame_search_collection_unit score is_karaoke karaoke_source query
               extend_items collection_item_map unavailable_uri_dummy h0)
    | match goal with
      | |- preserves _ (if ?b then _ else _) => destruct b
      | |- preserves _ (match ?x with _ => _ end) => destruct x
      end
    | progress unfold _determine_remote_object_type, get_search_settings ].

Ltac adds_seq k1 k2 :=
  apply (adds_weaken _ _ (k1 + k2)); [lia | apply adds_bind; [keeps | | ]].

Lemma adds_search_collection_unit collection :
  adds_at_most count P 3 (search_collection_unit collection).
Proof.
  unfold _search_collection_unit.
  adds_seq 0 3; [apply adds_get_heap | intros h].
  destruct (forallb _ _); [apply adds_ret|].
  adds_seq 0 3; [|intros kind].
  { unfold _determine_remote_object_type.
    destruct (obj_kind _); [apply adds_ret | apply adds_raise]. }
  adds_seq 0 3; [|intros config].
  { unfold get_search_settings.
    destruct (search_settings _); [apply adds_ret | apply adds_raise]. }
  adds_seq 3 0; [apply adds_lift, adds_get_results | intros responses].
  adds_seq 0 0; [|intros key].
  { destruct (collection_item_map _); [apply adds_ret | apply adds_raise]. }
  adds_seq 0 0; [|intros given].
  { destruct responses; [apply adds_ret | apply adds_raise]. }
  adds_seq 0 0; [apply adds_lift, adds_for_each_extend | intros extended].
  destruct (match_ _ _ _ _ _ _ _ _ _) as [result|]; [|apply adds_ret].
  destruct (truthy result); [|apply adds_ret].
  apply (adds_match_items (Some [Tag.TITLE]) (Some (resp_items result))).
Qed.

Lemma adds_search_collection collection :
  adds_at_most count P (query_budget h0 collection) (search_collection collection).
Proof.
  unfold _search_collection, query_budget, _search_items.
  set (n := length (unsearched h0 (Collection.items collection))).
  pose proof (adds_match_items None None (Collection.items collection)) as Hitems.
  fold n in Hitems.
  destruct (Collection.as_unit collection).
  - adds_seq 0 (3 + 3 * n); [apply adds_get_heap | intros h].
    adds_seq 0 (3 + 3 * n); [|intros _].
    { destruct (bool_decide _); [apply adds_log | apply adds_ret]. }
    adds_seq (3 + 3 * n) 0; [|intros _].
    + adds_seq 0 (3 + 3 * n); [apply adds_log | intros _].
      adds_seq 3 (3 * n); [apply adds_search_collection_unit | intros _].
      adds_seq 0 (3 * n); [apply adds_get_heap | intros h'].
      destruct (truthy _); [|apply adds_ret].
      adds_seq 0 (3 * n); [apply adds_log | intros _; exact Hitems].
    + adds_seq 0 0; [apply adds_get_heap | intros h'; apply adds_ret].
  - adds_seq 0 (3 * n); [apply adds_get_heap | intros h].
    adds_seq 0 (3 * n); [|intros _].
    { destruct (bool_decide _); [apply adds_log | apply adds_ret]. }
    adds_seq (3 * n) 0; [|intros _].
    + adds_seq 0 (3 * n); [apply adds_log | intros _; exact Hitems].
    + adds_seq 0 0; [apply adds_get_heap | intros h'; apply adds_ret].
Qed.

End Budget.

(** X20: [search] issues at most three queries for each collection
    searched as a unit and three for each item that is unsearched when it
    starts. *)
Theorem search_query_budget collections s :
  let s' := (searcher collections s).2 in
  (length (queries (trace s'))
   ≤ length (queries (trace s)) + sum_list_with (query_budget (heap s)) collections)%nat.
Proof.
  cbn zeta. unfold search. destruct (negb _); [cbn; lia|].
  pose proof (adds_executor_map (λ s, queries_sent (trace s))
                (λ s', assigned_from unavailable_uri_dummy (heap s) (heap s'))
                (query_budget (heap s))
                (λ coll, r <- search_collection coll ;; ret (Collection.name coll, r))
                collections) as H.
  assert (queries_sent (trace (executor_map
            (λ coll, r <- search_collection coll ;; ret (Collection.name coll, r))
            collections s).2)
          ≤ queries_sent (trace s) + sum_list_with (query_budget (heap s)) collections)%nat
    as Hsum.
  { apply H.
    - intros c. apply preserves_bind; [|intros r; apply preserves_ret].
      apply (frame_search_collection score is_karaoke karaoke_source query extend_items
               collection_item_map unavailable_uri_dummy (heap s)).
    - intros c _. apply (adds_weaken _ _ (query_budget (heap s) c + 0)); [lia|].
      apply adds_bind; [|apply adds_search_collection | intros r; apply adds_ret].
      apply (frame_search_collection score is_karaoke karaoke_source query extend_items
               collection_item_map unavailable_uri_dummy (heap s)).
    - intros r. by left. }
  destruct (executor_map _ collections s) as [outs s1]. exact Hsum.
Qed.

End SearcherMore.

Lemma search_collection_classifies_witness :
  let r := Ex.search_collection Ex.query_intro (Ex.folder "Mix" [0; 1] true)
             (Ex.start Ex.two_intros) in
  r.1 = Return {| matched := [1]; unmatched := []; skipped := [0] |} ∧
  Item.has_uri (Ex.two_intros 1) = None ∧ real_uri (heap r.2 1).
Proof.
  cbn zeta.
  destruct (Ex.search_collection Ex.query_intro (Ex.folder "Mix" [0; 1] true)
              (Ex.start Ex.two_intros)) as [o s'] eqn:E.
  assert (o = Return {| matched := [1]; unmatched := []; skipped := [0] |}) as ->.
  { change o with (o, s').1. rewrite <- E. vm_compute. reflexivity. }
  destruct (search_collection_classifies Ex.score Ex.never Ex.never Ex.query_intro
              Ex.extend_items Ex.collection_item_map Ex.unavailable_uri_dummy
              (Ex.folder "Mix" [0; 1] true) (Ex.start Ex.two_intros) _ s' E)
    as (_ & Hm & _).
  destruct (Hm 1) as (_ & H0 & H1 & _); [left|].
  split; [reflexivity|]. split; [exact H0 | exact H1].
Defined.

Lemma unit_search_kind_errors_witness :
  (Ex.search_collection Ex.no_results (kindless_folder [0; 1] false)
     (Ex.start Ex.two_unsearched)).1 = Raise MusifyAttributeError.
Proof.
  apply (proj1 (unit_search_kind_errors Ex.score Ex.never Ex.never Ex.no_results
                  Ex.extend_items Ex.collection_item_map Ex.unavailable_uri_dummy
                  (kindless_folder [0; 1] false) (Ex.start Ex.two_unsearched)
                  eq_refl eq_refl) eq_refl).
Defined.

Lemma item_failure_keeps_earlier_matches_witness :
  let r := Ex.search_collection Ex.query_alpha_fails (Ex.folder "Mix" [1; 0] true)
             (Ex.start Ex.two_unsearched) in
  r.1 = Raise (RemoteAPIError "503") ∧
  Item.uri (heap r.2 1) = Some "spotify:track:2" ∧
  Item.has_uri (heap r.2 0) = None.
Proof.
  destruct (item_failure_keeps_earlier_matches Ex.score Ex.never Ex.never
              Ex.query_alpha_fails Ex.extend_items Ex.collection_item_map
              Ex.unavailable_uri_dummy (Ex.folder "Mix" [1; 0] true)
              (Ex.start Ex.two_unsearched) [1] 0 [] (RemoteAPIError "503"))
    as [Hr Hh].
  - reflexivity.
  - reflexivity.
  - vm_compute. reflexivity.
  - vm_compute. reflexivity.
  - split; [exact Hr|]. rewrite !Hh. split; vm_compute; reflexivity.
Defined.

Lemma item_kind_errors_witness :
  (Ex.search Ex.no_results [Ex.folder "Mix" [0; 1] true] (Ex.start kindless_items)).1
  = Raise MusifyAttributeError.
Proof.
  apply (proj1 (item_kind_errors Ex.score Ex.never Ex.never Ex.no_results
                  Ex.extend_items Ex.collection_item_map Ex.unavailable_uri_dummy
                  (Ex.folder "Mix" [0; 1] true) (Ex.start kindless_items) 0 [1]
                  eq_refl eq_refl) eq_refl).
Defined.

(** ** Item collections *)

Import PyList.

Lemma same_refl (h : Heap) (x : ref) : ItemCollection.same h x x = true.
Proof. unfold ItemCollection.same. by rewrite bool_decide_eq_true_2. Qed.

Lemma same_sym (h : Heap) (x y : ref) :
  ItemCollection.same h x y = ItemCollection.same h y x.
Proof.
  unfold ItemCollection.same. rewrite (item_eq_sym (h x)). f_equal.
  apply bool_decide_ext. split; congruence.
Qed.

Lemma same_item_eq (h : Heap) (x y : ref) :
  ItemCollection.same h x y = Item.eq (h x) (h y).
Proof.
  unfold ItemCollection.same. destruct (decide (x = y)) as [->|Hne].
  - by rewrite bool_decide_eq_true_2, item_eq_refl.
  - by rewrite bool_decide_eq_false_2.
Qed.

Lemma same_trans (h : Heap) (x y z : ref) :
  ItemCollection.same h x y = true → ItemCollection.same h y z = true →
  ItemCollection.same h x z = true.
Proof. rewrite !same_item_eq. apply item_eq_trans. Qed.

Lemma same_class (h : Heap) (y t x : ref) :
  ItemCollection.same h y t = true →
  ItemCollection.same h y x = ItemCollection.same h t x.
Proof.
  intros H. destruct (ItemCollection.same h t x) eqn:E.
  - by apply (same_trans h y t x).
  - destruct (ItemCollection.same h y x) eqn:E'; [|done].
    rewrite same_sym in H. by rewrite (same_trans h t y x H E') in E.
Qed.

Lemma contains_existsb (h : Heap) (x : ref) (l : list ref) :
  contains h x l = existsb (λ y, ItemCollection.same h y x) l.
Proof. reflexivity. Qed.

Lemma existsb_false_iff {A} (f : A → bool) (l : list A) :
  existsb f l = false ↔ ∀ z, z ∈ l → f z = false.
Proof.
  induction l as [|y l IH]; cbn.
  - split; [intros _ z Hz; by apply elem_of_nil in Hz | done].
  - rewrite orb_false_iff, IH. split.
    + intros [Hy Hl] z Hz. apply elem_of_cons in Hz as [->|Hz]; auto.
    + intros H. split; [apply H; left | intros z Hz; apply H; by right].
Qed.

Lemma remove_ok {A} (same : A → A → bool) (l : list A) (x : A) (l' : list A) :
  PyList.remove same l x = Ok l' →
  ∃ pre y post, l = pre ++ y :: post ∧ l' = pre ++ post ∧ same y x = true ∧
                ∀ z, z ∈ pre → same z x = false.
Proof.
  revert l'. induction l as [|y l IH]; intros l' H; [discriminate|].
  cbn in H. destruct (same y x) eqn:E.
  - injection H as <-. exists [], y, l. repeat split; [done|].
    intros z Hz. by apply elem_of_nil in Hz.
  - destruct (PyList.remove same l x) as [l''|e] eqn:E'; [|discriminate].
    cbn in H. injection H as <-.
    destruct (IH l'' eq_refl) as (pre & y' & post & -> & -> & Hy & Hpre).
    exists (y :: pre), y', post. repeat split; [done|].
    intros z Hz. apply elem_of_cons in Hz as [->|Hz]; auto.
Qed.

Lemma remove_err {A} (same : A → A → bool) (l : list A) (x : A) (e : Error) :
  PyList.remove same l x = Err e →
  e = ValueError ∧ ∀ z, z ∈ l → same z x = false.
Proof.
  induction l as [|y l IH]; intros H.
  - cbn in H. injection H as <-. split; [done|]. intros z Hz. by apply elem_of_nil in Hz.
  - cbn in H. destruct (same y x) eqn:E; [discriminate|].
    destruct (PyList.remove same l x) as [l''|e'] eqn:E'; [discriminate|].
    cbn in H. injection H as <-. destruct (IH eq_refl) as [-> Hl].
    split; [done|]. intros z Hz. apply elem_of_cons in Hz as [->|Hz]; auto.
Qed.

Lemma remove_first {A} (same : A → A → bool) (pre : list A) (y : A) (post : list A) (x : A) :
  (∀ z, z ∈ pre → same z x = false) → same y x = true →
  PyList.remove same (pre ++ y :: post) x = Ok (pre ++ post).
Proof.
  intros Hpre Hy. induction pre as [|z pre IH]; cbn.
  - by rewrite Hy.
  - rewrite (Hpre z) by left. rewrite IH; [done|]. intros z' Hz'. apply Hpre. by right.
Qed.

(** X5: [remove] takes out the first item equal to the given one by
    [Item.__eq__] and leaves the rest in order, or raises [ValueError]
    when no item is equal; the item taken out need not be the object
    given, as for two tracks of one name without a real URI. *)
Theorem remove_first_equal (h : Heap) (items : list ref) (x : ref) :
  match ItemCollection.remove h items x with
  | Ok l => ∃ pre y post,
      items = pre ++ y :: post ∧ l = pre ++ post ∧
      Item.eq (h y) (h x) = true ∧
      ∀ z, z ∈ pre → z ≠ x ∧ Item.eq (h z) (h x) = false
  | Err e => e = ValueError ∧ ∀ z, z ∈ items → z ≠ x ∧ Item.eq (h z) (h x) = false
  end ∧
  ItemCollection.remove Ex.two_intros [0; 1] 1 = Ok [1].
Proof.
  split; [|reflexivity]. unfold ItemCollection.remove.
  assert (∀ z, ItemCollection.same h z x = false → z ≠ x ∧ Item.eq (h z) (h x) = false) as Hf.
  { intros z Hz. rewrite same_item_eq in Hz. split; [|done].
    intros ->. by rewrite item_eq_refl in Hz. }
  destruct (PyList.remove _ items x) as [l|e] eqn:E.
  - apply remove_ok in E as (pre & y & post & -> & -> & Hy & Hpre).
    exists pre, y, post. repeat split; auto.
    + by rewrite <- same_item_eq.
    + by apply Hf, Hpre.
    + by apply Hf, Hpre.
  - apply remove_err in E as [-> Hl]. split; [done|]. intros z Hz. by apply Hf, Hl.
Qed.

Lemma pop_some (items : list ref) (i : Z) :
  i ≠ 0%Z → ItemCollection.pop items (Some i) = PyList.pop items i.
Proof.
  intros Hi. unfold ItemCollection.pop.
  change (truthy (Some i)) with (negb (i =? 0)%Z).
  by destruct (Z.eqb_spec i 0).
Qed.

(** X6: [pop(0)], like [pop()], removes and returns the last item, not
    the first; any other index in range pops the item at that index, an
    index out of range and popping from an empty collection raise
    [IndexError]. *)
Theorem pop_zero_pops_last (items : list ref) (x : ref) :
  ItemCollection.pop (items ++ [x]) (Some 0%Z) = Ok (x, items) ∧
  ItemCollection.pop (items ++ [x]) None = Ok (x, items) ∧
  (∀ i, ItemCollection.pop [] i = Err IndexError) ∧
  (∀ (p : nat) (y : ref) (l : list ref),
     p ≠ 0 → l !! p = Some y →
     ItemCollection.pop l (Some (Z.of_nat p)) = Ok (y, delete p l)) ∧
  (∀ (i : Z) (l : list ref),
     i ≠ 0%Z → (i < - Z.of_nat (length l) ∨ Z.of_nat (length l) ≤ i)%Z →
     ItemCollection.pop l (Some i) = Err IndexError).
Proof.
  assert (PyList.pop (items ++ [x]) (-1) = Ok (x, items)) as Hlast.
  { unfold PyList.pop, wrap. rewrite length_app. cbn [length].
    replace (-1 <? 0)%Z with true by reflexivity.
    replace (-1 + Z.of_nat (length items + 1))%Z with (Z.of_nat (length items)) by lia.
    destruct (Z.ltb_spec (Z.of_nat (length items)) 0); [lia|].
    rewrite Nat2Z.id, list_lookup_middle by done. rewrite delete_middle.
    by rewrite app_nil_r. }
  split; [exact Hlast|]. split; [exact Hlast|]. split; [|split].
  - intros i. unfold ItemCollection.pop.
    assert (∀ z, @PyList.pop ref [] z = Err IndexError) as Hnil.
    { intros z. unfold PyList.pop. by destruct (wrap _ z <? 0)%Z. }
    destruct (truthy i); apply Hnil.
  - intros p y l Hp Hy. rewrite pop_some by lia.
    unfold PyList.pop, wrap. destruct (Z.ltb_spec (Z.of_nat p) 0); [lia|].
    destruct (Z.ltb_spec (Z.of_nat p) 0); [lia|].
    by rewrite Nat2Z.id, Hy.
  - intros i l Hi Hr. rewrite pop_some by done.
    unfold PyList.pop, wrap. destruct (Z.ltb_spec i 0).
    + destruct (Z.ltb_spec (i + Z.of_nat (length l)) 0); [done | lia].
    + destruct (Z.ltb_spec i 0); [lia|].
      rewrite lookup_ge_None_2; [done | lia].
Qed.

Lemma pop_zero_pops_last_witness :
  ItemCollection.pop [0; 1; 2] (Some 1%Z) = Ok (1, [0; 2]).
Proof.
  apply (proj1 (proj2 (proj2 (proj2 (pop_zero_pops_last [] 0)))) 1 1 [0; 1; 2]);
    [discriminate | reflexivity].
Defined.

Lemma contains_app (h : Heap) (x : ref) (l1 l2 : list ref) :
  contains h x (l1 ++ l2) = contains h x l1 || contains h x l2.
Proof. unfold contains. apply existsb_app. Qed.

Lemma contains_cons (h : Heap) (x y : ref) (l : list ref) :
  contains h x (y :: l) = ItemCollection.same h y x || contains h x l.
Proof. reflexivity. Qed.

Lemma distinct_insert_middle (h : Heap) (x : ref) (l1 l2 : list ref) :
  distinct h (l1 ++ l2) = true → contains h x (l1 ++ l2) = false →
  distinct h (l1 ++ x :: l2) = true.
Proof.
  induction l1 as [|y l1 IH]; cbn [app distinct].
  - intros Hd Hc. by rewrite Hc.
  - rewrite contains_cons, !andb_true_iff, !negb_true_iff, orb_false_iff.
    intros [Hy Hd] [Hyx Hc]. split; [|by apply IH].
    rewrite contains_app, contains_cons. rewrite contains_app in Hy.
    apply orb_false_iff in Hy as [Hy1 Hy2].
    by rewrite Hy1, Hy2, same_sym, Hyx.
Qed.

(** X7: with [allow_duplicates=False], [append] leaves the items as they
    are exactly when an item equal to the new one is present, and appends
    otherwise; [append] and [insert] keep a collection free of equal
    items. *)
Theorem append_without_duplicates (h : Heap) (items : list ref) (x : ref) :
  (ItemCollection.append h items x false = items
   ↔ ∃ y, y ∈ items ∧ Item.eq (h y) (h x) = true) ∧
  (ItemCollection.append h items x false = items ++ [x]
   ↔ ∀ y, y ∈ items → Item.eq (h y) (h x) = false) ∧
  (distinct h items = true →
   distinct h (ItemCollection.append h items x false) = true ∧
   ∀ i, distinct h (ItemCollection.insert h items i x false) = true).
Proof.
  assert (contains h x items = true ↔ ∃ y, y ∈ items ∧ Item.eq (h y) (h x) = true) as Ht.
  { rewrite contains_existsb. unfold is_true. rewrite existsb_exists.
    split; intros (y & Hy & E); exists y; rewrite <- ?list_elem_of_In in *;
      rewrite ?list_elem_of_In in *; rewrite same_item_eq in *; done. }
  assert (contains h x items = false ↔ ∀ y, y ∈ items → Item.eq (h y) (h x) = false) as Hf.
  { rewrite contains_existsb, existsb_false_iff.
    split; intros H y Hy; specialize (H y Hy); by rewrite same_item_eq in *. }
  unfold ItemCollection.append, ItemCollection.insert. cbn [orb].
  split; [|split].
  - rewrite <- Ht. destruct (contains h x items); cbn; split; try done.
    intros H. apply (f_equal length) in H. rewrite length_app in H. cbn in H. lia.
  - rewrite <- Hf. destruct (contains h x items); cbn; split; try done.
    intros H. apply (f_equal length) in H. rewrite length_app in H. cbn in H. lia.
  - intros Hd. destruct (contains h x items) eqn:E; cbn; [done|]. split.
    + apply distinct_insert_middle; by rewrite app_nil_r.
    + intros i. unfold PyList.insert. apply distinct_insert_middle; by rewrite take_drop.
Qed.

Lemma append_without_duplicates_witness :
  distinct Ex.two_unsearched (ItemCollection.append Ex.two_unsearched [0; 1] 2 false) = true.
Proof.
  apply (proj2 (proj2 (append_without_duplicates Ex.two_unsearched [0; 1] 2))).
  reflexivity.
Defined.

Lemma position_some {A} (f : A → bool) (l : list A) (i : nat) :
  position f l = Some i →
  ∃ y, l !! i = Some y ∧ f y = true ∧ ∀ j z, j < i → l !! j = Some z → f z = false.
Proof.
  revert i. induction l as [|y l IH]; intros i H; [discriminate|].
  cbn in H. destruct (f y) eqn:E.
  - injection H as <-. exists y. repeat split; [done|]. intros j z Hj. lia.
  - destruct (position f l) as [i'|] eqn:E'; [|discriminate].
    cbn in H. injection H as <-.
    destruct (IH i' eq_refl) as (y' & Hy' & Hf & Hlt).
    exists y'. repeat split; [done..|].
    intros [|j] z Hj Hz; cbn in Hz; [congruence|]. apply (Hlt j); [lia | done].
Qed.

Lemma position_none {A} (f : A → bool) (l : list A) :
  position f l = None ↔ existsb f l = false.
Proof.
  induction l as [|y l IH]; [done|]. cbn. destruct (f y); cbn; [done|].
  rewrite <- IH. by destruct (position f l).
Qed.

Lemma index_whole {A} (same : A → A → bool) (l : list A) (x : A) :
  PyList.index same l x 0 (Z.of_nat (length l))
  = match position (λ y, same y x) l with
    | Some i => Ok i
    | None => Err ValueError
    end.
Proof.
  unfold PyList.index.
  replace (clamp (length l) 0) with 0 by reflexivity.
  replace (clamp (length l) (Z.of_nat (length l))) with (length l).
  - cbn [drop]. rewrite firstn_all. reflexivity.
  - unfold clamp, wrap. destruct (Z.ltb_spec (Z.of_nat (length l)) 0); lia.
Qed.

(** X3: the membership tests of a collection agree: [__contains__] gives
    what [in self.items] gives, which holds exactly when [count] is
    positive, when [index] without bounds returns, and when [remove]
    does not raise [ValueError]. *)
Theorem membership_agrees (h : Heap) (items : list ref) (x : ref) :
  ItemCollection.__contains__ h items x = contains h x items ∧
  (contains h x items = true ↔ 0 < ItemCollection.count h items x) ∧
  (contains h x items = true ↔ ∃ i, ItemCollection.index h items x None None = Ok i) ∧
  (contains h x items = false ↔ ItemCollection.index h items x None None = Err ValueError) ∧
  (contains h x items = false ↔ ItemCollection.remove h items x = Err ValueError).
Proof.
  split; [|split; [|split; [|split]]].
  - unfold ItemCollection.__contains__. rewrite contains_existsb.
    induction items as [|y l IH]; [done|]. cbn.
    by rewrite IH, same_item_eq, item_eq_sym.
  - rewrite contains_existsb. unfold ItemCollection.count, PyList.count.
    induction items as [|y l IH]; cbn; [split; [done | lia]|].
    destruct (ItemCollection.same h y x); cbn; [split; [lia | done] | exact IH].
  - unfold ItemCollection.index. cbn [ItemCollection.or_else]. rewrite index_whole.
    rewrite contains_existsb.
    destruct (position _ items) as [i|] eqn:E.
    + split; [by eexists|]. intros _.
      destruct (existsb _ items) eqn:E'; [done|].
      apply position_none in E'. congruence.
    + apply position_none in E. rewrite E. split; [done | by intros [? ?]].
  - unfold ItemCollection.index. cbn [ItemCollection.or_else]. rewrite index_whole.
    rewrite contains_existsb, <- position_none.
    by destruct (position _ items).
  - rewrite contains_existsb, existsb_false_iff. unfold ItemCollection.remove. split.
    + intros H. destruct (PyList.remove _ items x) as [l|e] eqn:E.
      * apply remove_ok in E as (pre & y & post & -> & _ & Hy & _).
        rewrite H in Hy; [done|]. apply elem_of_app. right. left.
      * by apply remove_err in E as [-> _].
    + intros H. by apply remove_err in H as [_ H].
Qed.

Lemma membership_agrees_witness :
  ∃ i, ItemCollection.index Ex.two_intros [0; 1] 1 None None = Ok i.
Proof.
  apply (proj1 (proj2 (proj2 (membership_agrees Ex.two_intros [0; 1] 1)))).
  reflexivity.
Defined.

(** X4: [index] without bounds returns the position of the first item
    equal to the given one; a stop of 0 is taken as no stop at all, where
    the list's own [index] with stop 0 never finds anything. *)
Theorem index_first_equal (h : Heap) (items : list ref) (x : ref) :
  (∀ i, ItemCollection.index h items x None None = Ok i →
        ∃ y, items !! i = Some y ∧ Item.eq (h y) (h x) = true ∧
             ∀ j z, j < i → items !! j = Some z → Item.eq (h z) (h x) = false) ∧
  (∀ start,
     ItemCollection.index h items x start (Some 0%Z)
     = ItemCollection.index h items x start None) ∧
  (∀ start, PyList.index (ItemCollection.same h) items x start 0 = Err ValueError).
Proof.
  split; [|split].
  - intros i. unfold ItemCollection.index. cbn [ItemCollection.or_else].
    rewrite index_whole. destruct (position _ items) as [i'|] eqn:E; [|done].
    intros [= <-]. apply position_some in E as (y & Hy & Hs & Hlt).
    exists y. rewrite same_item_eq in Hs. repeat split; [done..|].
    intros j z Hj Hz. rewrite <- same_item_eq. by apply (Hlt j).
  - reflexivity.
  - intros start. unfold PyList.index.
    replace (clamp (length items) 0) with 0.
    + by rewrite take_0, drop_nil.
    + unfold clamp, wrap. reflexivity.
Qed.

Lemma index_first_equal_witness :
  ∃ y, [0; 1] !! 0 = Some y ∧ Item.eq (Ex.two_intros y) (Ex.two_intros 1) = true.
Proof.
  destruct (proj1 (index_first_equal Ex.two_intros [0; 1] 1) 0 eq_refl) as (y & Hy & He & _).
  exists y. split; [exact Hy | exact He].
Defined.

Lemma find_first {A} (f : A → bool) (l : list A) :
  match List.find f l with
  | Some y => ∃ pre post, l = pre ++ y :: post ∧ f y = true ∧ ∀ z, z ∈ pre → f z = false
  | None => ∀ z, z ∈ l → f z = false
  end.
Proof.
  induction l as [|y l IH]; cbn.
  - intros z Hz. by apply elem_of_nil in Hz.
  - destruct (f y) eqn:E.
    + exists [], l. repeat split; [done|]. intros z Hz. by apply elem_of_nil in Hz.
    + destruct (List.find f l) as [y'|].
      * destruct IH as (pre & post & -> & Hy' & Hpre). exists (y :: pre), post.
        repeat split; [done|]. intros z Hz. apply elem_of_cons in Hz as [->|Hz]; auto.
      * intros z Hz. apply elem_of_cons in Hz as [->|Hz]; auto.
Qed.

Lemma getitem_ok {A} (l : list A) (i : Z) (a : A) :
  PyList.getitem l i = Ok a →
  (- Z.of_nat (length l) ≤ i < Z.of_nat (length l))%Z ∧
  l !! Z.to_nat (wrap (length l) i) = Some a.
Proof.
  unfold PyList.getitem. destruct (Z.ltb_spec (wrap (length l) i) 0); [done|].
  destruct (l !! Z.to_nat (wrap (length l) i)) as [a'|] eqn:E; [|done].
  intros [= <-]. split; [|done]. apply lookup_lt_Some in E.
  unfold wrap in *. destruct (Z.ltb_spec i 0); lia.
Qed.

Lemma getitem_err {A} (l : list A) (i : Z) (e : Error) :
  PyList.getitem l i = Err e →
  e = IndexError ∧ (i < - Z.of_nat (length l) ∨ Z.of_nat (length l) ≤ i)%Z.
Proof.
  unfold PyList.getitem. destruct (Z.ltb_spec (wrap (length l) i) 0).
  - intros [= <-]. split; [done|]. unfold wrap in *. destruct (Z.ltb_spec i 0); lia.
  - destruct (l !! Z.to_nat (wrap (length l) i)) as [a'|] eqn:E; [done|].
    intros [= <-]. split; [done|]. apply lookup_ge_None in E.
    unfold wrap in *. destruct (Z.ltb_spec i 0); lia.
Qed.

(** X9: [BasicCollection.__getitem__]: a string key is looked up among
    the names only and yields the first item of that name; an item key
    needs a real URI and yields the first item with that URI; a missing
    name or URI raises [KeyError], an integer out of range [IndexError]. *)
Theorem getitem_lookup (h : Heap) (items : list ref) :
  (∀ s, match ItemCollection.__getitem__ h items (ItemCollection.KStr s) with
        | Ok item => ∃ pre post, items = pre ++ item :: post ∧ Item.name (h item) = s ∧
                                 ∀ z, z ∈ pre → Item.name (h z) ≠ s
        | Err e => e = KeyError ∧ ∀ z, z ∈ items → Item.name (h z) ≠ s
        end) ∧
  (∀ k, ¬ real_uri (h k) ∨ Item.uri (h k) = None →
        ItemCollection.__getitem__ h items (ItemCollection.KItem k) = Err KeyError) ∧
  (∀ k, real_uri (h k) → Item.uri (h k) ≠ None →
        match ItemCollection.__getitem__ h items (ItemCollection.KItem k) with
        | Ok item => ∃ pre post, items = pre ++ item :: post ∧
                                 Item.uri (h item) = Item.uri (h k) ∧
                                 ∀ z, z ∈ pre → Item.uri (h z) ≠ Item.uri (h k)
        | Err e => e = KeyError ∧ ∀ z, z ∈ items → Item.uri (h z) ≠ Item.uri (h k)
        end) ∧
  (∀ i, match ItemCollection.__getitem__ h items (ItemCollection.KInt i) with
        | Ok item => (- Z.of_nat (length items) ≤ i < Z.of_nat (length items))%Z ∧
                     items !! Z.to_nat (wrap (length items) i) = Some item
        | Err e => e = IndexError ∧
                   (i < - Z.of_nat (length items) ∨ Z.of_nat (length items) ≤ i)%Z
        end).
Proof.
  assert (∀ (f : ref → bool) (P : ref → Prop),
            (∀ z, f z = true ↔ P z) →
            match ItemCollection.first_where f items with
            | Ok item => ∃ pre post, items = pre ++ item :: post ∧ P item ∧
                                     ∀ z, z ∈ pre → ¬ P z
            | Err e => e = KeyError ∧ ∀ z, z ∈ items → ¬ P z
            end) as Hfirst.
  { intros f P HP. unfold ItemCollection.first_where.
    pose proof (find_first f items) as Hf. destruct (List.find f items) as [y|].
    - destruct Hf as (pre & post & -> & Hy & Hpre). exists pre, post.
      split; [done|]. split; [by apply HP|]. intros z Hz HPz. apply HP in HPz.
      by rewrite (Hpre z Hz) in HPz.
    - split; [done|]. intros z Hz HPz. apply HP in HPz. by rewrite (Hf z Hz) in HPz. }
  split; [|split; [|split]].
  - intros s. cbn. apply (Hfirst _ (λ z, Item.name (h z) = s)).
    intros z. apply bool_decide_eq_true.
  - intros k Hk. cbn. destruct Hk as [Hk|Hk].
    + rewrite <- truthy_has_uri in Hk. by destruct (truthy (Item.has_uri (h k))).
    + rewrite (bool_decide_eq_true_2 _ Hk). by rewrite orb_true_r.
  - intros k Hk Hu. cbn. apply truthy_has_uri in Hk. rewrite Hk.
    rewrite (bool_decide_eq_false_2 _ Hu). cbn.
    apply (Hfirst _ (λ z, Item.uri (h z) = Item.uri (h k))).
    intros z. apply bool_decide_eq_true.
  - intros i. cbn. destruct (getitem items i) as [a|e] eqn:E.
    + by apply getitem_ok.
    + by apply getitem_err.
Qed.

Lemma getitem_lookup_witness :
  ItemCollection.__getitem__ Ex.two_intros [0; 1] (ItemCollection.KItem 1) = Err KeyError.
Proof.
  apply (proj1 (proj2 (getitem_lookup Ex.two_intros [0; 1]))).
  left. discriminate.
Defined.

Lemma position_split {A} (f : A → bool) (l : list A) (i : nat) :
  position f l = Some i →
  ∃ pre y post, l = pre ++ y :: post ∧ length pre = i ∧ f y = true ∧
                ∀ z, z ∈ pre → f z = false.
Proof.
  intros H. apply position_some in H as (y & Hy & Hf & Hlt).
  exists (take i l), y, (drop (S i) l). split; [by rewrite take_drop_middle|].
  split; [rewrite length_take; apply lookup_lt_Some in Hy; lia|].
  split; [done|]. intros z Hz. apply list_elem_of_lookup_1 in Hz as [j Hj].
  apply lookup_take_Some in Hj as [Hj Hlt']. by apply (Hlt j).
Qed.

Lemma getitem_elem_of (h : Heap) (items : list ref) (key : ItemCollection.Key) (item : ref) :
  ItemCollection.__getitem__ h items key = Ok item → item ∈ items.
Proof.
  assert (∀ f, ItemCollection.first_where f items = Ok item → item ∈ items) as Hfirst.
  { intros f. unfold ItemCollection.first_where.
    destruct (List.find f items) as [y|] eqn:E; [|done]. intros [= <-].
    apply List.find_some in E as [E _]. by apply list_elem_of_In. }
  destruct key as [i|k|s]; cbn.
  - intros H. apply getitem_ok in H as [_ H]. by apply list_elem_of_lookup_2 in H.
  - destruct (_ || _); [done | apply Hfirst].
  - apply Hfirst.
Qed.

(** X10: [__setitem__] replaces the first item equal to the one the key
    finds, which need not be the item found: with two equal items,
    assigning at index 1 replaces index 0.  A value of another class
    raises [ValueError]; a failed lookup re-raises its error. *)
Theorem setitem_replaces_first_equal {C} `{EqDecision C} (class_of : ref → C)
    (h : Heap) (items : list ref) (key : ItemCollection.Key) (value : ref) :
  match ItemCollection.__getitem__ h items key with
  | Ok item =>
      if decide (class_of value = class_of item)
      then ∃ pre y post,
             items = pre ++ y :: post ∧
             Item.eq (h y) (h item) = true ∧
             (∀ z, z ∈ pre → Item.eq (h z) (h item) = false) ∧
             ItemCollection.__setitem__ class_of h items key value
             = Ok (pre ++ value :: post)
      else ItemCollection.__setitem__ class_of h items key value = Err ValueError
  | Err e => ItemCollection.__setitem__ class_of h items key value = Err e
  end ∧
  ItemCollection.__setitem__ (λ _, ()) Ex.two_intros [0; 1] (ItemCollection.KInt 1) 5
  = Ok [5; 1].
Proof.
  split; [|reflexivity]. unfold ItemCollection.__setitem__.
  destruct (ItemCollection.__getitem__ h items key) as [item|e] eqn:E; [|done].
  cbn [and_then]. destruct (decide (class_of value = class_of item)) as [Hc|Hc].
  - rewrite (bool_decide_eq_true_2 _ Hc). cbn [negb].
    unfold ItemCollection.index. cbn [ItemCollection.or_else]. rewrite index_whole.
    destruct (position (λ y, ItemCollection.same h y item) items) as [i|] eqn:Ei.
    + apply position_split in Ei as (pre & y & post & -> & <- & Hy & Hpre).
      exists pre, y, post. rewrite same_item_eq in Hy. repeat split; [done|..].
      * intros z Hz. rewrite <- same_item_eq. by apply Hpre.
      * cbn [and_then]. unfold setitem.
        by rewrite <- (Nat.add_0_r (length pre)), insert_app_r.
    + apply position_none in Ei. rewrite existsb_false_iff in Ei.
      apply getitem_elem_of in E. specialize (Ei item E). by rewrite same_refl in Ei.
  - by rewrite (bool_decide_eq_false_2 _ Hc).
Qed.

Lemma remove_length_sublist {A} (same : A → A → bool) (l : list A) (x : A) (l' : list A) :
  PyList.remove same l x = Ok l' → length l' + 1 = length l ∧ l' `sublist_of` l.
Proof.
  intros H. apply remove_ok in H as (pre & y & post & -> & -> & _ & _).
  split; [rewrite !length_app; cbn; lia|].
  apply sublist_app; [done|]. by apply sublist_cons.
Qed.

Lemma sub_fold_err (h : Heap) (other : list ref) (e : Error) :
  fold_left (λ acc item, and_then acc (λ l, ItemCollection.remove h l item)) other (Err e)
  = Err e.
Proof. induction other as [|x other IH]; [done | exact IH]. Qed.

(** X8: [__sub__] removes the given items one after another from a copy:
    when it returns, the result is a sublist of the items, shorter by the
    number of items given; it raises nothing but [ValueError];
    subtracting a collection's own items leaves nothing. *)
Theorem sub_removes_in_turn (h : Heap) (items other : list ref) :
  match ItemCollection.__sub__ h items other with
  | Ok l => length l + length other = length items ∧ l `sublist_of` items
  | Err e => e = ValueError
  end ∧
  ItemCollection.__sub__ h items items = Ok [] ∧
  ItemCollection.__sub__ h items [] = Ok items.
Proof.
  unfold ItemCollection.__sub__. split; [|split; [|reflexivity]].
  - revert items. induction other as [|x other IH]; intros items; cbn [fold_left].
    + split; [cbn; lia | done].
    + cbn [and_then]. destruct (ItemCollection.remove h items x) as [l'|e] eqn:E.
      * apply remove_length_sublist in E as [El Es]. specialize (IH l').
        destruct (fold_left _ other (Ok l')) as [l|e]; [|done].
        destruct IH as [IH1 IH2]. split; [cbn; lia | by etrans].
      * rewrite sub_fold_err. by apply remove_err in E as [-> _].
  - induction items as [|x items IH]; [done|]. cbn [fold_left and_then].
    unfold ItemCollection.remove. cbn [PyList.remove]. by rewrite same_refl.
Qed.

Lemma zip_all_refl (h : Heap) (l : list ref) : ItemCollection.zip_all h l l = true.
Proof. induction l as [|x l IH]; [done|]. cbn. by rewrite item_eq_refl. Qed.

Lemma zip_all_sym (h : Heap) (l1 l2 : list ref) :
  ItemCollection.zip_all h l1 l2 = ItemCollection.zip_all h l2 l1.
Proof.
  revert l2. induction l1 as [|x l1 IH]; intros [|y l2]; try done.
  cbn. by rewrite IH, item_eq_sym.
Qed.

Lemma zip_all_trans (h : Heap) (l1 l2 l3 : list ref) :
  length l1 = length l2 →
  ItemCollection.zip_all h l1 l2 = true → ItemCollection.zip_all h l2 l3 = true →
  ItemCollection.zip_all h l1 l3 = true.
Proof.
  revert l2 l3. induction l1 as [|x l1 IH]; intros [|y l2] [|z l3]; try done.
  cbn. rewrite !andb_true_iff. intros [= Hl] [H1 H2] [H3 H4].
  split; [by apply (item_eq_trans _ (h y)) | by apply (IH l2)].
Qed.

(** X2: [ItemCollection.__eq__] is an equivalence relation on collections,
    a collection being its name and its items. *)
Theorem collection_eq_equivalence (h : Heap) :
  (∀ c, ItemCollection.__eq__ h c c = true) ∧
  (∀ c1 c2, ItemCollection.__eq__ h c1 c2 = ItemCollection.__eq__ h c2 c1) ∧
  (∀ c1 c2 c3, ItemCollection.__eq__ h c1 c2 = true → ItemCollection.__eq__ h c2 c3 = true →
               ItemCollection.__eq__ h c1 c3 = true).
Proof.
  unfold ItemCollection.__eq__. split; [|split].
  - intros c. by rewrite !bool_decide_eq_true_2, zip_all_refl.
  - intros c1 c2. rewrite zip_all_sym. do 2 f_equal;
      apply bool_decide_ext; split; congruence.
  - intros c1 c2 c3. rewrite !andb_true_iff, !bool_decide_eq_true.
    intros [[H1 H2] H3] [[H4 H5] H6].
    repeat split; [congruence.. | by apply (zip_all_trans h _ c2.2)].
Qed.

Lemma collection_eq_equivalence_witness :
  ItemCollection.__eq__ Ex.two_intros ("Mix", [0]) ("Mix", [2]) = true.
Proof.
  apply (proj2 (proj2 (collection_eq_equivalence Ex.two_intros)) _ ("Mix", [1]));
    reflexivity.
Defined.

(** ** The caller's pruning *)

Lemma count_middle {A} (same : A → A → bool) (pre : list A) (y : A) (post : list A) (x : A) :
  PyList.count same (pre ++ y :: post) x
  = PyList.count same (pre ++ post) x + (if same y x then 1 else 0).
Proof.
  unfold PyList.count. rewrite !List.filter_app, !length_app. cbn.
  destruct (same y x); cbn; lia.
Qed.

Lemma count_pos_remove {A} (same : A → A → bool) (l : list A) (x : A) :
  0 < PyList.count same l x → ∃ l', PyList.remove same l x = Ok l'.
Proof.
  intros H. destruct (PyList.remove same l x) as [l'|e] eqn:E; [by eexists|].
  apply remove_err in E as [_ E]. unfold PyList.count in H.
  rewrite filter_none in H; [cbn in H; lia | done].
Qed.

Lemma fold_left_err {A B} (f : Result A → B → Result A) (l : list B) (e : Error) :
  (∀ x, f (Err e) x = Err e) → fold_left f l (Err e) = Err e.
Proof. intros H. induction l as [|x l IH]; [done|]. cbn. by rewrite H. Qed.

Lemma prune_fold (h : Heap) (todo acc : list ref) :
  (∀ x, (PyList.count (ItemCollection.same h) (List.filter (searched h) todo) x
         ≤ PyList.count (ItemCollection.same h) acc x)%nat) →
  ∃ l,
    fold_left
      (λ acc track,
         if bool_decide (Item.has_uri (h track) ≠ None)
         then and_then acc (λ l, ItemCollection.remove h l track)
         else acc)
      todo (Ok acc) = Ok l ∧
    length l + length (List.filter (searched h) todo) = length acc ∧
    l `sublist_of` acc.
Proof.
  revert acc. induction todo as [|t todo IH]; intros acc Hc.
  - exists acc. cbn. split; [done|]. split; [lia | done].
  - cbn [fold_left List.filter] in *.
    change (bool_decide (Item.has_uri (h t) ≠ None)) with (searched h t).
    destruct (searched h t) eqn:Et; [|by apply IH].
    cbn [and_then].
    destruct (count_pos_remove (ItemCollection.same h) acc t) as [acc' E].
    { specialize (Hc t). unfold PyList.count in Hc at 1. cbn [List.filter] in Hc.
      rewrite same_refl in Hc. cbn [length] in Hc. lia. }
    unfold ItemCollection.remove. rewrite E.
    apply remove_ok in E as (pre & y & post & -> & -> & Hy & _).
    destruct (IH (pre ++ post)) as (l & El & Hl & Hs).
    { intros x. specialize (Hc x). rewrite count_middle in Hc.
      unfold PyList.count in Hc at 1. cbn [List.filter] in Hc.
      fold (PyList.count (ItemCollection.same h) (List.filter (searched h) todo) x) in Hc.
      rewrite (same_class h y t x Hy) in Hc.
      unfold PyList.count in *.
      destruct (ItemCollection.same h t x); cbn [length] in Hc; lia. }
    exists l. split; [exact El|]. split.
    + cbn [length]. rewrite !length_app in *. cbn [length]. lia.
    + etrans; [exact Hs|]. apply sublist_app; [done|]. by apply sublist_cons.
Qed.

Lemma prune_fold_exact (h : Heap) (todo acc l : list ref) :
  (∀ y t, y ∈ acc → t ∈ todo → Item.has_uri (h y) = None → searched h t = true →
          ItemCollection.same h y t = false) →
  fold_left
    (λ acc track,
       if bool_decide (Item.has_uri (h track) ≠ None)
       then and_then acc (λ l, ItemCollection.remove h l track)
       else acc)
    todo (Ok acc) = Ok l →
  unsearched h l = unsearched h acc.
Proof.
  revert acc. induction todo as [|t todo IH]; intros acc H E.
  - cbn in E. by injection E as <-.
  - cbn [fold_left] in E.
    destruct (bool_decide (Item.has_uri (h t) ≠ None)) eqn:Et.
    + cbn [and_then] in E.
      destruct (ItemCollection.remove h acc t) as [acc'|e] eqn:Er.
      * apply remove_ok in Er as (pre & y & post & -> & -> & Hy & _).
        assert (unsearched h l = unsearched h (pre ++ post)) as ->.
        { apply IH; [|exact E]. intros y' t' Hy' Ht'. apply H; [|by right].
          apply elem_of_app in Hy' as [?|?]; apply elem_of_app; [by left|].
          right. by right. }
        unfold unsearched. rewrite !List.filter_app. cbn [List.filter].
        destruct (bool_decide (Item.has_uri (h y) = None)) eqn:Ey; [|done].
        apply bool_decide_eq_true in Ey.
        rewrite (H y t) in Hy; [done | | by left | done | done].
        apply elem_of_app. right. left.
      * rewrite fold_left_err in E; [done|]. intros x. cbn.
        by destruct (bool_decide (Item.has_uri (h x) ≠ None)).
    + apply IH; [|exact E]. intros y' t' Hy' Ht'. apply H; [done | by right].
Qed.

Lemma filter_length_eq {A} (f : A → bool) (l : list A) :
  length (List.filter f l) = length l → List.filter f l = l.
Proof.
  induction l as [|x l IH]; [done|]. cbn. destruct (f x); cbn.
  - intros [= H]. by rewrite IH.
  - intros H. pose proof (List.filter_length_le f l). lia.
Qed.

Lemma searched_unsearched (h : Heap) (l : list ref) :
  length (unsearched h l) + length (List.filter (searched h) l) = length l.
Proof.
  unfold unsearched. rewrite <- (filter_length_split (searched h) l).
  rewrite Nat.add_comm. f_equal. f_equal. apply List.filter_ext. intros x.
  unfold searched. by destruct (Item.has_uri (h x)).
Qed.

Lemma prune_tracks_spec (h : Heap) (items : list ref) :
  ∃ l, prune_tracks h items = Ok l ∧
       length l = length (unsearched h items) ∧
       l `sublist_of` items ∧
       ((∀ x y, x ∈ items → y ∈ items → Item.has_uri (h x) = None →
                Item.has_uri (h y) = Some false → Item.name (h x) ≠ Item.name (h y)) →
        l = unsearched h items).
Proof.
  unfold prune_tracks.
  destruct (prune_fold h items items) as (l & El & Hl & Hs).
  { intros x. unfold PyList.count. rewrite filter_filter_comm.
    induction items as [|y items IH]; cbn; [lia|].
    destruct (searched h y), (ItemCollection.same h y x); cbn; lia. }
  exists l. pose proof (searched_unsearched h items) as Hsu.
  split; [exact El|]. split; [lia|]. split; [exact Hs|].
  intros Hno. assert (unsearched h l = unsearched h items) as Hu.
  { apply (prune_fold_exact h items items l); [|exact El].
    intros y t Hy Ht Hyn Hts. rewrite same_item_eq. unfold Item.eq. rewrite Hyn.
    unfold searched in Hts. apply bool_decide_eq_true in Hts.
    destruct (Item.has_uri (h t)) as [[|]|] eqn:Eh; [done| |done].
    cbn. apply bool_decide_eq_false. by apply Hno. }
  rewrite <- Hu. symmetry. apply filter_length_eq. unfold unsearched in Hu.
  rewrite Hu. fold (unsearched h items). lia.
Qed.

Lemma prune_albums_fold (h : Heap) (todo pre : list (string * list ref)) :
  (∀ z, z ∈ pre → length z.2 ≠ 0) →
  fold_left
    (λ acc album,
       if bool_decide (length album.2 = 0)
       then and_then acc (λ l, PyList.remove (ItemCollection.__eq__ h) l album)
       else acc)
    todo (Ok (pre ++ todo))
  = Ok (pre ++ List.filter (λ a, negb (bool_decide (length a.2 = 0))) todo).
Proof.
  revert pre. induction todo as [|a todo IH]; intros pre Hpre; [done|].
  cbn [fold_left List.filter]. destruct (bool_decide (length a.2 = 0)) eqn:Ea.
  - cbn [and_then negb]. rewrite remove_first.
    + by apply IH.
    + intros z Hz. unfold ItemCollection.__eq__. apply bool_decide_eq_true in Ea.
      rewrite Ea. rewrite (bool_decide_eq_false_2 (length z.2 = 0)) by by apply Hpre.
      by rewrite andb_false_r.
    + unfold ItemCollection.__eq__. by rewrite !bool_decide_eq_true_2, zip_all_refl.
  - cbn [negb]. rewrite (cons_middle a pre todo), app_assoc. rewrite IH.
    + by rewrite <- app_assoc.
    + intros z Hz. apply elem_of_app in Hz as [Hz|Hz]; [by apply Hpre|].
      apply list_elem_of_singleton in Hz as ->. by apply bool_decide_eq_false in Ea.
Qed.

Lemma prune_albums_spec (h : Heap) (albums : list (string * list ref)) :
  prune_albums h albums
  = Ok (List.filter (λ a, negb (bool_decide (length a.2 = 0))) albums).
Proof. apply (prune_albums_fold h albums []). intros z Hz. by apply elem_of_nil in Hz. Qed.

(** X11: the pruning in [main.search] never raises; it leaves each album
    with as many tracks as it had unsearched ones, taken in order from
    its tracks, and drops exactly the albums left empty.  The tracks left
    are the unsearched ones when no unsearched track shares its name with
    an unavailable one; otherwise an unsearched track can be dropped in
    place of the unavailable one. *)
Theorem prune_before_search (h : Heap) (albums : list (string * list ref)) :
  (∃ pruned,
     prune h albums
     = Ok (List.filter (λ a, negb (bool_decide (length a.2 = 0))) pruned) ∧
     Forall2
       (λ a' a,
          a'.1 = a.1 ∧
          length a'.2 = length (unsearched h a.2) ∧
          a'.2 `sublist_of` a.2 ∧
          ((∀ x y, x ∈ a.2 → y ∈ a.2 → Item.has_uri (h x) = None →
                   Item.has_uri (h y) = Some false →
                   Item.name (h x) ≠ Item.name (h y)) →
           a'.2 = unsearched h a.2))
       pruned albums) ∧
  prune Ex.two_intros [("Mix", [1; 0])] = Ok [("Mix", [0])].
Proof.
  split; [|reflexivity].
  assert (∃ pruned, prune_all_tracks h albums = Ok pruned ∧
            Forall2
              (λ a' a,
                 a'.1 = a.1 ∧
                 length a'.2 = length (unsearched h a.2) ∧
                 a'.2 `sublist_of` a.2 ∧
                 ((∀ x y, x ∈ a.2 → y ∈ a.2 → Item.has_uri (h x) = None →
                          Item.has_uri (h y) = Some false →
                          Item.name (h x) ≠ Item.name (h y)) →
                  a'.2 = unsearched h a.2))
              pruned albums) as (pruned & E & HF).
  { induction albums as [|a albums (pruned & E & HF)].
    - exists []. split; [done | constructor].
    - destruct (prune_tracks_spec h a.2) as (l & El & H1 & H2 & H3).
      exists ((a.1, l) :: pruned). cbn [prune_all_tracks]. rewrite El, E.
      split; [done|]. by constructor. }
  exists pruned. split; [|exact HF].
  unfold prune. rewrite E. cbn [and_then]. apply prune_albums_spec.
Qed.

Lemma prune_before_search_witness :
  ∃ pruned,
    prune Ex.two_unsearched [("A", [0; 2]); ("B", [3])]
    = Ok (List.filter (λ a, negb (bool_decide (length a.2 = 0))) pruned).
Proof.
  destruct (proj1 (prune_before_search Ex.two_unsearched [("A", [0; 2]); ("B", [3])]))
    as (pruned & E & _).
  exists pruned. exact E.
Defined.
